(** * hsmcpp: the hierarchical state machine engine

    A shallow embedding of [include/hsmcpp/hsm.hpp]
    (class [HierarchicalStateMachine<HsmStateEnum, HsmEventEnum>]) in the
    default build: [HSM_ENABLE_SAFE_STRUCTURE] is not defined, and the queue
    mutex of [_HSM_SYNC_EVENTS_QUEUE] is a critical section that a
    sequential model executes as written.

    The two enumerations are embedded as their underlying integers.  Member
    functions become functions on the record [Hsm], which holds the members
    of the class together with the three things an execution touches outside
    of it: the shared completion objects of synchronous events ([heap]), the
    state of the client the callbacks close over ([world]), and the log of
    callback invocations ([trace]). *)

From stdpp Require Import base numbers option list gmap.

Abbreviation HsmStateEnum := Z.
Abbreviation HsmEventEnum := Z.

(** ** std::multimap

    A multimap is the list of its entries in iteration order: ascending by
    key, entries of equivalent keys in insertion order.  [lt] is the key
    comparison ([std::less]). *)
Section multimap.
Context {K V : Type} (lt : K -> K -> bool).

Definition equiv (k1 k2 : K) : bool := negb (lt k1 k2) && negb (lt k2 k1).

(** [emplace]: the new entry goes to the upper bound of its key. *)
Fixpoint emplace (k : K) (v : V) (l : list (K * V)) : list (K * V) :=
  match l with
  | [] => [(k, v)]
  | (k', v') :: l' =>
      if lt k k' then (k, v) :: l else (k', v') :: emplace k v l'
  end.

(** [equal_range]: the values stored under keys equivalent to [k], in
    iteration order. *)
Fixpoint equal_range (k : K) (l : list (K * V)) : list V :=
  match l with
  | [] => []
  | (k', v) :: l' =>
      if equiv k k' then v :: equal_range k l' else equal_range k l'
  end.

(** Iteration order is ascending: no entry is followed by a smaller key. *)
Fixpoint ascending (l : list (K * V)) : Prop :=
  match l with
  | [] => True
  | (k, _) :: l' => Forall (fun e => lt (fst e) k = false) l' /\ ascending l'
  end.
End multimap.

(** Comparison of the keys of [mTransitionsByEvent]: [std::pair]'s
    lexicographic [operator<]. *)
Definition pair_lt (a b : Z * Z) : bool :=
  (a.1 <? b.1)%Z || (negb (b.1 <? a.1)%Z && (a.2 <? b.2)%Z).

Inductive HsmEventStatus := PENDING | DONE_OK | DONE_FAILED.

#[global] Instance HsmEventStatus_eq_dec : EqDecision HsmEventStatus.
Proof. solve_decision. Defined.

(** Modelled from the spec: the dispatcher interface of
    [IHsmEventDispatcher.hpp], which is not among the sources.  The host
    loop answers [start()], hands out handler ids, forgets handlers and
    counts the wake-ups requested through [emitEvent()]. *)
Record IHsmEventDispatcher := mkDispatcher {
  startResult : bool;
  nextHandlerID : Z;
  eventHandlers : list Z;
  emitted : nat }.

Definition start (d : IHsmEventDispatcher) : bool * IHsmEventDispatcher :=
  (startResult d, d).

Definition registerEventHandler (d : IHsmEventDispatcher)
  : Z * IHsmEventDispatcher :=
  (nextHandlerID d,
   mkDispatcher (startResult d) (nextHandlerID d + 1)
                (eventHandlers d ++ [nextHandlerID d]) (emitted d)).

Definition unregisterEventHandler (id : Z) (d : IHsmEventDispatcher)
  : IHsmEventDispatcher :=
  mkDispatcher (startResult d) (nextHandlerID d)
               (List.filter (fun h => negb (h =? id)%Z) (eventHandlers d))
               (emitted d).

Definition emitEvent (d : IHsmEventDispatcher) : IHsmEventDispatcher :=
  mkDispatcher (startResult d) (nextHandlerID d) (eventHandlers d)
               (S (emitted d)).

Section hsm.
(** [W] is the state of the client code the callbacks close over;
    [Variant] is the element type of an event's argument list
    ([variant.hpp] is not among the sources).
    [INVALID_HSM_DISPATCHER_HANDLER_ID] is a constant of the missing
    dispatcher header. *)
Variables (W Variant : Type).
Variable INVALID_HSM_DISPATCHER_HANDLER_ID : Z.

Definition VariantList_t := list Variant.

(** ** Callbacks

    A [std::function] member is [None] when it is [nullptr].  A callback
    is a closure of the client: it reads and writes the client's state,
    and it can ask the machine for [getCurrentState()], so the value of
    [mCurrentState] at the moment of the call is its first argument.
    Here a callback calls nothing else of the machine; callbacks that post
    events while they run are the subject of the module [Posting]
    below. *)
Definition HsmTransitionCallback_t :=
  HsmStateEnum -> VariantList_t -> W -> W.
Definition HsmTransitionConditionCallback_t :=
  HsmStateEnum -> VariantList_t -> W -> bool * W.
Definition HsmStateChangedCallback_t :=
  HsmStateEnum -> VariantList_t -> W -> W.
Definition HsmStateEnterCallback_t :=
  HsmStateEnum -> VariantList_t -> W -> bool * W.
Definition HsmStateExitCallback_t :=
  HsmStateEnum -> W -> bool * W.

Record StateCallbacks := mkStateCallbacks {
  onStateChanged : option HsmStateChangedCallback_t;
  onEntering : option HsmStateEnterCallback_t;
  onExiting : option HsmStateExitCallback_t }.

Record TransitionInfo := mkTransitionInfo {
  destinationState : HsmStateEnum;
  onTransition : option HsmTransitionCallback_t;
  checkCondition : option HsmTransitionConditionCallback_t }.

(** The three shared pointers of a synchronous event are created together
    by [initLock] and point to one completion object; its address is an
    index into [heap], where the status slot lives. *)
Record PendingEventInfo := mkPendingEventInfo {
  entryPointTransition : bool;
  type : HsmEventEnum;
  args : VariantList_t;
  cvLock : option nat;
  syncProcessed : option nat;
  transitionStatus : option nat }.

(** ** The log of callback invocations

    Every call of a client callback is recorded, together with the value
    [mCurrentState] had during the call.  The callbacks of an edge are
    identified by the edge. *)
Inductive Callback :=
| Exiting (state : HsmStateEnum)
| Entering (state : HsmStateEnum) (a : VariantList_t)
| StateChanged (state : HsmStateEnum) (a : VariantList_t)
| Transition (edge : TransitionInfo) (a : VariantList_t)
| Condition (edge : TransitionInfo) (a : VariantList_t).

Record Invocation := mkInvocation {
  seen : HsmStateEnum;
  called : Callback }.

Record Hsm := mkHsm {
  mCurrentState : HsmStateEnum;
  mTransitionsByEvent : list ((Z * Z) * TransitionInfo);
  mRegisteredStates : gmap Z StateCallbacks;
  mSubstates : list (Z * Z);
  mSubstateEntryPoint : gmap Z Z;
  mPendingEvents : list PendingEventInfo;
  mDispatcher : option IHsmEventDispatcher;
  mDispatcherHandlerId : Z;
  mStopDispatching : bool;
  heap : list HsmEventStatus;
  world : W;
  trace : list Invocation }.

(** Assignments to single members. *)
Definition setCurrentState (s : Z) (m : Hsm) : Hsm :=
  mkHsm s (mTransitionsByEvent m) (mRegisteredStates m) (mSubstates m)
        (mSubstateEntryPoint m) (mPendingEvents m) (mDispatcher m)
        (mDispatcherHandlerId m) (mStopDispatching m) (heap m) (world m)
        (trace m).
Definition setTransitionsByEvent (t : list ((Z * Z) * TransitionInfo))
  (m : Hsm) : Hsm :=
  mkHsm (mCurrentState m) t (mRegisteredStates m) (mSubstates m)
        (mSubstateEntryPoint m) (mPendingEvents m) (mDispatcher m)
        (mDispatcherHandlerId m) (mStopDispatching m) (heap m) (world m)
        (trace m).
Definition setRegisteredStates (r : gmap Z StateCallbacks) (m : Hsm) : Hsm :=
  mkHsm (mCurrentState m) (mTransitionsByEvent m) r (mSubstates m)
        (mSubstateEntryPoint m) (mPendingEvents m) (mDispatcher m)
        (mDispatcherHandlerId m) (mStopDispatching m) (heap m) (world m)
        (trace m).
Definition setSubstates (s : list (Z * Z)) (m : Hsm) : Hsm :=
  mkHsm (mCurrentState m) (mTransitionsByEvent m) (mRegisteredStates m) s
        (mSubstateEntryPoint m) (mPendingEvents m) (mDispatcher m)
        (mDispatcherHandlerId m) (mStopDispatching m) (heap m) (world m)
        (trace m).
Definition setSubstateEntryPoint (e : gmap Z Z) (m : Hsm) : Hsm :=
  mkHsm (mCurrentState m) (mTransitionsByEvent m) (mRegisteredStates m)
        (mSubstates m) e (mPendingEvents m) (mDispatcher m)
        (mDispatcherHandlerId m) (mStopDispatching m) (heap m) (world m)
        (trace m).
Definition setPendingEvents (q : list PendingEventInfo) (m : Hsm) : Hsm :=
  mkHsm (mCurrentState m) (mTransitionsByEvent m) (mRegisteredStates m)
        (mSubstates m) (mSubstateEntryPoint m) q (mDispatcher m)
        (mDispatcherHandlerId m) (mStopDispatching m) (heap m) (world m)
        (trace m).
Definition setDispatcher (d : option IHsmEventDispatcher) (id : Z)
  (m : Hsm) : Hsm :=
  mkHsm (mCurrentState m) (mTransitionsByEvent m) (mRegisteredStates m)
        (mSubstates m) (mSubstateEntryPoint m) (mPendingEvents m) d id
        (mStopDispatching m) (heap m) (world m) (trace m).
Definition setStopDispatching (b : bool) (m : Hsm) : Hsm :=
  mkHsm (mCurrentState m) (mTransitionsByEvent m) (mRegisteredStates m)
        (mSubstates m) (mSubstateEntryPoint m) (mPendingEvents m)
        (mDispatcher m) (mDispatcherHandlerId m) b (heap m) (world m)
        (trace m).
Definition setHeap (h : list HsmEventStatus) (m : Hsm) : Hsm :=
  mkHsm (mCurrentState m) (mTransitionsByEvent m) (mRegisteredStates m)
        (mSubstates m) (mSubstateEntryPoint m) (mPendingEvents m)
        (mDispatcher m) (mDispatcherHandlerId m) (mStopDispatching m) h
        (world m) (trace m).

(** The machine with the client's state and the log replaced. *)
Definition withClient (w : W) (t : list Invocation) (m : Hsm) : Hsm :=
  mkHsm (mCurrentState m) (mTransitionsByEvent m) (mRegisteredStates m)
        (mSubstates m) (mSubstateEntryPoint m) (mPendingEvents m)
        (mDispatcher m) (mDispatcherHandlerId m) (mStopDispatching m)
        (heap m) w t.

(** The machine after a client callback [c] has run and left the client
    in state [w]. *)
Definition invoked (c : Callback) (w : W) (m : Hsm) : Hsm :=
  withClient w (trace m ++ [mkInvocation (mCurrentState m) c]) m.

(** ** Construction, initialize, release *)

Definition HierarchicalStateMachine (initialState : HsmStateEnum) (w : W)
  : Hsm :=
  mkHsm initialState [] ∅ [] ∅ [] None INVALID_HSM_DISPATCHER_HANDLER_ID
        false [] w [].

Definition initialize (dispatcher : option IHsmEventDispatcher) (m : Hsm)
  : bool * Hsm :=
  match dispatcher with
  | Some d =>
      let (started, d1) := start d in
      if started then
        let (id, d2) := registerEventHandler d1 in
        (negb (INVALID_HSM_DISPATCHER_HANDLER_ID =? id)%Z,
         setDispatcher (Some d2) id m)
      else (false, m)
  | None => (false, m)
  end.

(** [unregisterEventHandler] acts on the dispatcher, which the machine
    then lets go of. *)
Definition release (m : Hsm) : Hsm :=
  let m1 := setStopDispatching true m in
  match mDispatcher m1 with
  | Some _ => setDispatcher None INVALID_HSM_DISPATCHER_HANDLER_ID m1
  | None => m1
  end.

(** ** Registration *)

Definition registerState (state : HsmStateEnum)
  (onStateChanged' : option HsmStateChangedCallback_t)
  (onEntering' : option HsmStateEnterCallback_t)
  (onExiting' : option HsmStateExitCallback_t) (m : Hsm) : Hsm :=
  if bool_decide (is_Some onStateChanged') || bool_decide (is_Some onEntering')
     || bool_decide (is_Some onExiting')
  then setRegisteredStates
         (<[state := mkStateCallbacks onStateChanged' onEntering' onExiting']>
            (mRegisteredStates m)) m
  else m.

Definition registerSubstate (parent substate : HsmStateEnum)
  (isEntryPoint : bool) (m : Hsm) : bool * Hsm :=
  let registrationAllowed := negb (parent =? substate)%Z in
  if registrationAllowed then
    let m1 := if isEntryPoint
              then setSubstateEntryPoint
                     (<[parent := substate]> (mSubstateEntryPoint m)) m
              else m in
    (true, setSubstates (emplace Z.ltb parent substate (mSubstates m1)) m1)
  else (false, m).

Definition registerTransition (from to : HsmStateEnum) (onEvent : HsmEventEnum)
  (transitionCallback : option HsmTransitionCallback_t)
  (conditionCallback : option HsmTransitionConditionCallback_t) (m : Hsm)
  : Hsm :=
  setTransitionsByEvent
    (emplace pair_lt (from, onEvent)
       (mkTransitionInfo to transitionCallback conditionCallback)
       (mTransitionsByEvent m)) m.

Definition getCurrentState (m : Hsm) : HsmStateEnum := mCurrentState m.

(** ** PendingEventInfo

    Ownership counts of the shared pointers are not tracked.  The
    destructor writes [DONE_FAILED] only when it holds the last reference
    to the completion object, that is, when no poster is left to read
    the slot; that write is therefore left out. *)

Definition isSync (e : PendingEventInfo) : bool :=
  bool_decide (is_Some (cvLock e)).

(** [initLock]: [std::make_shared] allocates at the end of [heap]. *)
Definition initLock (e : PendingEventInfo) (m : Hsm)
  : PendingEventInfo * Hsm :=
  match cvLock e with
  | Some _ => (e, m)
  | None =>
      let l := length (heap m) in
      (mkPendingEventInfo (entryPointTransition e) (type e) (args e)
                          (Some l) (Some l) (Some l),
       setHeap (heap m ++ [PENDING]) m)
  end.

(** [unlock]: store the status; [notify_one] wakes the poster, who then
    reads the slot. *)
Definition unlock (status : HsmEventStatus) (e : PendingEventInfo) (m : Hsm)
  : Hsm :=
  if isSync e then
    match transitionStatus e with
    | Some l => setHeap (<[l := status]> (heap m)) m
    | None => m
    end
  else m.

Definition releaseLock (e : PendingEventInfo) (m : Hsm)
  : PendingEventInfo * Hsm :=
  if isSync e then
    (mkPendingEventInfo (entryPointTransition e) (type e) (args e)
                        None None (transitionStatus e),
     unlock DONE_FAILED e m)
  else (e, m).

(** ** State callbacks *)

Definition onStateExiting (state : HsmStateEnum) (m : Hsm) : bool * Hsm :=
  match mRegisteredStates m !! state with
  | Some cb =>
      match onExiting cb with
      | Some f =>
          let (res, w) := f (mCurrentState m) (world m) in
          (res, invoked (Exiting state) w m)
      | None => (true, m)
      end
  | None => (true, m)
  end.

Definition onStateEntering (state : HsmStateEnum) (a : VariantList_t)
  (m : Hsm) : bool * Hsm :=
  match mRegisteredStates m !! state with
  | Some cb =>
      match onEntering cb with
      | Some f =>
          let (res, w) := f (mCurrentState m) a (world m) in
          (res, invoked (Entering state a) w m)
      | None => (true, m)
      end
  | None => (true, m)
  end.

(** The member function [onStateChanged]; the plain name is the field of
    [StateCallbacks]. *)
Definition onStateChanged_ (state : HsmStateEnum) (a : VariantList_t)
  (m : Hsm) : Hsm :=
  match mRegisteredStates m !! state with
  | Some cb =>
      match onStateChanged cb with
      | Some f => invoked (StateChanged state a) (f (mCurrentState m) a (world m)) m
      | None => m
      end
  | None => m
  end.

(** ** Topology lookups *)

(** [std::find_if] over [mSubstates] in iteration order. *)
Definition getParentState (child : HsmStateEnum) (m : Hsm)
  : option HsmStateEnum :=
  fst <$> List.find (fun item => (child =? snd item)%Z) (mSubstates m).

Definition getEntryPoint (state : HsmStateEnum) (m : Hsm)
  : option HsmStateEnum :=
  mSubstateEntryPoint m !! state.

(** ** findTransitionTarget *)

(** The [for] loop over the range of one key: the first edge without a
    condition, or whose condition accepts, is the result. *)
Fixpoint checkRange (range : list TransitionInfo) (a : VariantList_t)
  (m : Hsm) : option TransitionInfo * Hsm :=
  match range with
  | [] => (None, m)
  | ti :: rest =>
      match checkCondition ti with
      | None => (Some ti, m)
      | Some cond =>
          let (ok, w) := cond (mCurrentState m) a (world m) in
          let m1 := invoked (Condition ti a) w m in
          if ok then (Some ti, m1) else checkRange rest a m1
      end
  end.

(** The [do ... while (continueSearch)] loop.  Without the safe-structure
    checks the parent relation may be cyclic and the loop need not end, so
    the number of iterations is bounded by [fuel]; [None] is a loop cut
    short.  The result is [wasFound] together with [outTransition]. *)
Fixpoint findTransitionTargetFrom (fuel : nat) (curState : HsmStateEnum)
  (event : HsmEventEnum) (a : VariantList_t) (m : Hsm)
  : option (option TransitionInfo * Hsm) :=
  match fuel with
  | O => None
  | S fuel' =>
      match equal_range pair_lt (curState, event) (mTransitionsByEvent m) with
      | [] =>
          match getParentState curState m with
          | Some parentState =>
              findTransitionTargetFrom fuel' parentState event a m
          | None => Some (None, m)
          end
      | range => Some (checkRange range a m)
      end
  end.

Definition findTransitionTarget (fuel : nat) (event : HsmEventEnum)
  (a : VariantList_t) (m : Hsm) : option (option TransitionInfo * Hsm) :=
  findTransitionTargetFrom fuel (mCurrentState m) event a m.

(** ** doTransition *)

(** The first [if / else if] of [doTransition]: an entry-point event
    resolves to the entry point of the current state, with neither action
    nor condition; any other event is looked up. *)
Definition resolveTransition (fuel : nat) (event : PendingEventInfo)
  (m : Hsm) : option (option TransitionInfo * Hsm) :=
  if entryPointTransition event then
    Some (match getEntryPoint (mCurrentState m) m with
          | Some entryPoint => Some (mkTransitionInfo entryPoint None None)
          | None => None
          end, m)
  else findTransitionTarget fuel (type event) (args event) m.

Definition callTransition (ti : TransitionInfo) (a : VariantList_t)
  (m : Hsm) : Hsm :=
  match onTransition ti with
  | Some f => invoked (Transition ti a) (f (mCurrentState m) a (world m)) m
  | None => m
  end.

(** The event [doTransition] builds when the state it has entered has an
    entry point: it carries the arguments and the completion object of the
    event at hand. *)
Definition entryPointTransitionEvent (event : PendingEventInfo)
  : PendingEventInfo :=
  mkPendingEventInfo true (-1)%Z (args event) (cvLock event)
                     (syncProcessed event) (transitionStatus event).

(** The body of [if (true == correctTransition)]. *)
Definition applyTransition (transitionInfo : TransitionInfo)
  (event : PendingEventInfo) (m : Hsm) : HsmEventStatus * Hsm :=
  if negb (mCurrentState m =? destinationState transitionInfo)%Z then
    let (exited, m1) := onStateExiting (mCurrentState m) m in
    if exited then
      let m2 := callTransition transitionInfo (args event) m1 in
      let (entered, m3) :=
        onStateEntering (destinationState transitionInfo) (args event) m2 in
      if entered then
        let m4 := setCurrentState (destinationState transitionInfo) m3 in
        let m5 :=
          onStateChanged_ (destinationState transitionInfo) (args event) m4 in
        match getEntryPoint (mCurrentState m5) m5 with
        | Some _ =>
            (PENDING,
             setPendingEvents
               (entryPointTransitionEvent event :: mPendingEvents m5) m5)
        | None => (DONE_OK, m5)
        end
      else
        let m4 := snd (onStateEntering (mCurrentState m3) [] m3) in
        (DONE_FAILED, onStateChanged_ (mCurrentState m4) [] m4)
    else (DONE_FAILED, m1)
  else
    match onTransition transitionInfo with
    | Some _ => (DONE_OK, callTransition transitionInfo (args event) m)
    | None => (DONE_FAILED, m)
    end.

Definition doTransition (fuel : nat) (event : PendingEventInfo) (m : Hsm)
  : option (HsmEventStatus * Hsm) :=
  match resolveTransition fuel event m with
  | None => None
  | Some (Some transitionInfo, m1) =>
      Some (applyTransition transitionInfo event m1)
  | Some (None, m1) => Some (DONE_FAILED, m1)
  end.

(** ** The queue *)

(** The loop of [clearPendingEvents]: [releaseLock] on every event that is
    not an entry-point transition. *)
Fixpoint releaseLocks (q : list PendingEventInfo) (m : Hsm)
  : list PendingEventInfo * Hsm :=
  match q with
  | [] => ([], m)
  | e :: q' =>
      let (e1, m1) :=
        if negb (entryPointTransition e) then releaseLock e m else (e, m) in
      let (q1, m2) := releaseLocks q' m1 in
      (e1 :: q1, m2)
  end.

(** The loop, then [mPendingEvents.clear()]. *)
Definition clearPendingEvents (m : Hsm) : Hsm :=
  let (q, m1) := releaseLocks (mPendingEvents m) m in
  let m2 := setPendingEvents q m1 in
  setPendingEvents [] m2.

(** A call either returns, or it dereferences [mDispatcher] while that
    pointer is null; the machine is given as it is at that point. *)
Inductive Outcome (A : Type) :=
| Returned (result : A) (m : Hsm)
| NullDispatcher (m : Hsm).
Arguments Returned {A}.
Arguments NullDispatcher {A}.

(** [mDispatcher->emitEvent()] *)
Definition dispatcherEmitEvent (m : Hsm) : Outcome unit :=
  match mDispatcher m with
  | Some d => Returned tt (setDispatcher (Some (emitEvent d))
                                         (mDispatcherHandlerId m) m)
  | None => NullDispatcher m
  end.

Definition dispatchEvents (fuel : nat) (m : Hsm) : option (Outcome unit) :=
  if mStopDispatching m then Some (Returned tt m)
  else
    match
      match mPendingEvents m with
      | pendingEvent :: rest =>
          match doTransition fuel pendingEvent (setPendingEvents rest m) with
          | Some (transitionStatus, m1) =>
              Some (unlock transitionStatus pendingEvent m1)
          | None => None
          end
      | [] => Some m
      end
    with
    | None => None
    | Some m2 =>
        if negb (mStopDispatching m2)
           && negb (match mPendingEvents m2 with [] => true | _ => false end)
        then Some (dispatcherEmitEvent m2)
        else Some (Returned tt m2)
    end.

(** ** Posting *)

(** What the poster has in hand when [transitionEx] has emitted the
    event: the answer of an asynchronous post, or the event it now waits
    on in [wait(timeoutMs)]. *)
Inductive Posted :=
| Answered (status : bool)
| Waiting (eventInfo : PendingEventInfo).

Definition transitionEx (event : HsmEventEnum) (clearQueue sync : bool)
  (timeoutMs : Z) (a : VariantList_t) (m : Hsm) : Outcome Posted :=
  let eventInfo0 := mkPendingEventInfo false event a None None None in
  let (eventInfo, m1) :=
    if sync then initLock eventInfo0 m else (eventInfo0, m) in
  let m2 := if clearQueue then clearPendingEvents m1 else m1 in
  let m3 := setPendingEvents (mPendingEvents m2 ++ [eventInfo]) m2 in
  match dispatcherEmitEvent m3 with
  | NullDispatcher m4 => NullDispatcher m4
  | Returned _ m4 =>
      if sync then Returned (Waiting eventInfo) m4
      else Returned (Answered true) m4
  end.

(** The value a synchronous [transitionEx] returns once its wait is over,
    by a signal or by the timeout:
    [DONE_OK == *eventInfo.transitionStatus]. *)
Definition transitionExResumed (eventInfo : PendingEventInfo) (m : Hsm)
  : bool :=
  match transitionStatus eventInfo with
  | Some l => bool_decide (heap m !! l = Some DONE_OK)
  | None => false
  end.

Definition transition (event : HsmEventEnum) (a : VariantList_t) (m : Hsm)
  : Outcome Posted :=
  transitionEx event false false 0 a m.

Definition transitionSync (event : HsmEventEnum) (timeoutMs : Z)
  (a : VariantList_t) (m : Hsm) : Outcome Posted :=
  transitionEx event false true timeoutMs a m.

Definition transitionWithQueueClear (event : HsmEventEnum)
  (a : VariantList_t) (m : Hsm) : Outcome Posted :=
  transitionEx event true false 0 a m.

(** ** Vocabulary of the properties *)

(** [bubble n s event m = Some a]: [n] steps of [getParentState] lead from
    [s] to [a], and every state left on the way has no edge for
    [event]. *)
Fixpoint bubble (n : nat) (s : HsmStateEnum) (event : HsmEventEnum)
  (m : Hsm) : option HsmStateEnum :=
  match n with
  | O => Some s
  | S n' =>
      match equal_range pair_lt (s, event) (mTransitionsByEvent m) with
      | [] =>
          match getParentState s m with
          | Some p => bubble n' p event m
          | None => None
          end
      | _ => None
      end
  end.

(** The edge [ti] lets the arguments pass: it has no condition, or its
    condition answers [true] in the present state of the client. *)
Definition accepts (ti : TransitionInfo) (a : VariantList_t) (m : Hsm)
  : Prop :=
  match checkCondition ti with
  | Some cond => fst (cond (mCurrentState m) a (world m)) = true
  | None => True
  end.

(** The machine after the condition of [ti], if it has one, was asked. *)
Definition afterCondition (ti : TransitionInfo) (a : VariantList_t)
  (m : Hsm) : Hsm :=
  match checkCondition ti with
  | Some cond =>
      invoked (Condition ti a) (snd (cond (mCurrentState m) a (world m))) m
  | None => m
  end.

Definition afterConditions (range : list TransitionInfo)
  (a : VariantList_t) (m : Hsm) : Hsm :=
  fold_left (fun m1 ti => afterCondition ti a m1) range m.

(** Every edge of [range] has a condition, and asked one after the other
    each of them refuses. *)
Fixpoint allRefuse (range : list TransitionInfo) (a : VariantList_t)
  (m : Hsm) : Prop :=
  match range with
  | [] => True
  | ti :: rest =>
      match checkCondition ti with
      | Some cond =>
          fst (cond (mCurrentState m) a (world m)) = false
          /\ allRefuse rest a (afterCondition ti a m)
      | None => False
      end
  end.

(** The log entries one call of a helper contributes: one entry if the
    callback is set, none if it is not. *)
Definition exitingCalls (s : HsmStateEnum) (m : Hsm) : list Invocation :=
  match mRegisteredStates m !! s with
  | Some (mkStateCallbacks _ _ (Some _)) =>
      [mkInvocation (mCurrentState m) (Exiting s)]
  | _ => []
  end.

Definition enteringCalls (s : HsmStateEnum) (a : VariantList_t) (m : Hsm)
  : list Invocation :=
  match mRegisteredStates m !! s with
  | Some (mkStateCallbacks _ (Some _) _) =>
      [mkInvocation (mCurrentState m) (Entering s a)]
  | _ => []
  end.

Definition changedCalls (seenState s : HsmStateEnum) (a : VariantList_t)
  (m : Hsm) : list Invocation :=
  match mRegisteredStates m !! s with
  | Some (mkStateCallbacks (Some _) _ _) =>
      [mkInvocation seenState (StateChanged s a)]
  | _ => []
  end.

Definition transitionCalls (ti : TransitionInfo) (a : VariantList_t)
  (m : Hsm) : list Invocation :=
  match onTransition ti with
  | Some _ => [mkInvocation (mCurrentState m) (Transition ti a)]
  | None => []
  end.

Definition conditionCalls (range : list TransitionInfo)
  (a : VariantList_t) (m : Hsm) : list Invocation :=
  omap (fun ti => match checkCondition ti with
                  | Some _ =>
                      Some (mkInvocation (mCurrentState m) (Condition ti a))
                  | None => None
                  end) range.

(** What a callback saw of [mCurrentState] during a transition from [src]
    to [dst], once as the specification words it and once as the code has
    it: they differ on [onEntering] of the destination. *)
Definition seenAsStated (src dst : HsmStateEnum) (i : Invocation) : Prop :=
  match called i with
  | Exiting _ | Transition _ _ => seen i = src
  | Entering s _ | StateChanged s _ => s = dst -> seen i = dst
  | Condition _ _ => True
  end.

Definition seenInCode (src dst : HsmStateEnum) (i : Invocation) : Prop :=
  match called i with
  | Exiting _ | Transition _ _ => seen i = src
  | Entering s _ => s = dst -> seen i = src
  | StateChanged s _ => s = dst -> seen i = dst
  | Condition _ _ => True
  end.

(** Registering the edges of a list, in the order of the list, for one
    key. *)
Definition registerTransitions (from : HsmStateEnum) (onEvent : HsmEventEnum)
  (edges : list TransitionInfo) (m : Hsm) : Hsm :=
  fold_left (fun m1 ti =>
               registerTransition from (destinationState ti) onEvent
                                  (onTransition ti) (checkCondition ti) m1)
            edges m.

(** A sequence of [registerState] calls for one id. *)
Definition registerStates (state : HsmStateEnum)
  (calls : list StateCallbacks) (m : Hsm) : Hsm :=
  fold_left (fun m1 cb =>
               registerState state (onStateChanged cb) (onEntering cb)
                             (onExiting cb) m1)
            calls m.

Definition suppliesCallback (cb : StateCallbacks) : bool :=
  bool_decide (is_Some (onStateChanged cb))
  || bool_decide (is_Some (onEntering cb))
  || bool_decide (is_Some (onExiting cb)).
(** Callbacks reach the machine through the client's state and the log
    only. *)
Definition onlyClient (m m' : Hsm) : Prop :=
  m' = withClient (world m') (trace m') m.

(** Queue operations reach the machine through the queue and the
    completion objects only. *)
Definition onlyQueue (m m' : Hsm) : Prop :=
  m' = setPendingEvents (mPendingEvents m') (setHeap (heap m') m).

(** The invocations a transition over the edge [ti] can log. *)
Definition mayCall (ti : TransitionInfo) (event : PendingEventInfo) (m : Hsm)
  (i : Invocation) : Prop :=
  let src := mCurrentState m in
  let dst := destinationState ti in
  i = mkInvocation src (Exiting src)
  \/ i = mkInvocation src (Transition ti (args event))
  \/ i = mkInvocation src (Entering dst (args event))
  \/ i = mkInvocation src (Entering src [])
  \/ i = mkInvocation src (StateChanged src [])
  \/ i = mkInvocation dst (StateChanged dst (args event)).

(** The statement of C5 as the specification has it, for one run of
    [doTransition]. *)
Definition currentStateAsStated (fuel : nat) (event : PendingEventInfo)
  (m : Hsm) : Prop :=
  forall ti m1 status m2,
    resolveTransition fuel event m = Some (Some ti, m1) ->
    doTransition fuel event m = Some (status, m2) ->
    Forall (seenAsStated (mCurrentState m1) (destinationState ti))
           (drop (length (trace m1)) (trace m2)).

(** The statement of C9 as the specification has it. *)
Definition lastRegistrationWinsAsStated (state : HsmStateEnum)
  (calls : list StateCallbacks) (m : Hsm) : Prop :=
  forall cb, last calls = Some cb ->
             mRegisteredStates (registerStates state calls m) !! state
             = Some cb.

(** The statement of C6 as the specification has it: a post after
    [release()] returns, and has changed neither queue nor state; a
    synchronous post returns false. *)
Definition postAfterReleaseIsNoop (m0 : Hsm) : Prop :=
  forall ev clearQueue sync timeoutMs a,
    let m := release m0 in
    exists r m',
      transitionEx ev clearQueue sync timeoutMs a m = Returned r m'
      /\ mPendingEvents m' = mPendingEvents m
      /\ mCurrentState m' = mCurrentState m
      /\ (sync = true ->
          r = Answered false
          \/ exists eventInfo,
               r = Waiting eventInfo
               /\ transitionExResumed eventInfo m' = false).
End hsm.

Arguments mkStateCallbacks {W Variant}.
Arguments onStateChanged {W Variant}.
Arguments onEntering {W Variant}.
Arguments onExiting {W Variant}.
Arguments mkTransitionInfo {W Variant}.
Arguments destinationState {W Variant}.
Arguments onTransition {W Variant}.
Arguments checkCondition {W Variant}.
Arguments mkPendingEventInfo {Variant}.
Arguments entryPointTransition {Variant}.
Arguments type {Variant}.
Arguments args {Variant}.
Arguments cvLock {Variant}.
Arguments syncProcessed {Variant}.
Arguments transitionStatus {Variant}.
Arguments Exiting {W Variant}.
Arguments Entering {W Variant}.
Arguments StateChanged {W Variant}.
Arguments Transition {W Variant}.
Arguments Condition {W Variant}.
Arguments mkInvocation {W Variant}.
Arguments seen {W Variant}.
Arguments called {W Variant}.
Arguments mkHsm {W Variant}.
Arguments mCurrentState {W Variant}.
Arguments mTransitionsByEvent {W Variant}.
Arguments mRegisteredStates {W Variant}.
Arguments mSubstates {W Variant}.
Arguments mSubstateEntryPoint {W Variant}.
Arguments mPendingEvents {W Variant}.
Arguments mDispatcher {W Variant}.
Arguments mDispatcherHandlerId {W Variant}.
Arguments mStopDispatching {W Variant}.
Arguments heap {W Variant}.
Arguments world {W Variant}.
Arguments trace {W Variant}.
Arguments setCurrentState {W Variant}.
Arguments setTransitionsByEvent {W Variant}.
Arguments setRegisteredStates {W Variant}.
Arguments setSubstates {W Variant}.
Arguments setSubstateEntryPoint {W Variant}.
Arguments setPendingEvents {W Variant}.
Arguments setDispatcher {W Variant}.
Arguments setStopDispatching {W Variant}.
Arguments setHeap {W Variant}.
Arguments withClient {W Variant}.
Arguments invoked {W Variant}.
Arguments HierarchicalStateMachine {W Variant}.
Arguments initialize {W Variant}.
Arguments release {W Variant}.
Arguments registerState {W Variant}.
Arguments registerSubstate {W Variant}.
Arguments registerTransition {W Variant}.
Arguments getCurrentState {W Variant}.
Arguments isSync {Variant}.
Arguments initLock {W Variant}.
Arguments unlock {W Variant}.
Arguments releaseLock {W Variant}.
Arguments onStateExiting {W Variant}.
Arguments onStateEntering {W Variant}.
Arguments onStateChanged_ {W Variant}.
Arguments getParentState {W Variant}.
Arguments getEntryPoint {W Variant}.
Arguments checkRange {W Variant}.
Arguments findTransitionTargetFrom {W Variant}.
Arguments findTransitionTarget {W Variant}.
Arguments resolveTransition {W Variant}.
Arguments callTransition {W Variant}.
Arguments applyTransition {W Variant}.
Arguments doTransition {W Variant}.
Arguments releaseLocks {W Variant}.
Arguments clearPendingEvents {W Variant}.
Arguments Returned {W Variant A}.
Arguments NullDispatcher {W Variant A}.
Arguments dispatcherEmitEvent {W Variant}.
Arguments dispatchEvents {W Variant}.
Arguments Answered {Variant}.
Arguments Waiting {Variant}.
Arguments transitionEx {W Variant}.
Arguments transitionExResumed {W Variant}.
Arguments transition {W Variant}.
Arguments transitionSync {W Variant}.
Arguments transitionWithQueueClear {W Variant}.
Arguments bubble {W Variant}.
Arguments accepts {W Variant}.
Arguments afterCondition {W Variant}.
Arguments afterConditions {W Variant}.
Arguments allRefuse {W Variant}.
Arguments exitingCalls {W Variant}.
Arguments enteringCalls {W Variant}.
Arguments changedCalls {W Variant}.
Arguments transitionCalls {W Variant}.
Arguments conditionCalls {W Variant}.
Arguments seenAsStated {W Variant}.
Arguments seenInCode {W Variant}.
Arguments registerTransitions {W Variant}.
Arguments registerStates {W Variant}.
Arguments suppliesCallback {W Variant}.
Arguments entryPointTransitionEvent {Variant}.
Arguments onlyClient {W Variant}.
Arguments onlyQueue {W Variant}.
Arguments mayCall {W Variant}.
Arguments currentStateAsStated {W Variant}.
Arguments lastRegistrationWinsAsStated {W Variant}.
Arguments postAfterReleaseIsNoop {W Variant}.

(** * The remaining operations of the class *)

Section remaining_operations.
Context {W Variant : Type}.

(** ** isTransitionPossible

    The loop over the queue: every queued event is looked up by its [type]
    from the state the event before it would lead to, with the arguments of
    the candidate.  The result is the state reached, or nothing when a
    lookup fails. *)
Fixpoint lookAhead (fuel : nat) (queue : list (PendingEventInfo Variant))
  (stateFrom : HsmStateEnum) (transitionArgs : VariantList_t Variant)
  (m : Hsm W Variant) : option (option HsmStateEnum * Hsm W Variant) :=
  match queue with
  | [] => Some (Some stateFrom, m)
  | it :: rest =>
      match findTransitionTargetFrom fuel stateFrom (type it) transitionArgs m
      with
      | None => None
      | Some (Some possibleTransition, m1) =>
          lookAhead fuel rest (destinationState possibleTransition)
                    transitionArgs m1
      | Some (None, m1) => Some (None, m1)
      end
  end.

Definition isTransitionPossible (fuel : nat) (event : HsmEventEnum)
  (transitionArgs : VariantList_t Variant) (m : Hsm W Variant)
  : option (bool * Hsm W Variant) :=
  match lookAhead fuel (mPendingEvents m) (mCurrentState m) transitionArgs m
  with
  | None => None
  | Some (Some stateFrom, m1) =>
      match findTransitionTargetFrom fuel stateFrom event transitionArgs m1
      with
      | None => None
      | Some (Some _, m2) => Some (true, m2)
      | Some (None, m2) => Some (false, m2)
      end
  | Some (None, m1) => Some (false, m1)
  end.


(** One registration call. *)
Inductive Registration :=
| RegisterState (state : HsmStateEnum)
    (onStateChanged' : option (HsmStateChangedCallback_t W Variant))
    (onEntering' : option (HsmStateEnterCallback_t W Variant))
    (onExiting' : option (HsmStateExitCallback_t W))
| RegisterSubstate (parent substate : HsmStateEnum) (isEntryPoint : bool)
| RegisterTransition (from to : HsmStateEnum) (onEvent : HsmEventEnum)
    (transitionCallback : option (HsmTransitionCallback_t W Variant))
    (conditionCallback : option (HsmTransitionConditionCallback_t W Variant)).

Definition register (m : Hsm W Variant) (r : Registration) : Hsm W Variant :=
  match r with
  | RegisterState state c e x => registerState state c e x m
  | RegisterSubstate parent substate isEntryPoint =>
      (registerSubstate parent substate isEntryPoint m).2
  | RegisterTransition from to onEvent action cond =>
      registerTransition from to onEvent action cond m
  end.



(** No state is its own entry point. *)
Definition entersBelow (m : Hsm W Variant) : Prop :=
  forall s, mSubstateEntryPoint m !! s <> Some s.

(** The search of [getParentState], on the list of entries. *)
Definition firstParent (child : HsmStateEnum) (l : list (Z * Z))
  : option HsmStateEnum :=
  fst <$> List.find (fun item => (child =? snd item)%Z) l.

(** What registration keeps: both multimaps in iteration order, no state
    its own entry point, every entry point a registered child of its
    state. *)
Definition wellRegistered (m : Hsm W Variant) : Prop :=
  ascending pair_lt (mTransitionsByEvent m)
  /\ ascending Z.ltb (mSubstates m)
  /\ entersBelow m
  /\ forall p e, mSubstateEntryPoint m !! p = Some e -> In (p, e) (mSubstates m).

(** The substate relation as a relation: [p] is registered as a parent of
    [c]. *)
Definition parentOf (m : Hsm W Variant) (p c : HsmStateEnum) : Prop :=
  In (p, c) (mSubstates m).

(** [m'] has the topology, the dispatcher binding, the stop flag and the
    completion objects of [m]. *)
Definition untouched (m m' : Hsm W Variant) : Prop :=
  mTransitionsByEvent m' = mTransitionsByEvent m
  /\ mRegisteredStates m' = mRegisteredStates m
  /\ mSubstates m' = mSubstates m
  /\ mSubstateEntryPoint m' = mSubstateEntryPoint m
  /\ mDispatcher m' = mDispatcher m
  /\ mDispatcherHandlerId m' = mDispatcherHandlerId m
  /\ mStopDispatching m' = mStopDispatching m
  /\ heap m' = heap m.

(** [m'] has the run-time state of [m]: current state, queue, dispatcher
    binding, stop flag, completion objects, client and log. *)
Definition sameRun (m m' : Hsm W Variant) : Prop :=
  mCurrentState m' = mCurrentState m
  /\ mPendingEvents m' = mPendingEvents m
  /\ mDispatcher m' = mDispatcher m
  /\ mDispatcherHandlerId m' = mDispatcherHandlerId m
  /\ mStopDispatching m' = mStopDispatching m
  /\ heap m' = heap m
  /\ world m' = world m
  /\ trace m' = trace m.
End remaining_operations.
Arguments Registration : clear implicits.

(** * The client's side of a transition

    What the callbacks themselves answer and do to the client, read off the
    registry and the edge and not off the member functions that call them:
    the callback of [state] is called while [mCurrentState] is [cur] and
    the client is in state [w].  A state without the callback consents and
    leaves the client as it is. *)
Section client_side.
Context {W Variant : Type}.

Definition exitingAnswer (m : Hsm W Variant) (state cur : HsmStateEnum)
  (w : W) : bool * W :=
  match mRegisteredStates m !! state with
  | Some (mkStateCallbacks _ _ (Some f)) => f cur w
  | _ => (true, w)
  end.

Definition enteringAnswer (m : Hsm W Variant) (state cur : HsmStateEnum)
  (a : VariantList_t Variant) (w : W) : bool * W :=
  match mRegisteredStates m !! state with
  | Some (mkStateCallbacks _ (Some f) _) => f cur a w
  | _ => (true, w)
  end.

Definition changedEffect (m : Hsm W Variant) (state cur : HsmStateEnum)
  (a : VariantList_t Variant) (w : W) : W :=
  match mRegisteredStates m !! state with
  | Some (mkStateCallbacks (Some f) _ _) => f cur a w
  | _ => w
  end.

Definition actionEffect (ti : TransitionInfo W Variant) (cur : HsmStateEnum)
  (a : VariantList_t Variant) (w : W) : W :=
  match onTransition ti with
  | Some f => f cur a w
  | None => w
  end.

(** The invocation is that of a condition, asked with the arguments [a]. *)
Definition askedWith (a : VariantList_t Variant) (i : Invocation W Variant)
  : Prop :=
  exists ti, called i = Condition ti a.
End client_side.

(** * Callbacks that post

    A callback is a closure and may hold the machine:
    [examples/00_helloworld/00_helloworld_qt.cpp] calls [hsm.transition]
    from onStateChanged.  Here the client is the client's own data
    together with the posts it has made on the machine during the callback
    at hand, in the order it made them; the member functions that call a
    callback let these posts take effect before they go on.  What a post
    answers to a callback is fixed: an asynchronous post answers true; a
    synchronous post is made on the thread that would have to dispatch the
    event, so its wait ends by the timeout, with the answer false, and
    without a timeout not at all.  Nothing of the machine that a callback
    can look at changes by a post, so the posts of a callback act as they
    would at the places where they were made.  Of the machine a callback
    calls [getCurrentState] and the four posting functions, which all are
    [transitionEx]; callbacks that register, initialize, release or look
    ahead are outside of this embedding. *)
Module Posting.
Section posting.
Context {W Variant : Type}.

Inductive Call :=
| CallTransitionEx (event : HsmEventEnum) (clearQueue sync : bool)
    (timeoutMs : Z) (a : VariantList_t Variant).

Definition CallTransition (event : HsmEventEnum) (a : VariantList_t Variant)
  : Call :=
  CallTransitionEx event false false 0 a.

Definition CallTransitionSync (event : HsmEventEnum) (timeoutMs : Z)
  (a : VariantList_t Variant) : Call :=
  CallTransitionEx event false true timeoutMs a.

Definition CallTransitionWithQueueClear (event : HsmEventEnum)
  (a : VariantList_t Variant) : Call :=
  CallTransitionEx event true false 0 a.

Record Client := mkClient {
  data : W;
  outbox : list Call }.

#[local] Abbreviation Machine := (Hsm Client Variant).

(** A call on the machine returns, or it uses a null dispatcher, or it
    does not return ([None]): a search that does not end, or a wait
    without a timeout on the dispatching thread. *)
#[local] Abbreviation Run A := (option (Outcome Client Variant A)).

Definition andThen {A B : Type} (r : Run A) (k : A -> Machine -> Run B)
  : Run B :=
  match r with
  | Some (Returned a m) => k a m
  | Some (NullDispatcher m) => Some (NullDispatcher m)
  | None => None
  end.

(** One post of a callback. *)
Definition perform (c : Call) (m : Machine) : Run unit :=
  match c with
  | CallTransitionEx event clearQueue sync timeoutMs a =>
      match transitionEx event clearQueue sync timeoutMs a m with
      | Returned (Answered _) m1 => Some (Returned tt m1)
      | Returned (Waiting _) m1 =>
          if (0 <? timeoutMs)%Z then Some (Returned tt m1) else None
      | NullDispatcher m1 => Some (NullDispatcher m1)
      end
  end.

Fixpoint performAll (cs : list Call) (m : Machine) : Run unit :=
  match cs with
  | [] => Some (Returned tt m)
  | c :: cs' => andThen (perform c m) (fun _ m1 => performAll cs' m1)
  end.

(** The posts of the callback that has just run. *)
Definition served (m : Machine) : Run unit :=
  performAll (outbox (world m))
             (withClient (mkClient (data (world m)) []) (trace m) m).

(** ** The member functions that call callbacks *)

Definition onStateExiting (state : HsmStateEnum) (m : Machine) : Run bool :=
  let (res, m1) := onStateExiting state m in
  andThen (served m1) (fun _ m2 => Some (Returned res m2)).

Definition onStateEntering (state : HsmStateEnum)
  (a : VariantList_t Variant) (m : Machine) : Run bool :=
  let (res, m1) := onStateEntering state a m in
  andThen (served m1) (fun _ m2 => Some (Returned res m2)).

Definition onStateChanged_ (state : HsmStateEnum)
  (a : VariantList_t Variant) (m : Machine) : Run unit :=
  served (onStateChanged_ state a m).

Definition callTransition (ti : TransitionInfo Client Variant)
  (a : VariantList_t Variant) (m : Machine) : Run unit :=
  served (callTransition ti a m).

Fixpoint checkRange (range : list (TransitionInfo Client Variant))
  (a : VariantList_t Variant) (m : Machine)
  : Run (option (TransitionInfo Client Variant)) :=
  match range with
  | [] => Some (Returned None m)
  | ti :: rest =>
      match checkCondition ti with
      | None => Some (Returned (Some ti) m)
      | Some cond =>
          let (ok, w) := cond (mCurrentState m) a (world m) in
          andThen (served (invoked (Condition ti a) w m))
                  (fun _ m1 =>
                     if ok then Some (Returned (Some ti) m1)
                     else checkRange rest a m1)
      end
  end.

Fixpoint findTransitionTargetFrom (fuel : nat) (curState : HsmStateEnum)
  (event : HsmEventEnum) (a : VariantList_t Variant) (m : Machine)
  : Run (option (TransitionInfo Client Variant)) :=
  match fuel with
  | O => None
  | S fuel' =>
      match equal_range pair_lt (curState, event) (mTransitionsByEvent m) with
      | [] =>
          match getParentState curState m with
          | Some parentState =>
              findTransitionTargetFrom fuel' parentState event a m
          | None => Some (Returned None m)
          end
      | range => checkRange range a m
      end
  end.

Definition findTransitionTarget (fuel : nat) (event : HsmEventEnum)
  (a : VariantList_t Variant) (m : Machine)
  : Run (option (TransitionInfo Client Variant)) :=
  findTransitionTargetFrom fuel (mCurrentState m) event a m.

Definition resolveTransition (fuel : nat) (event : PendingEventInfo Variant)
  (m : Machine) : Run (option (TransitionInfo Client Variant)) :=
  if entryPointTransition event then
    Some (Returned
            match getEntryPoint (mCurrentState m) m with
            | Some entryPoint => Some (mkTransitionInfo entryPoint None None)
            | None => None
            end m)
  else findTransitionTarget fuel (type event) (args event) m.

Definition applyTransition (transitionInfo : TransitionInfo Client Variant)
  (event : PendingEventInfo Variant) (m : Machine) : Run HsmEventStatus :=
  if negb (mCurrentState m =? destinationState transitionInfo)%Z then
    andThen (onStateExiting (mCurrentState m) m) (fun exited m1 =>
      if exited then
        andThen (callTransition transitionInfo (args event) m1) (fun _ m2 =>
        andThen (onStateEntering (destinationState transitionInfo)
                                 (args event) m2) (fun entered m3 =>
          if entered then
            let m4 := setCurrentState (destinationState transitionInfo) m3 in
            andThen (onStateChanged_ (destinationState transitionInfo)
                                     (args event) m4) (fun _ m5 =>
              match getEntryPoint (mCurrentState m5) m5 with
              | Some _ =>
                  Some (Returned PENDING
                          (setPendingEvents
                             (entryPointTransitionEvent event
                                :: mPendingEvents m5) m5))
              | None => Some (Returned DONE_OK m5)
              end)
          else
            andThen (onStateEntering (mCurrentState m3) [] m3) (fun _ m4 =>
            andThen (onStateChanged_ (mCurrentState m4) [] m4) (fun _ m5 =>
              Some (Returned DONE_FAILED m5)))))
      else Some (Returned DONE_FAILED m1))
  else
    match onTransition transitionInfo with
    | Some _ =>
        andThen (callTransition transitionInfo (args event) m)
                (fun _ m1 => Some (Returned DONE_OK m1))
    | None => Some (Returned DONE_FAILED m)
    end.

Definition doTransition (fuel : nat) (event : PendingEventInfo Variant)
  (m : Machine) : Run HsmEventStatus :=
  andThen (resolveTransition fuel event m) (fun found m1 =>
    match found with
    | Some transitionInfo => applyTransition transitionInfo event m1
    | None => Some (Returned DONE_FAILED m1)
    end).

Definition dispatchEvents (fuel : nat) (m : Machine) : Run unit :=
  if mStopDispatching m then Some (Returned tt m)
  else
    andThen
      match mPendingEvents m with
      | pendingEvent :: rest =>
          andThen (doTransition fuel pendingEvent (setPendingEvents rest m))
                  (fun transitionStatus m1 =>
                     Some (Returned tt
                             (unlock transitionStatus pendingEvent m1)))
      | [] => Some (Returned tt m)
      end
      (fun _ m2 =>
         if negb (mStopDispatching m2)
            && negb (match mPendingEvents m2 with [] => true | _ => false end)
         then Some (dispatcherEmitEvent m2)
         else Some (Returned tt m2)).

(** [n] turns of the dispatcher, each of which returns. *)
Fixpoint turns (n fuel : nat) (m : Machine) : option Machine :=
  match n with
  | O => Some m
  | S n' =>
      match dispatchEvents fuel m with
      | Some (Returned _ m1) => turns n' fuel m1
      | _ => None
      end
  end.

(** ** Vocabulary *)



(** [m] with the current state, the client and the log of [m']. *)
Definition dress (m' m : Machine) : Machine :=
  setCurrentState (mCurrentState m') (withClient (world m') (trace m') m).

(** [m'] has everything of [m] but the current state, the client and the
    log. *)
Definition sameEngine (m m' : Machine) : Prop := m' = dress m' m.






End posting.
Arguments Call : clear implicits.
Arguments Client : clear implicits.
Abbreviation Machine W Variant := (Hsm (Client W Variant) Variant).
Abbreviation Run W Variant A := (option (Outcome (Client W Variant) Variant A)).
End Posting.

(** * The build with HSM_ENABLE_SAFE_STRUCTURE

    The machine has one more member, [mTopLevelStates], and [registerState]
    and [registerSubstate] have the bodies of the [#ifdef] branches. *)
Module SafeStructure.
Section safe.
Context {W Variant : Type}.

Record SafeHsm := mkSafeHsm {
  base : Hsm W Variant;
  mTopLevelStates : list HsmStateEnum }.

(** [std::find] has not found the state in [mTopLevelStates]. *)
Definition isTopState (state : HsmStateEnum) (h : SafeHsm) : bool :=
  negb (existsb (fun t => (t =? state)%Z) (mTopLevelStates h)).

Definition isSubstate (state : HsmStateEnum) (h : SafeHsm) : bool :=
  existsb (fun item => (snd item =? state)%Z) (mSubstates (base h)).

Definition hasSubstates (state : HsmStateEnum) (h : SafeHsm) : bool :=
  existsb (fun item => equiv Z.ltb (fst item) state) (mSubstates (base h)).

Definition hasParentState (state : HsmStateEnum) (h : SafeHsm)
  : option HsmStateEnum :=
  fst <$> List.find (fun item => (state =? snd item)%Z) (mSubstates (base h)).

Definition registerState (state : HsmStateEnum)
  (onStateChanged' : option (HsmStateChangedCallback_t W Variant))
  (onEntering' : option (HsmStateEnterCallback_t W Variant))
  (onExiting' : option (HsmStateExitCallback_t W)) (h : SafeHsm) : SafeHsm :=
  let top :=
    if negb (isSubstate state h) && negb (isTopState state h)
    then mTopLevelStates h ++ [state]
    else mTopLevelStates h in
  mkSafeHsm
    (registerState state onStateChanged' onEntering' onExiting' (base h))
    top.

(** The [while] loop of [registerSubstate]: walk up from [curState];
    [Some false] when [substate] is met, [Some true] when the walk ends at a
    state without parent, [None] when [fuel] iterations were not enough. *)
Fixpoint noRecursion (fuel : nat) (curState substate : HsmStateEnum)
  (h : SafeHsm) : option bool :=
  match fuel with
  | O => None
  | S fuel' =>
      match hasParentState curState h with
      | Some prevState =>
          if (substate =? prevState)%Z then Some false
          else noRecursion fuel' prevState substate h
      | None => Some true
      end
  end.

Definition registerSubstate (fuel : nat) (parent substate : HsmStateEnum)
  (isEntryPoint : bool) (h : SafeHsm) : option (bool * SafeHsm) :=
  match
    if negb (parent =? substate)%Z then
      match
        match hasParentState substate h with
        | None => noRecursion fuel parent substate h
        | Some _ => Some false
        end
      with
      | None => None
      | Some true =>
          match mSubstateEntryPoint (base h) !! parent with
          | None => Some isEntryPoint
          | Some _ => Some (negb isEntryPoint)
          end
      | Some false => Some false
      end
    else Some false
  with
  | None => None
  | Some true =>
      let m := base h in
      let m1 := if isEntryPoint
                then setSubstateEntryPoint
                       (<[parent := substate]> (mSubstateEntryPoint m)) m
                else m in
      let m2 := setSubstates (emplace Z.ltb parent substate (mSubstates m1))
                             m1 in
      let h2 := mkSafeHsm m2 (mTopLevelStates h) in
      Some (true,
            if isTopState substate h2
            then mkSafeHsm m2
                   (List.filter (fun t => negb (t =? substate)%Z)
                                (mTopLevelStates h))
            else h2)
  | Some false => Some (false, h)
  end.
(** The constructor: the list of top-level states starts empty. *)
Definition HierarchicalStateMachine (invalid initialState : HsmStateEnum)
  (w : W) : SafeHsm :=
  mkSafeHsm (HierarchicalStateMachine invalid initialState w) [].

(** [p] is registered as a parent of [c]. *)
Definition parent (h : SafeHsm) (p c : HsmStateEnum) : Prop :=
  In (p, c) (mSubstates (base h)).

(** The substate relation is a forest whose composite states all have an
    entry point among their children: no state has two parents, no state
    is above itself, every parent has an entry point, and every entry point
    is a child of its state. *)
Definition structured (h : SafeHsm) : Prop :=
  NoDup (snd <$> mSubstates (base h))
  /\ (forall s, ~ tc (parent h) s s)
  /\ (forall p c, parent h p c ->
                  is_Some (mSubstateEntryPoint (base h) !! p))
  /\ (forall p e, mSubstateEntryPoint (base h) !! p = Some e -> parent h p e).
End safe.
Arguments SafeHsm : clear implicits.
End SafeStructure.

(** * The Qt dispatcher

    [src/HsmEventDispatcherQt.cpp].  The class declaration is not among the
    sources: [mEventHandlers] is taken to be a [std::map] from handler ids
    to handlers, the id a new handler gets is what [getNextHandlerID()]
    answers, and the type Qt hands out is what
    [QEvent::registerEventType] answers; both answers are arguments.
    Handlers act on a state [G] of their own.  Events given to
    [QCoreApplication::postEvent] are listed by their type. *)
Module HsmEventDispatcherQt.
Section qt.
Context {G : Type}.

Definition QEvent_None : Z := 0.
Definition QEvent_User : Z := 1000.
Definition QT_EVENT_OFFSET : Z := 777.

(** One dispatcher object while a member function runs on it:
    [mQtEventType] is the static data member of the class as it is at that
    time, [mEventHandlers] and the events posted to the object are the
    object's own.  [Program] below has the static once for all
    objects. *)
Record Dispatcher := mkDispatcherQt {
  mQtEventType : Z;
  mEventHandlers : list (Z * (G -> G));
  postedEvents : list Z }.

(** [start()]; moving the object to the thread of the application's event
    dispatcher changes none of the members. *)
Definition start (registerEventType : Z -> Z) (d : Dispatcher)
  : bool * Dispatcher :=
  if (mQtEventType d =? QEvent_None)%Z then
    let newEvent := registerEventType (QEvent_User + QT_EVENT_OFFSET)%Z in
    if (0 <? newEvent)%Z
    then (true, mkDispatcherQt newEvent (mEventHandlers d) (postedEvents d))
    else (false, d)
  else (true, d).

(** [std::map::emplace]: a new entry at the place of its key, nothing when
    the key is there. *)
Fixpoint mapEmplace (id : Z) (handler : G -> G) (l : list (Z * (G -> G)))
  : list (Z * (G -> G)) :=
  match l with
  | [] => [(id, handler)]
  | (k, f) :: l' =>
      if (id <? k)%Z then (id, handler) :: l
      else if (k <? id)%Z then (k, f) :: mapEmplace id handler l'
      else l
  end.

Definition registerEventHandler (nextHandlerID : Z) (handler : G -> G)
  (d : Dispatcher) : Z * Dispatcher :=
  (nextHandlerID,
   mkDispatcherQt (mQtEventType d)
                  (mapEmplace nextHandlerID handler (mEventHandlers d))
                  (postedEvents d)).

Definition unregisterEventHandler (handlerId : Z) (d : Dispatcher)
  : Dispatcher :=
  mkDispatcherQt (mQtEventType d)
                 (List.filter (fun item => negb (fst item =? handlerId)%Z)
                              (mEventHandlers d))
                 (postedEvents d).

Definition emitEvent (d : Dispatcher) : Dispatcher :=
  if negb (mQtEventType d =? QEvent_None)%Z
  then mkDispatcherQt (mQtEventType d) (mEventHandlers d)
                      (postedEvents d ++ [mQtEventType d])
  else d.

Definition unregisterAllEventHandlers (d : Dispatcher) : Dispatcher :=
  mkDispatcherQt (mQtEventType d) [] (postedEvents d).

(** [event(ev)]: the handlers run in the order of the map. *)
Definition event (evType : Z) (d : Dispatcher) (g : G) : bool * G :=
  if (evType =? mQtEventType d)%Z
  then (true, fold_left (fun g1 item => snd item g1) (mEventHandlers d) g)
  else (false, g).

(** ** The static member

    [QEvent::Type HsmEventDispatcherQt::mQtEventType] is one variable for
    all dispatcher objects of a program.  A program has the static and its
    objects, by address; each object has its handlers and the events
    posted to it. *)
Record Program := mkProgram {
  staticQtEventType : Z;
  objects : list (list (Z * (G -> G)) * list Z) }.

(** The object at the address [this], with the static as it is. *)
Definition object (this : nat) (p : Program) : option Dispatcher :=
  (fun o => mkDispatcherQt (staticQtEventType p) o.1 o.2)
    <$> objects p !! this.

(** A member function has run on the object at [this] and has left the
    object and the static as [d] has them. *)
Definition stored (this : nat) (d : Dispatcher) (p : Program) : Program :=
  mkProgram (mQtEventType d)
            (<[this := (mEventHandlers d, postedEvents d)]> (objects p)).

(** [this->start()] and [this->emitEvent()] in a program. *)
Definition startOn (registerEventType : Z -> Z) (this : nat) (p : Program)
  : option (bool * Program) :=
  (fun d => let r := start registerEventType d in (r.1, stored this r.2 p))
    <$> object this p.

Definition emitEventOn (this : nat) (p : Program) : option Program :=
  (fun d => stored this (emitEvent d) p) <$> object this p.
End qt.
Arguments Dispatcher : clear implicits.
Arguments Program : clear implicits.
End HsmEventDispatcherQt.

(** * Machines of the scenarios

    The client counts the callbacks it has been called with; the arguments
    of events are integers. *)
Module Scenario.
Definition A : Z := 0.
Definition B : Z := 1.
Definition C : Z := 2.
Definition P : Z := 3.
Definition C1 : Z := 4.
Definition e : Z := 10.
Definition x : Z := 11.

Definition INVALID : Z := 0.
Definition host : IHsmEventDispatcher := mkDispatcher true 1 [] 0.

Definition changed : HsmStateChangedCallback_t nat Z :=
  fun _ _ w => S w.
Definition letIn : HsmStateEnterCallback_t nat Z :=
  fun _ _ w => (true, S w).
Definition deny : HsmStateEnterCallback_t nat Z :=
  fun _ _ w => (false, S w).
Definition leave : HsmStateExitCallback_t nat :=
  fun _ w => (true, S w).
Definition act : HsmTransitionCallback_t nat Z :=
  fun _ _ w => S w.
Definition firstIsOne : HsmTransitionConditionCallback_t nat Z :=
  fun _ a w => (match a with 1%Z :: _ => true | _ => false end, w).
Definition never : HsmTransitionConditionCallback_t nat Z :=
  fun _ _ w => (false, w).

Definition normal (event : Z) (a : list Z) : PendingEventInfo Z :=
  mkPendingEventInfo false event a None None None.

Definition machine (initialState : Z) : Hsm nat Z :=
  HierarchicalStateMachine INVALID initialState 0%nat.

(** Two states with all callbacks and one edge with an action. *)
Definition edgeAB : TransitionInfo nat Z := mkTransitionInfo B (Some act) None.
Definition flat : Hsm nat Z :=
  registerTransition A B e (Some act) None
    (registerState B (Some changed) (Some letIn) (Some leave)
       (registerState A (Some changed) (Some letIn) (Some leave)
          (machine A))).

(** The same, but B does not let the machine in. *)
Definition flatDenied : Hsm nat Z :=
  registerState B (Some changed) (Some deny) (Some leave) flat.

(** An edge from A to A for x, with an action. *)
Definition toSelf : TransitionInfo nat Z := mkTransitionInfo A (Some act) None.
Definition loop : Hsm nat Z :=
  registerTransition A A x (Some act) None flat.

(** P contains its entry point C1; the machine is in C1, the edge for x
    is on P. *)
Definition nested : Hsm nat Z :=
  registerTransition P A x None None
    (registerTransition A P e None None
       (registerSubstate P C1 true (machine C1)).2).

Definition edgePA : TransitionInfo nat Z := mkTransitionInfo A None None.

(** In addition C1 has an edge for x whose condition always refuses. *)
Definition refused : TransitionInfo nat Z :=
  mkTransitionInfo B (Some act) (Some never).
Definition nestedRefusing : Hsm nat Z :=
  registerTransition C1 B x (Some act) (Some never) nested.

(** The two edges of the guard-priority scenario, in registration
    order. *)
Definition toB : TransitionInfo nat Z :=
  mkTransitionInfo B (Some act) (Some firstIsOne).
Definition toC : TransitionInfo nat Z := mkTransitionInfo C None None.

(** A machine bound to the host loop, in A, with the composite state P
    as the target of e. *)
Definition bound : Hsm nat Z :=
  (initialize INVALID (Some host)
     (registerTransition A P e None None
        (registerSubstate P C1 true (machine A)).2)).2.

Definition posted (o : Outcome nat Z (Posted Z)) (otherwise : Hsm nat Z)
  : Hsm nat Z :=
  match o with
  | Returned _ m => m
  | NullDispatcher _ => otherwise
  end.

Definition dispatched (o : option (Outcome nat Z unit))
  (otherwise : Hsm nat Z) : Hsm nat Z :=
  match o with
  | Some (Returned _ m) => m
  | _ => otherwise
  end.

(** A synchronous e is posted and dispatched: the machine is in P and the
    entry-point event waits at the head of the queue.  Then x is posted
    behind it. *)
Definition drilling : Hsm nat Z :=
  let m1 := posted (transitionSync e 0 [] bound) bound in
  let m2 := dispatched (dispatchEvents 1 m1) bound in
  posted (transitionSync x 0 [] m2) bound.
End Scenario.

(** * Further machines *)
Module MoreScenarios.
Import Scenario.

Definition D : Z := 5.
Definition edgeAP : TransitionInfo nat Z := mkTransitionInfo P None None.

(** [bound] with e posted. *)
Definition waiting : Hsm nat Z := posted (transition e [] bound) bound.

(** C1 is given the parents D and P, in this order. *)
Definition twoParents : Hsm nat Z :=
  (registerSubstate D C1 true (machine A)).2.

(** A and B are each other's parent. *)
Definition round : Hsm nat Z :=
  (registerSubstate B A true (registerSubstate A B true (machine A)).2).2.

(** A new machine of the safe build, and one with P and its entry point. *)
Definition safe : SafeStructure.SafeHsm nat Z :=
  SafeStructure.HierarchicalStateMachine INVALID A 0%nat.

(** A client that keeps a journal: every callback notes its own number
    and the number of arguments it was given. *)
Definition Journal : Type := list (nat * nat).
Definition noted (n : nat) (a : list Z) (w : Journal) : Journal :=
  w ++ [(n, length a)].
Definition exitingA (answer : bool) : HsmStateExitCallback_t Journal :=
  fun _ w => (answer, noted 1 [] w).
Definition acting : HsmTransitionCallback_t Journal Z :=
  fun _ => noted 2.
Definition enteringB (answer : bool) : HsmStateEnterCallback_t Journal Z :=
  fun _ a w => (answer, noted 3 a w).
Definition changedB : HsmStateChangedCallback_t Journal Z :=
  fun _ => noted 4.
Definition enteringA : HsmStateEnterCallback_t Journal Z :=
  fun _ a w => (true, noted 5 a w).
Definition changedA : HsmStateChangedCallback_t Journal Z :=
  fun _ => noted 6.

(** A and B with these callbacks and the edge from A to B for e, with the
    action; onExiting of A answers [exits], onEntering of B answers
    [enters]. *)
Definition edgeNoted : TransitionInfo Journal Z :=
  mkTransitionInfo B (Some acting) None.
Definition journalled (exits enters : bool) : Hsm Journal Z :=
  registerTransition A B e (Some acting) None
    (registerState B (Some changedB) (Some (enteringB enters)) None
       (registerState A (Some changedA) (Some enteringA)
          (Some (exitingA exits))
          (HierarchicalStateMachine INVALID A []))).

(** A has two edges for e, the first with a condition on the arguments;
    B has an edge for x. *)
Definition guarded : Hsm nat Z :=
  registerTransition B C x None None
    (registerTransitions A e [toB; toC] (machine A)).

(** ** Machines whose callbacks post *)

(** The machine of [examples/00_helloworld/00_helloworld_qt.cpp]: the
    onStateChanged callbacks of OFF and ON print a line and post SWITCH.
    The client's data are the lines printed. *)
Definition OFF : Z := 0.
Definition ON : Z := 1.
Definition SWITCH : Z := 0.

Definition printAndSwitch (line : Z)
  : HsmStateChangedCallback_t (Posting.Client (list Z) Z) Z :=
  fun _ _ c =>
    Posting.mkClient (Posting.data c ++ [line])
                     (Posting.outbox c ++ [Posting.CallTransition SWITCH []]).

Definition helloWorld : Posting.Machine (list Z) Z :=
  registerTransition ON OFF SWITCH None None
    (registerTransition OFF ON SWITCH None None
       (registerState ON (Some (printAndSwitch ON)) None None
          (registerState OFF (Some (printAndSwitch OFF)) None None
             (initialize INVALID (Some host)
                (HierarchicalStateMachine INVALID OFF
                   (Posting.mkClient [] []))).2))).


(** The machine a call leaves, when the call returns. *)
Definition returned {X A : Type}
  (r : option (Outcome (Posting.Client X Z) Z A))
  (otherwise : Posting.Machine X Z) : Posting.Machine X Z :=
  match r with
  | Some (Returned _ m) => m
  | _ => otherwise
  end.

(** [hsm.transition(Events::SWITCH)] of [main] has been called. *)
Definition helloWorldPosted : Posting.Machine (list Z) Z :=
  returned (Some (transition SWITCH [] helloWorld)) helloWorld.

(** The machine of the example in the state [s], with one SWITCH in the
    queue, after the lines [lines] were printed. *)
Definition helloWorldIn (s : Z) (lines : list Z)
  (log : list (Invocation (Posting.Client (list Z) Z) Z))
  (d : IHsmEventDispatcher) : Posting.Machine (list Z) Z :=
  setCurrentState s
    (withClient (Posting.mkClient lines []) log
       (setDispatcher (Some d) (mDispatcherHandlerId helloWorld)
          (setPendingEvents [normal SWITCH []] helloWorld))).

(** The other state. *)
Definition toggled (s : Z) : Z := if (s =? OFF)%Z then ON else OFF.

(** The lines printed in [n] turns that begin in OFF. *)
Fixpoint printed (n : nat) : list Z :=
  match n with
  | O => []
  | S n' => printed n' ++ [if Nat.even n' then ON else OFF]
  end.





(** A Qt dispatcher that has not been started. *)
Definition qt : HsmEventDispatcherQt.Dispatcher nat :=
  HsmEventDispatcherQt.mkDispatcherQt 0 [] [].

(** A program with two Qt dispatchers, none of them started. *)
Definition twoDispatchers : HsmEventDispatcherQt.Program nat :=
  HsmEventDispatcherQt.mkProgram HsmEventDispatcherQt.QEvent_None
                                 [([], []); ([], [])].
End MoreScenarios.

(** * Facts about the multimap *)

Section multimap_facts.
Context {K V : Type} (lt : K -> K -> bool).
Hypothesis lt_irrefl : forall a, lt a a = false.
Hypothesis lt_trans :
  forall a b c, lt a b = true -> lt b c = true -> lt a c = true.
Hypothesis lt_below :
  forall a b c, lt a b = true -> lt c b = false -> lt a c = true.

Lemma equal_range_above (k k0 : K) (l : list (K * V)) :
  lt k k0 = true ->
  Forall (fun e => lt (fst e) k0 = false) l ->
  equal_range lt k l = [].
Proof using lt_below.
  intros Hk. induction 1 as [|[k1 v1] l Hh _ IH]; simpl; [done|].
  unfold equiv. rewrite (lt_below k k0 k1 Hk Hh). simpl. exact IH.
Qed.

Lemma equal_range_emplace (k : K) (v : V) (l : list (K * V)) :
  ascending lt l ->
  equal_range lt k (emplace lt k v l) = equal_range lt k l ++ [v].
Proof using lt_irrefl lt_below.
  induction l as [|[k1 v1] l IH]; simpl.
  - intros _. unfold equiv. by rewrite lt_irrefl.
  - intros [Hall Hasc]. destruct (lt k k1) eqn:Hlt; simpl.
    + unfold equiv at 1. rewrite lt_irrefl. simpl.
      unfold equiv. rewrite Hlt. simpl.
      by rewrite (equal_range_above k k1 l Hlt Hall).
    + rewrite (IH Hasc). by destruct (equiv lt k k1).
Qed.

Lemma equal_range_emplace_other (k0 k : K) (v : V) (l : list (K * V)) :
  equiv lt k0 k = false ->
  equal_range lt k0 (emplace lt k v l) = equal_range lt k0 l.
Proof using Type.
  intros Hne. induction l as [|[k1 v1] l IH]; simpl.
  - by rewrite Hne.
  - destruct (lt k k1); simpl.
    + by rewrite Hne.
    + by rewrite IH.
Qed.

Lemma Forall_emplace (P : K * V -> Prop) (k : K) (v : V) (l : list (K * V)) :
  P (k, v) -> Forall P l -> Forall P (emplace lt k v l).
Proof using Type.
  intros Hk. induction 1 as [|[k1 v1] l Hh Hl IH]; simpl.
  - by constructor.
  - destruct (lt k k1); repeat constructor; done.
Qed.

Lemma ascending_emplace (k : K) (v : V) (l : list (K * V)) :
  ascending lt l -> ascending lt (emplace lt k v l).
Proof using lt_irrefl lt_trans.
  induction l as [|[k1 v1] l IH]; simpl.
  - intros _. split; [constructor | done].
  - intros [Hall Hasc]. destruct (lt k k1) eqn:Hlt; simpl.
    + split; [|done]. constructor; simpl.
      * destruct (lt k1 k) eqn:Hgt; [|done].
        pose proof (lt_irrefl k) as Hi.
        by rewrite (lt_trans k k1 k Hlt Hgt) in Hi.
      * eapply Forall_impl; [exact Hall|]. intros [k2 v2]; simpl; intros H2.
        destruct (lt k2 k) eqn:Hlt2; [|done].
        by rewrite (lt_trans k2 k k1 Hlt2 Hlt) in H2.
    + split; [|by apply IH]. by apply Forall_emplace.
Qed.
End multimap_facts.

Lemma pair_lt_irrefl (a : Z * Z) : pair_lt a a = false.
Proof. unfold pair_lt. destruct a as [x y]; simpl. lia. Qed.

Lemma pair_lt_trans (a b c : Z * Z) :
  pair_lt a b = true -> pair_lt b c = true -> pair_lt a c = true.
Proof.
  unfold pair_lt. destruct a as [x1 y1], b as [x2 y2], c as [x3 y3]; simpl.
  lia.
Qed.

Lemma pair_lt_below (a b c : Z * Z) :
  pair_lt a b = true -> pair_lt c b = false -> pair_lt a c = true.
Proof.
  unfold pair_lt. destruct a as [x1 y1], b as [x2 y2], c as [x3 y3]; simpl.
  lia.
Qed.

Lemma pair_equiv_eq (a b : Z * Z) : equiv pair_lt a b = true <-> a = b.
Proof.
  unfold equiv, pair_lt. destruct a as [x1 y1], b as [x2 y2]; simpl.
  split; [intros H; f_equal; lia | intros [= -> ->]; lia].
Qed.

(** * Facts about the engine *)

Section engine_facts.
Context {W Variant : Type}.
Implicit Types (m : Hsm W Variant) (ti : TransitionInfo W Variant).
Implicit Types (event : PendingEventInfo Variant) (a : VariantList_t Variant).
Implicit Types (s : Z).

Lemma onlyClient_refl m : onlyClient m m.
Proof. by destruct m. Qed.

Lemma onlyClient_withClient w t m : onlyClient m (withClient w t m).
Proof. reflexivity. Qed.

Lemma onlyClient_trans m1 m2 m3 :
  onlyClient m1 m2 -> onlyClient m2 m3 -> onlyClient m1 m3.
Proof. unfold onlyClient. intros H12 H23. rewrite H23, H12. reflexivity. Qed.

Lemma onlyClient_state m m' :
  onlyClient m m' -> mCurrentState m' = mCurrentState m.
Proof. intros ->. reflexivity. Qed.

Lemma onlyClient_states m m' :
  onlyClient m m' -> mRegisteredStates m' = mRegisteredStates m.
Proof. intros ->. reflexivity. Qed.

Lemma onlyClient_queue m m' :
  onlyClient m m' -> mPendingEvents m' = mPendingEvents m.
Proof. intros ->. reflexivity. Qed.

Lemma onStateExiting_client s m : onlyClient m (onStateExiting s m).2.
Proof.
  unfold onStateExiting.
  destruct (mRegisteredStates m !! s) as [[c e [x|]]|]; simpl;
    try apply onlyClient_refl.
  destruct (x _ _). apply onlyClient_withClient.
Qed.

Lemma onStateEntering_client s a m : onlyClient m (onStateEntering s a m).2.
Proof.
  unfold onStateEntering.
  destruct (mRegisteredStates m !! s) as [[c [e|] x]|]; simpl;
    try apply onlyClient_refl.
  destruct (e _ _ _). apply onlyClient_withClient.
Qed.

Lemma onStateChanged_client s a m : onlyClient m (onStateChanged_ s a m).
Proof.
  unfold onStateChanged_.
  destruct (mRegisteredStates m !! s) as [[[c|] e x]|]; simpl;
    try apply onlyClient_refl.
  apply onlyClient_withClient.
Qed.

Lemma callTransition_client ti a m : onlyClient m (callTransition ti a m).
Proof.
  unfold callTransition. destruct (onTransition ti); simpl;
    [apply onlyClient_withClient | apply onlyClient_refl].
Qed.

Lemma onStateExiting_trace s m :
  trace (onStateExiting s m).2 = trace m ++ exitingCalls s m.
Proof.
  unfold onStateExiting, exitingCalls.
  destruct (mRegisteredStates m !! s) as [[c e [x|]]|]; simpl;
    rewrite ?app_nil_r; try done.
  by destruct (x _ _).
Qed.

Lemma onStateExiting_refused s m :
  (onStateExiting s m).1 = false ->
  exitingCalls s m = [mkInvocation (mCurrentState m) (Exiting s)].
Proof.
  unfold onStateExiting, exitingCalls.
  by destruct (mRegisteredStates m !! s) as [[c e [x|]]|].
Qed.

Lemma onStateEntering_trace s a m :
  trace (onStateEntering s a m).2 = trace m ++ enteringCalls s a m.
Proof.
  unfold onStateEntering, enteringCalls.
  destruct (mRegisteredStates m !! s) as [[c [e|] x]|]; simpl;
    rewrite ?app_nil_r; try done.
  by destruct (e _ _ _).
Qed.

Lemma onStateEntering_refused s a m :
  (onStateEntering s a m).1 = false ->
  enteringCalls s a m = [mkInvocation (mCurrentState m) (Entering s a)].
Proof.
  unfold onStateEntering, enteringCalls.
  by destruct (mRegisteredStates m !! s) as [[c [e|] x]|].
Qed.

Lemma onStateChanged_trace s a m :
  trace (onStateChanged_ s a m)
  = trace m ++ changedCalls (mCurrentState m) s a m.
Proof.
  unfold onStateChanged_, changedCalls.
  destruct (mRegisteredStates m !! s) as [[[c|] e x]|]; simpl;
    rewrite ?app_nil_r; done.
Qed.

Lemma callTransition_trace ti a m :
  trace (callTransition ti a m) = trace m ++ transitionCalls ti a m.
Proof.
  unfold callTransition, transitionCalls.
  destruct (onTransition ti); simpl; rewrite ?app_nil_r; done.
Qed.

(** The entries a helper logs depend on the registry and on
    [mCurrentState], which callbacks leave alone. *)
Lemma exitingCalls_client s m m' :
  onlyClient m m' -> exitingCalls s m' = exitingCalls s m.
Proof. intros ->. reflexivity. Qed.

Lemma enteringCalls_client s a m m' :
  onlyClient m m' -> enteringCalls s a m' = enteringCalls s a m.
Proof. intros ->. reflexivity. Qed.

Lemma changedCalls_client s0 s a m m' :
  onlyClient m m' -> changedCalls s0 s a m' = changedCalls s0 s a m.
Proof. intros ->. reflexivity. Qed.

Lemma transitionCalls_client ti a m m' :
  onlyClient m m' -> transitionCalls ti a m' = transitionCalls ti a m.
Proof. intros ->. reflexivity. Qed.

Lemma changedCalls_setCurrentState s0 s1 s a m :
  changedCalls s0 s a (setCurrentState s1 m) = changedCalls s0 s a m.
Proof. reflexivity. Qed.

(** The three ways through a transition that leaves the current state. *)
Lemma applyTransition_moving ti event m :
  mCurrentState m <> destinationState ti ->
  let src := mCurrentState m in
  let dst := destinationState ti in
  let exit := onStateExiting src m in
  let enter := onStateEntering dst (args event)
                 (callTransition ti (args event) exit.2) in
  let settled := onStateChanged_ dst (args event)
                   (setCurrentState dst enter.2) in
  applyTransition ti event m =
    if exit.1 then
      if enter.1 then
        match getEntryPoint dst settled with
        | Some _ =>
            (PENDING,
             setPendingEvents (entryPointTransitionEvent event
                                :: mPendingEvents settled)
                              settled)
        | None => (DONE_OK, settled)
        end
      else
        (DONE_FAILED,
         onStateChanged_ src [] (onStateEntering src [] enter.2).2)
    else (DONE_FAILED, exit.2).
Proof.
  intros Hne src dst exit enter settled.
  unfold applyTransition.
  destruct (Z.eqb_spec (mCurrentState m) (destinationState ti)) as [|_];
    [done|]. simpl.
  fold src dst. fold exit.
  destruct exit as [ex mE] eqn:HE. simpl in *.
  destruct ex; [|done].
  fold enter. destruct enter as [en mN] eqn:HN. simpl in *.
  assert (HcE : onlyClient m mE).
  { pose proof (onStateExiting_client src m) as H. fold exit in H.
    by rewrite HE in H. }
  assert (HcN : onlyClient m mN).
  { pose proof (onStateEntering_client dst (args event)
                  (callTransition ti (args event) mE)) as H.
    fold enter in H. rewrite HN in H. simpl in H.
    eapply onlyClient_trans; [exact HcE|].
    eapply onlyClient_trans; [apply callTransition_client | exact H]. }
  destruct en.
  - assert (Hs : mCurrentState settled = dst).
    { unfold settled.
      by rewrite (onlyClient_state _ _ (onStateChanged_client _ _ _)). }
    fold settled. by rewrite Hs.
  - rewrite (onlyClient_state _ _ HcN). fold src.
    rewrite (onlyClient_state _ _ (onStateEntering_client _ _ _)).
    by rewrite (onlyClient_state _ _ HcN).
Qed.

(** What such a transition adds to the log, in each of the three cases. *)
Lemma applyTransition_moving_trace ti event m :
  mCurrentState m <> destinationState ti ->
  let src := mCurrentState m in
  let dst := destinationState ti in
  let exit := onStateExiting src m in
  let enter := onStateEntering dst (args event)
                 (callTransition ti (args event) exit.2) in
  let after := (applyTransition ti event m).2 in
  (exit.1 = false ->
     trace after = trace m ++ [mkInvocation src (Exiting src)])
  /\ (exit.1 = true -> enter.1 = false ->
      trace after
      = trace m ++ exitingCalls src m ++ transitionCalls ti (args event) m
          ++ [mkInvocation src (Entering dst (args event))]
          ++ enteringCalls src [] m ++ changedCalls src src [] m)
  /\ (exit.1 = true -> enter.1 = true ->
      trace after
      = trace m ++ exitingCalls src m ++ transitionCalls ti (args event) m
          ++ enteringCalls dst (args event) m
          ++ changedCalls dst dst (args event) m).
Proof.
  intros Hne src dst exit enter after.
  unfold after. rewrite (applyTransition_moving ti event m Hne).
  fold src dst. fold exit. fold enter.
  assert (HcE : onlyClient m exit.2) by apply onStateExiting_client.
  assert (HcT : onlyClient m (callTransition ti (args event) exit.2)).
  { eapply onlyClient_trans; [exact HcE | apply callTransition_client]. }
  assert (HcN : onlyClient m enter.2).
  { eapply onlyClient_trans; [exact HcT | apply onStateEntering_client]. }
  assert (HtE : trace exit.2 = trace m ++ exitingCalls src m)
    by apply onStateExiting_trace.
  assert (HtN : trace enter.2
                = trace m ++ exitingCalls src m
                    ++ transitionCalls ti (args event) m
                    ++ enteringCalls dst (args event) m).
  { unfold enter. rewrite onStateEntering_trace, callTransition_trace, HtE.
    rewrite (enteringCalls_client dst (args event) _ _ HcT).
    rewrite (transitionCalls_client ti (args event) _ _ HcE).
    by rewrite <- !app_assoc. }
  split; [|split].
  - intros Hex. rewrite Hex. simpl. rewrite HtE.
    by rewrite (onStateExiting_refused _ _ Hex).
  - intros Hex Hen. rewrite Hex, Hen. simpl.
    rewrite onStateChanged_trace, onStateEntering_trace, HtN.
    rewrite <- (enteringCalls_client dst (args event) _ _ HcT).
    rewrite (onStateEntering_refused _ _ _ Hen).
    rewrite (onlyClient_state _ _ HcT). fold src.
    rewrite (onlyClient_state _ _ (onStateEntering_client _ _ _)).
    rewrite (onlyClient_state _ _ HcN). fold src.
    rewrite (changedCalls_client src src [] _ _
               (onlyClient_trans _ _ _ HcN
                  (onStateEntering_client src [] enter.2))).
    rewrite (enteringCalls_client src [] _ _ HcN).
    by rewrite <- !app_assoc.
  - intros Hex Hen. rewrite Hex, Hen.
    assert (Hts : trace (onStateChanged_ dst (args event)
                           (setCurrentState dst enter.2))
                  = trace m ++ exitingCalls src m
                      ++ transitionCalls ti (args event) m
                      ++ enteringCalls dst (args event) m
                      ++ changedCalls dst dst (args event) m).
    { rewrite onStateChanged_trace. simpl.
      rewrite changedCalls_setCurrentState, HtN.
      rewrite (changedCalls_client dst dst (args event) _ _ HcN).
      by rewrite <- !app_assoc. }
    by destruct (getEntryPoint _ _).
Qed.

(** The member functions hand on what the callback answers, and leave the
    client as the callback left it. *)
Lemma onStateExiting_answer s m :
  ((onStateExiting s m).1, world (onStateExiting s m).2)
  = exitingAnswer m s (mCurrentState m) (world m).
Proof.
  unfold onStateExiting, exitingAnswer.
  destruct (mRegisteredStates m !! s) as [[c e [x|]]|]; simpl; try done.
  by destruct (x _ _).
Qed.

Lemma onStateEntering_answer s a m :
  ((onStateEntering s a m).1, world (onStateEntering s a m).2)
  = enteringAnswer m s (mCurrentState m) a (world m).
Proof.
  unfold onStateEntering, enteringAnswer.
  destruct (mRegisteredStates m !! s) as [[c [e|] x]|]; simpl; try done.
  by destruct (e _ _ _).
Qed.

Lemma onStateChanged_effect s a m :
  world (onStateChanged_ s a m)
  = changedEffect m s (mCurrentState m) a (world m).
Proof.
  unfold onStateChanged_, changedEffect.
  by destruct (mRegisteredStates m !! s) as [[[c|] e x]|].
Qed.

Lemma callTransition_effect ti a m :
  world (callTransition ti a m)
  = actionEffect ti (mCurrentState m) a (world m).
Proof. unfold callTransition, actionEffect. by destruct (onTransition ti). Qed.

Lemma exitingAnswer_client m m' :
  onlyClient m m' -> exitingAnswer m' = exitingAnswer m.
Proof. intros ->. reflexivity. Qed.

Lemma enteringAnswer_client m m' :
  onlyClient m m' -> enteringAnswer m' = enteringAnswer m.
Proof. intros ->. reflexivity. Qed.

Lemma changedEffect_client m m' :
  onlyClient m m' -> changedEffect m' = changedEffect m.
Proof. intros ->. reflexivity. Qed.

(** A transition that leaves the current state, told by what the client's
    callbacks answer: the status, the state of the client and the current
    state afterwards, in each of the three cases. *)
Lemma applyTransition_moving_answers ti event m :
  mCurrentState m <> destinationState ti ->
  let src := mCurrentState m in
  let dst := destinationState ti in
  let exit := exitingAnswer m src src (world m) in
  let acted := actionEffect ti src (args event) exit.2 in
  let enter := enteringAnswer m dst src (args event) acted in
  let again := enteringAnswer m src src [] enter.2 in
  let result := applyTransition ti event m in
  (onStateExiting src m).1 = exit.1
  /\ (onStateEntering dst (args event)
        (callTransition ti (args event) (onStateExiting src m).2)).1
     = enter.1
  /\ (exit.1 = false ->
      result.1 = DONE_FAILED
      /\ world result.2 = exit.2
      /\ onlyClient m result.2)
  /\ (exit.1 = true -> enter.1 = false ->
      result.1 = DONE_FAILED
      /\ world result.2 = changedEffect m src src [] again.2
      /\ onlyClient m result.2)
  /\ (exit.1 = true -> enter.1 = true ->
      result.1 <> DONE_FAILED
      /\ world result.2 = changedEffect m dst dst (args event) enter.2
      /\ mCurrentState result.2 = dst).
Proof.
  intros Hne src dst exit acted enter again result.
  unfold result. rewrite (applyTransition_moving ti event m Hne).
  fold src dst.
  set (mE := onStateExiting src m).
  set (mT := callTransition ti (args event) mE.2).
  set (mN := onStateEntering dst (args event) mT).
  assert (HcE : onlyClient m mE.2) by apply onStateExiting_client.
  assert (HcT : onlyClient m mT).
  { eapply onlyClient_trans; [exact HcE | apply callTransition_client]. }
  assert (HcN : onlyClient m mN.2).
  { eapply onlyClient_trans; [exact HcT | apply onStateEntering_client]. }
  assert (HaE : (mE.1, world mE.2) = exit) by apply onStateExiting_answer.
  assert (HwT : world mT = acted).
  { unfold mT. rewrite callTransition_effect.
    rewrite (onlyClient_state _ _ HcE). fold src.
    unfold acted. by rewrite <- HaE. }
  assert (HaN : (mN.1, world mN.2) = enter).
  { unfold mN. rewrite onStateEntering_answer.
    rewrite (enteringAnswer_client _ _ HcT), (onlyClient_state _ _ HcT).
    fold src. by rewrite HwT. }
  assert (HE1 : mE.1 = exit.1) by (by rewrite <- HaE).
  assert (HN1 : mN.1 = enter.1) by (by rewrite <- HaN).
  split; [exact HE1|]. split; [exact HN1|].
  rewrite HE1, HN1.
  split; [|split].
  - intros Hex. rewrite Hex. simpl. split; [done|].
    split; [by rewrite <- HaE | exact HcE].
  - intros Hex Hen. rewrite Hex, Hen. simpl. split; [done|].
    set (mR := onStateEntering src [] mN.2).
    assert (HcR : onlyClient m mR.2).
    { eapply onlyClient_trans; [exact HcN | apply onStateEntering_client]. }
    assert (HaR : (mR.1, world mR.2) = again).
    { unfold mR. rewrite onStateEntering_answer.
      rewrite (enteringAnswer_client _ _ HcN), (onlyClient_state _ _ HcN).
      fold src. unfold again. by rewrite <- HaN. }
    split.
    + rewrite onStateChanged_effect.
      rewrite (changedEffect_client _ _ HcR), (onlyClient_state _ _ HcR).
      fold src. by rewrite <- HaR.
    + eapply onlyClient_trans; [exact HcR | apply onStateChanged_client].
  - intros Hex Hen. rewrite Hex, Hen.
    set (mS := onStateChanged_ dst (args event) (setCurrentState dst mN.2)).
    assert (HwS : world mS = changedEffect m dst dst (args event) enter.2).
    { unfold mS. rewrite onStateChanged_effect. unfold changedEffect.
      simpl. rewrite (onlyClient_states _ _ HcN). by rewrite <- HaN. }
    assert (HsS : mCurrentState mS = dst).
    { unfold mS.
      by rewrite (onlyClient_state _ _ (onStateChanged_client _ _ _)). }
    destruct (getEntryPoint dst mS); simpl; by repeat split.
Qed.
End engine_facts.

(** * Properties of doTransition *)

Section transition_properties.
Context {W Variant : Type}.
Implicit Types (m : Hsm W Variant) (ti : TransitionInfo W Variant).
Implicit Types (event : PendingEventInfo Variant) (a : VariantList_t Variant).

Lemma doTransition_resolved fuel event m ti m1 :
  resolveTransition fuel event m = Some (Some ti, m1) ->
  doTransition fuel event m = Some (applyTransition ti event m1).
Proof. unfold doTransition. by intros ->. Qed.

(** C2: a transition that leaves the current state calls onExiting of the
    source, then the action of the edge, then onEntering of the
    destination, then onStateChanged of the destination, each one if it is
    set: the client is left as these callbacks leave it one after the
    other, and the log has them in this order.  When the onExiting
    callback answers false the result is DONE_FAILED and no other callback
    is called: the client is as onExiting left it.  When the onEntering
    callback answers false the result is DONE_FAILED, the action has been
    called before it, and what follows is not onStateChanged of the
    destination but the callbacks of the source. *)
Theorem callbacks_fire_in_order fuel event m ti m1 :
  resolveTransition fuel event m = Some (Some ti, m1) ->
  mCurrentState m1 <> destinationState ti ->
  let src := mCurrentState m1 in
  let dst := destinationState ti in
  let exit := exitingAnswer m1 src src (world m1) in
  let acted := actionEffect ti src (args event) exit.2 in
  let enter := enteringAnswer m1 dst src (args event) acted in
  exists status m2,
    doTransition fuel event m = Some (status, m2)
    /\ (exit.1 = false ->
        status = DONE_FAILED
        /\ world m2 = exit.2
        /\ trace m2 = trace m1 ++ [mkInvocation src (Exiting src)])
    /\ (exit.1 = true -> enter.1 = false ->
        status = DONE_FAILED
        /\ world m2
           = changedEffect m1 src src []
               (enteringAnswer m1 src src [] enter.2).2
        /\ exists rollback,
             trace m2
             = trace m1 ++ exitingCalls src m1
                 ++ transitionCalls ti (args event) m1
                 ++ [mkInvocation src (Entering dst (args event))]
                 ++ rollback
             /\ Forall (fun i => forall a', called i <> StateChanged dst a')
                       rollback)
    /\ (exit.1 = true -> enter.1 = true ->
        status <> DONE_FAILED
        /\ mCurrentState m2 = dst
        /\ world m2 = changedEffect m1 dst dst (args event) enter.2
        /\ trace m2
           = trace m1 ++ exitingCalls src m1
               ++ transitionCalls ti (args event) m1
               ++ enteringCalls dst (args event) m1
               ++ changedCalls dst dst (args event) m1).
Proof.
  intros Hres Hne src dst exit acted enter.
  destruct (applyTransition ti event m1) as [status m2] eqn:Happ.
  exists status, m2.
  split; [by rewrite (doTransition_resolved _ _ _ _ _ Hres), Happ|].
  destruct (applyTransition_moving_trace ti event m1 Hne) as (H1 & H2 & H3).
  destruct (applyTransition_moving_answers ti event m1 Hne)
    as (HE & HN & A1 & A2 & A3).
  fold src dst in H1, H2, H3, HE, HN, A1, A2, A3.
  fold exit in HE, A1, A2, A3. fold acted in HN, A2, A3.
  fold enter in HN, A2, A3.
  rewrite HE in H1, H2, H3. rewrite HN in H2, H3.
  rewrite Happ in H1, H2, H3, A1, A2, A3.
  simpl in H1, H2, H3, A1, A2, A3.
  split; [|split].
  - intros Hex. destruct (A1 Hex) as (Hs & Hw & _).
    split; [exact Hs|]. split; [exact Hw | by apply H1].
  - intros Hex Hen. destruct (A2 Hex Hen) as (Hs & Hw & _).
    split; [exact Hs|]. split; [exact Hw|].
    exists (enteringCalls src [] m1 ++ changedCalls src src [] m1).
    split; [by apply H2|].
    apply Forall_app. split.
    + unfold enteringCalls.
      destruct (mRegisteredStates m1 !! src) as [[c [e|] x]|];
        repeat constructor; done.
    + unfold changedCalls.
      destruct (mRegisteredStates m1 !! src) as [[[c|] e x]|];
        repeat constructor.
      simpl. intros a' [= Heq _]. by apply Hne.
  - intros Hex Hen. destruct (A3 Hex Hen) as (Hs & Hw & Hc).
    split; [exact Hs|]. split; [exact Hc|]. split; [exact Hw|].
    by apply H3.
Qed.

(** C3: when the onEntering callback of the destination answers false,
    doTransition calls onEntering and then onStateChanged of the state it
    came from, both with an empty argument list and whatever the first of
    them answers, leaves mCurrentState at that state and returns
    DONE_FAILED.  The client is as these two callbacks leave it, and
    nothing else of the machine has changed. *)
Theorem enter_refusal_rolls_back fuel event m ti m1 :
  resolveTransition fuel event m = Some (Some ti, m1) ->
  mCurrentState m1 <> destinationState ti ->
  let src := mCurrentState m1 in
  let dst := destinationState ti in
  let exit := exitingAnswer m1 src src (world m1) in
  let acted := actionEffect ti src (args event) exit.2 in
  let enter := enteringAnswer m1 dst src (args event) acted in
  exit.1 = true ->
  enter.1 = false ->
  let again := enteringAnswer m1 src src [] enter.2 in
  exists m2,
    doTransition fuel event m = Some (DONE_FAILED, m2)
    /\ mCurrentState m2 = src
    /\ world m2 = changedEffect m1 src src [] again.2
    /\ trace m2
       = trace m1 ++ exitingCalls src m1
           ++ transitionCalls ti (args event) m1
           ++ [mkInvocation src (Entering dst (args event))]
           ++ enteringCalls src [] m1 ++ changedCalls src src [] m1
    /\ onlyClient m1 m2.
Proof.
  intros Hres Hne src dst exit acted enter Hex Hen again.
  destruct (applyTransition ti event m1) as [status m2] eqn:Happ.
  destruct (applyTransition_moving_trace ti event m1 Hne) as (_ & H2 & _).
  destruct (applyTransition_moving_answers ti event m1 Hne)
    as (HE & HN & _ & A2 & _).
  fold src dst in H2, HE, HN, A2.
  fold exit in HE, A2. fold acted in HN, A2. fold enter in HN, A2.
  rewrite HE, HN in H2. rewrite Happ in H2, A2. simpl in H2, A2.
  destruct (A2 Hex Hen) as (Hs & Hw & Hc). subst status.
  exists m2.
  split; [by rewrite (doTransition_resolved _ _ _ _ _ Hres), Happ|].
  split; [exact (onlyClient_state _ _ Hc)|].
  split; [exact Hw|]. split; [by apply H2 | exact Hc].
Qed.

(** C8: when the resolved target is the current state, an edge with an
    action has that action called with the arguments of the event, and
    nothing else, and the result is DONE_OK; an edge without an action
    gives DONE_FAILED and calls nothing. *)
Theorem self_transition_is_action_only fuel event m ti m1 :
  resolveTransition fuel event m = Some (Some ti, m1) ->
  destinationState ti = mCurrentState m1 ->
  match onTransition ti with
  | Some action =>
      doTransition fuel event m
      = Some (DONE_OK,
              withClient
                (action (mCurrentState m1) (args event) (world m1))
                (trace m1 ++ [mkInvocation (mCurrentState m1)
                                           (Transition ti (args event))])
                m1)
  | None => doTransition fuel event m = Some (DONE_FAILED, m1)
  end.
Proof.
  intros Hres Hdst.
  rewrite (doTransition_resolved _ _ _ _ _ Hres).
  unfold applyTransition, callTransition. rewrite Hdst, Z.eqb_refl. simpl.
  by destruct (onTransition ti).
Qed.

(** C5, amended: during a transition mCurrentState is still the source
    state when onExiting of the source, the action of the edge and
    onEntering of the destination run; it is the destination state when
    onStateChanged of the destination runs. *)
Theorem currentState_advances_after_entering fuel event m ti m1 status m2 :
  resolveTransition fuel event m = Some (Some ti, m1) ->
  doTransition fuel event m = Some (status, m2) ->
  Forall (seenInCode (mCurrentState m1) (destinationState ti))
         (drop (length (trace m1)) (trace m2)).
Proof.
  intros Hres Hdo.
  rewrite (doTransition_resolved _ _ _ _ _ Hres) in Hdo.
  assert (Hm2 : m2 = (applyTransition ti event m1).2)
    by (injection Hdo as Hdo; by rewrite Hdo).
  clear Hdo. subst m2.
  set (src := mCurrentState m1). set (dst := destinationState ti).
  assert (Hexit : Forall (seenInCode src dst) (exitingCalls src m1)).
  { unfold exitingCalls.
    destruct (mRegisteredStates m1 !! src) as [[c e [x|]]|];
      repeat constructor. }
  assert (Hact : forall a, Forall (seenInCode src dst)
                                  (transitionCalls ti a m1)).
  { intros a. unfold transitionCalls.
    destruct (onTransition ti); repeat constructor. }
  assert (Henter : forall s a, Forall (seenInCode src dst)
                                      (enteringCalls s a m1)).
  { intros s a. unfold enteringCalls.
    destruct (mRegisteredStates m1 !! s) as [[c [e|] x]|];
      repeat constructor. }
  destruct (decide (src = dst)) as [Heq|Hne].
  - unfold applyTransition.
    rewrite (proj2 (Z.eqb_eq (mCurrentState m1) (destinationState ti)) Heq).
    simpl.
    destruct (onTransition ti) as [f|] eqn:Hf; simpl.
    + rewrite callTransition_trace, drop_app_length. apply Hact.
    + rewrite drop_all. constructor.
  - destruct (applyTransition_moving_trace ti event m1 Hne) as (H1 & H2 & H3).
    fold src dst in H1, H2, H3.
    destruct (onStateExiting src m1).1 eqn:Hex.
    + destruct (onStateEntering dst (args event)
                  (callTransition ti (args event)
                     (onStateExiting src m1).2)).1 eqn:Hen.
      * rewrite (H3 eq_refl eq_refl), drop_app_length.
        repeat (apply Forall_app; split); auto.
        unfold changedCalls.
        destruct (mRegisteredStates m1 !! dst) as [[[c|] e x]|];
          repeat constructor.
      * rewrite (H2 eq_refl eq_refl), drop_app_length.
        repeat (apply Forall_app; split); auto.
        { repeat constructor. }
        unfold changedCalls.
        destruct (mRegisteredStates m1 !! src) as [[[c|] e x]|];
          repeat constructor. cbv [seenInCode called seen]. done.
    + rewrite (H1 eq_refl), drop_app_length. repeat constructor.
Qed.
End transition_properties.

(** * Properties of the resolution *)

Section resolution_properties.
Context {W Variant : Type}.
Implicit Types (m : Hsm W Variant) (ti : TransitionInfo W Variant).
Implicit Types (event : PendingEventInfo Variant) (a : VariantList_t Variant).
Implicit Types (range : list (TransitionInfo W Variant)).

Lemma afterCondition_client ti a m : onlyClient m (afterCondition ti a m).
Proof.
  unfold afterCondition. destruct (checkCondition ti);
    [apply onlyClient_withClient | apply onlyClient_refl].
Qed.

Lemma afterConditions_client range a m :
  onlyClient m (afterConditions range a m).
Proof.
  revert m. induction range as [|ti range IH]; intros m; simpl.
  - apply onlyClient_refl.
  - eapply onlyClient_trans; [apply afterCondition_client | apply IH].
Qed.

Lemma conditionCalls_client range a m m' :
  onlyClient m m' -> conditionCalls range a m' = conditionCalls range a m.
Proof. intros ->. reflexivity. Qed.

Lemma afterCondition_trace ti a m :
  trace (afterCondition ti a m) = trace m ++ conditionCalls [ti] a m.
Proof.
  unfold afterCondition, conditionCalls. simpl.
  destruct (checkCondition ti); simpl; by rewrite ?app_nil_r.
Qed.

Lemma afterConditions_trace range a m :
  trace (afterConditions range a m) = trace m ++ conditionCalls range a m.
Proof.
  revert m. induction range as [|ti range IH]; intros m; simpl.
  - by rewrite app_nil_r.
  - unfold afterConditions in *. simpl. rewrite IH, afterCondition_trace.
    rewrite (conditionCalls_client range a _ _ (afterCondition_client ti a m)).
    rewrite <- app_assoc. f_equal.
    unfold conditionCalls. simpl. by destruct (checkCondition ti).
Qed.

Lemma afterConditions_app range1 range2 a m :
  afterConditions (range1 ++ range2) a m
  = afterConditions range2 a (afterConditions range1 a m).
Proof. unfold afterConditions. apply fold_left_app. Qed.

Lemma afterConditions_cons ti range a m :
  afterConditions (ti :: range) a m
  = afterConditions range a (afterCondition ti a m).
Proof. reflexivity. Qed.

Lemma checkRange_refused ti range a m cond :
  checkCondition ti = Some cond ->
  (cond (mCurrentState m) a (world m)).1 = false ->
  checkRange (ti :: range) a m = checkRange range a (afterCondition ti a m).
Proof.
  intros Hc Hno. simpl. unfold afterCondition. rewrite Hc.
  destruct (cond _ _ _) as [ok w]. simpl in *. by subst ok.
Qed.

(** The scan of a range whose conditions all refuse finds nothing. *)
Lemma checkRange_allRefuse range a m :
  allRefuse range a m ->
  checkRange range a m = (None, afterConditions range a m).
Proof.
  revert m. induction range as [|ti range IH]; intros m; [done|].
  rewrite afterConditions_cons. simpl allRefuse.
  destruct (checkCondition ti) as [cond|] eqn:Hc; [|done].
  intros [Hno Hrest].
  rewrite (checkRange_refused _ _ _ _ _ Hc Hno). by apply IH.
Qed.

(** The scan stops at the first edge that lets the arguments pass. *)
Lemma checkRange_first pre e post a m :
  allRefuse pre a m ->
  accepts e a (afterConditions pre a m) ->
  checkRange (pre ++ e :: post) a m
  = (Some e, afterCondition e a (afterConditions pre a m)).
Proof.
  revert m. induction pre as [|ti pre IH]; intros m.
  - intros _. unfold accepts, afterConditions, afterCondition. simpl.
    destruct (checkCondition e) as [cond|]; [|done].
    destruct (cond _ _ _) as [ok w]. simpl. by intros ->.
  - rewrite afterConditions_cons. simpl allRefuse.
    destruct (checkCondition ti) as [cond|] eqn:Hc; [|done].
    intros [Hno Hrest] Hacc. rewrite <- app_comm_cons.
    rewrite (checkRange_refused _ _ _ _ _ Hc Hno). by apply IH.
Qed.

Lemma conditionCalls_allRefuse range a m m0 :
  allRefuse range a m0 ->
  conditionCalls range a m
  = map (fun ti => mkInvocation (mCurrentState m) (Condition ti a)) range.
Proof.
  revert m0. induction range as [|ti range IH]; intros m0; [done|].
  simpl allRefuse. unfold conditionCalls in *. simpl.
  destruct (checkCondition ti) as [cond|]; [|done].
  intros [_ Hrest]. f_equal. by eapply IH.
Qed.

Lemma checkRange_In range a m ti m1 :
  checkRange range a m = (Some ti, m1) -> In ti range.
Proof.
  revert m. induction range as [|e range IH]; intros m; simpl; [done|].
  destruct (checkCondition e) as [cond|].
  - destruct (cond _ _ _) as [[] w].
    + intros [= -> _]. by left.
    + intros H. right. by eapply IH.
  - intros [= -> _]. by left.
Qed.

(** Going up through states without an edge costs one iteration each. *)
Lemma findTransitionTargetFrom_bubble n fuel s anc ev a m :
  bubble n s ev m = Some anc ->
  findTransitionTargetFrom (n + fuel) s ev a m
  = findTransitionTargetFrom fuel anc ev a m.
Proof.
  revert s. induction n as [|n IH]; intros s; simpl.
  - by intros [= ->].
  - destruct (equal_range pair_lt (s, ev) (mTransitionsByEvent m)); [|done].
    destruct (getParentState s m) as [p|]; [|done].
    apply IH.
Qed.

Lemma findTransitionTargetFrom_edges fuel s ev a m :
  equal_range pair_lt (s, ev) (mTransitionsByEvent m) <> [] ->
  findTransitionTargetFrom (S fuel) s ev a m
  = Some (checkRange (equal_range pair_lt (s, ev) (mTransitionsByEvent m))
                     a m).
Proof.
  simpl. by destruct (equal_range pair_lt (s, ev) (mTransitionsByEvent m)).
Qed.


Lemma fuel_split (n fuel : nat) :
  (n < fuel)%nat -> fuel = (n + S (fuel - n - 1))%nat.
Proof. lia. Qed.


(** C10: when the state the walk stops at has edges for the event and the
    condition of every one of them refuses, the resolution ends there:
    nothing is found, whatever edges the states above have, only the
    conditions of these edges were asked, and doTransition returns
    DONE_FAILED without a state change. *)
Theorem refusing_guards_stop_the_search fuel n event m anc :
  entryPointTransition event = false ->
  bubble n (mCurrentState m) (type event) m = Some anc ->
  (n < fuel)%nat ->
  let edges :=
    equal_range pair_lt (anc, type event) (mTransitionsByEvent m) in
  edges <> [] ->
  allRefuse edges (args event) m ->
  let m1 := afterConditions edges (args event) m in
  findTransitionTarget fuel (type event) (args event) m = Some (None, m1)
  /\ doTransition fuel event m = Some (DONE_FAILED, m1)
  /\ mCurrentState m1 = mCurrentState m
  /\ trace m1
     = trace m
         ++ map (fun ti => mkInvocation (mCurrentState m)
                                        (Condition ti (args event))) edges.
Proof.
  intros Hnormal Hup Hfuel edges Hedges Hrefuse m1.
  assert (Hfind : findTransitionTarget fuel (type event) (args event) m
                  = Some (None, m1)).
  { unfold findTransitionTarget. rewrite (fuel_split n fuel Hfuel).
    rewrite (findTransitionTargetFrom_bubble _ _ _ _ _ _ _ Hup).
    rewrite (findTransitionTargetFrom_edges _ _ _ _ _ Hedges).
    fold edges. by rewrite (checkRange_allRefuse _ _ _ Hrefuse). }
  split; [exact Hfind|]. split; [|split].
  - unfold doTransition, resolveTransition. by rewrite Hnormal, Hfind.
  - apply onlyClient_state, afterConditions_client.
  - unfold m1. rewrite afterConditions_trace. f_equal.
    by eapply conditionCalls_allRefuse.
Qed.
End resolution_properties.

(** * Registration order and the choice among edges *)

Section registration_properties.
Context {W Variant : Type}.
Implicit Types (m : Hsm W Variant) (ti : TransitionInfo W Variant).
Implicit Types (event : PendingEventInfo Variant) (a : VariantList_t Variant).

Lemma registerTransition_range from to ev action cond m :
  ascending pair_lt (mTransitionsByEvent m) ->
  equal_range pair_lt (from, ev)
    (mTransitionsByEvent (registerTransition from to ev action cond m))
  = equal_range pair_lt (from, ev) (mTransitionsByEvent m)
      ++ [mkTransitionInfo to action cond].
Proof.
  intros Hasc. unfold registerTransition. simpl.
  by apply (equal_range_emplace pair_lt pair_lt_irrefl pair_lt_below).
Qed.

Lemma registerTransition_ascending from to ev action cond m :
  ascending pair_lt (mTransitionsByEvent m) ->
  ascending pair_lt
    (mTransitionsByEvent (registerTransition from to ev action cond m)).
Proof.
  intros Hasc. unfold registerTransition. simpl.
  by apply (ascending_emplace pair_lt pair_lt_irrefl pair_lt_trans).
Qed.

Lemma registerTransitions_range from ev es m :
  ascending pair_lt (mTransitionsByEvent m) ->
  equal_range pair_lt (from, ev)
    (mTransitionsByEvent (registerTransitions from ev es m))
  = equal_range pair_lt (from, ev) (mTransitionsByEvent m) ++ es.
Proof.
  revert m. induction es as [|ti es IH]; intros m Hasc; simpl.
  - by rewrite app_nil_r.
  - unfold registerTransitions in *. simpl.
    rewrite IH by by apply registerTransition_ascending.
    rewrite registerTransition_range by done.
    rewrite <- app_assoc. by destruct ti.
Qed.

Lemma registerTransitions_unchanged from ev es m :
  let m' := registerTransitions from ev es m in
  mCurrentState m' = mCurrentState m
  /\ trace m' = trace m
  /\ world m' = world m
  /\ mRegisteredStates m' = mRegisteredStates m.
Proof.
  revert m. induction es as [|ti es IH]; intros m; simpl; [done|].
  unfold registerTransitions in *. simpl.
  destruct (IH (registerTransition from (destinationState ti) ev
                  (onTransition ti) (checkCondition ti) m))
    as (H1 & H2 & H3 & H4).
  by rewrite H1, H2, H3, H4.
Qed.

Lemma applyTransition_segment ti event m :
  exists seg,
    trace (applyTransition ti event m).2 = trace m ++ seg
    /\ Forall (mayCall ti event m) seg.
Proof.
  set (src := mCurrentState m). set (dst := destinationState ti).
  assert (Hexit : Forall (mayCall ti event m) (exitingCalls src m)).
  { unfold exitingCalls.
    destruct (mRegisteredStates m !! src) as [[c e [x|]]|];
      repeat constructor. }
  assert (Hact : Forall (mayCall ti event m)
                        (transitionCalls ti (args event) m)).
  { unfold transitionCalls. destruct (onTransition ti); [|constructor].
    constructor; [|constructor]. right. by left. }
  assert (Henter : Forall (mayCall ti event m)
                          (enteringCalls dst (args event) m)).
  { unfold enteringCalls.
    destruct (mRegisteredStates m !! dst) as [[c [e|] x]|];
      try constructor; [|constructor]. right. right. by left. }
  assert (Hback : Forall (mayCall ti event m) (enteringCalls src [] m)).
  { unfold enteringCalls.
    destruct (mRegisteredStates m !! src) as [[c [e|] x]|];
      try constructor; [|constructor]. right. right. right. by left. }
  assert (Hsame : Forall (mayCall ti event m) (changedCalls src src [] m)).
  { unfold changedCalls.
    destruct (mRegisteredStates m !! src) as [[[c|] e x]|];
      try constructor; [|constructor]. do 4 right. by left. }
  assert (Hnew : Forall (mayCall ti event m)
                        (changedCalls dst dst (args event) m)).
  { unfold changedCalls.
    destruct (mRegisteredStates m !! dst) as [[[c|] e x]|];
      try constructor; [|constructor]. by do 5 right. }
  destruct (decide (src = dst)) as [Heq|Hne].
  - unfold applyTransition.
    rewrite (proj2 (Z.eqb_eq (mCurrentState m) (destinationState ti)) Heq).
    simpl. destruct (onTransition ti) as [f|] eqn:Hf; simpl.
    + exists (transitionCalls ti (args event) m).
      by rewrite callTransition_trace.
    + exists []. by rewrite app_nil_r.
  - destruct (applyTransition_moving_trace ti event m Hne) as (H1 & H2 & H3).
    fold src dst in H1, H2, H3.
    destruct (onStateExiting src m).1 eqn:Hex.
    + destruct (onStateEntering dst (args event)
                  (callTransition ti (args event)
                     (onStateExiting src m).2)).1 eqn:Hen.
      * eexists. split; [exact (H3 eq_refl eq_refl)|].
        by repeat (apply Forall_app; split).
      * eexists. split; [exact (H2 eq_refl eq_refl)|].
        repeat (apply Forall_app; split); try done.
        constructor; [|constructor]. right. right. by left.
    + eexists. split; [exact (H1 eq_refl)|].
      constructor; [|constructor]. by left.
Qed.

(** C7: after the edges [es] have been registered for one key, in the
    order of the list, the range of the key lists them in that order
    behind the edges it had; resolution takes the first edge of the range
    whose condition accepts or which has none, having asked the
    conditions of the edges before it and of no edge behind it; and the
    only action doTransition calls is the action of that edge. *)
Theorem first_accepting_edge_wins fuel event es pre e post m :
  ascending pair_lt (mTransitionsByEvent m) ->
  entryPointTransition event = false ->
  let key := (mCurrentState m, type event) in
  let m' := registerTransitions (mCurrentState m) (type event) es m in
  equal_range pair_lt key (mTransitionsByEvent m) ++ es
  = pre ++ e :: post ->
  allRefuse pre (args event) m' ->
  accepts e (args event) (afterConditions pre (args event) m') ->
  (0 < fuel)%nat ->
  let m1 :=
    afterCondition e (args event) (afterConditions pre (args event) m') in
  equal_range pair_lt key (mTransitionsByEvent m') = pre ++ e :: post
  /\ findTransitionTarget fuel (type event) (args event) m'
     = Some (Some e, m1)
  /\ trace m1 = trace m' ++ conditionCalls (pre ++ [e]) (args event) m'
  /\ exists status m2 calls,
       doTransition fuel event m' = Some (status, m2)
       /\ trace m2 = trace m1 ++ calls
       /\ Forall (fun i => forall ti a',
                    called i = Transition ti a' -> ti = e) calls.
Proof.
  intros Hasc Hnormal key m' Hrange Hpre He Hfuel m1.
  destruct (registerTransitions_unchanged (mCurrentState m) (type event)
              es m) as (Hcur & _).
  fold m' in Hcur.
  assert (Hkey : equal_range pair_lt key (mTransitionsByEvent m')
                 = pre ++ e :: post).
  { unfold m', key. by rewrite registerTransitions_range. }
  assert (Hfind : findTransitionTarget fuel (type event) (args event) m'
                  = Some (Some e, m1)).
  { destruct fuel as [|fuel]; [lia|].
    unfold findTransitionTarget. rewrite Hcur.
    rewrite findTransitionTargetFrom_edges; fold key; rewrite Hkey;
      [|by destruct pre].
    by rewrite (checkRange_first _ _ _ _ _ Hpre He). }
  split; [exact Hkey|]. split; [exact Hfind|]. split.
  - rewrite <- afterConditions_trace. by rewrite afterConditions_app.
  - destruct (applyTransition e event m1) as [status m2] eqn:Happ.
    destruct (applyTransition_segment e event m1) as (calls & Htr & Hcalls).
    rewrite Happ in Htr. simpl in Htr.
    exists status, m2, calls. split; [|split; [exact Htr|]].
    + unfold doTransition, resolveTransition.
      by rewrite Hnormal, Hfind, Happ.
    + eapply Forall_impl; [exact Hcalls|].
      intros i Hi ti a' Hcalled. unfold mayCall in Hi.
      destruct Hi as [->|[->|[->|[->|[->| ->]]]]]; simpl in Hcalled;
        try discriminate.
      by injection Hcalled as <- _.
Qed.
End registration_properties.

(** * Registration of states, release, and the queue *)

Section facade_properties.
Context {W Variant : Type}.
Implicit Types (m : Hsm W Variant) (cb : StateCallbacks W Variant).
Implicit Types (a : VariantList_t Variant).

Lemma registerState_lookup state cb m :
  mRegisteredStates
    (registerState state (onStateChanged cb) (onEntering cb) (onExiting cb)
                   m) !! state
  = if suppliesCallback cb then Some cb else mRegisteredStates m !! state.
Proof.
  unfold registerState, suppliesCallback.
  destruct (_ || _ || _); simpl; [|done].
  rewrite lookup_insert_eq. by destruct cb.
Qed.

(** C9, amended: registerState is idempotent, and after a sequence of
    registerState calls for one id the callbacks stored for the id are
    those of the most recent call that supplied at least one callback; a
    call that supplies none leaves the registry as it is. *)
Theorem last_supplying_registration_wins (state : Z)
  (calls : list (StateCallbacks W Variant)) c e x m :
  registerState state c e x (registerState state c e x m)
  = registerState state c e x m
  /\ mRegisteredStates (registerStates state calls m) !! state
     = match last (List.filter suppliesCallback calls) with
       | Some cb => Some cb
       | None => mRegisteredStates m !! state
       end.
Proof.
  split.
  - unfold registerState. destruct (_ || _ || _); [|done].
    unfold setRegisteredStates. simpl. by rewrite insert_insert_eq.
  - revert m. induction calls as [|cb calls IH]; intros m; [done|].
    unfold registerStates in *. simpl fold_left. rewrite IH.
    rewrite registerState_lookup. simpl List.filter.
    destruct (suppliesCallback cb); [|done].
    rewrite last_cons. by destruct (last _).
Qed.

Lemma onlyQueue_refl m : onlyQueue m m.
Proof. by destruct m. Qed.

Lemma onlyQueue_trans m1 m2 m3 :
  onlyQueue m1 m2 -> onlyQueue m2 m3 -> onlyQueue m1 m3.
Proof. unfold onlyQueue. intros H12 H23. rewrite H23, H12. reflexivity. Qed.

Lemma unlock_queue status (ev : PendingEventInfo Variant) m :
  onlyQueue m (unlock status ev m).
Proof.
  unfold unlock. destruct (isSync ev); [|apply onlyQueue_refl].
  destruct (transitionStatus ev); [|apply onlyQueue_refl].
  by destruct m.
Qed.

Lemma releaseLocks_queue (q : list (PendingEventInfo Variant)) m :
  onlyQueue m (releaseLocks q m).2.
Proof.
  revert m. induction q as [|ev q IH]; intros m; simpl.
  - apply onlyQueue_refl.
  - destruct (negb (entryPointTransition ev)); simpl.
    + unfold releaseLock. destruct (isSync ev); simpl.
      * specialize (IH (unlock DONE_FAILED ev m)).
        destruct (releaseLocks q _) as [q1 m2]. simpl in *.
        eapply onlyQueue_trans; [apply unlock_queue | exact IH].
      * specialize (IH m). by destruct (releaseLocks q m).
    + specialize (IH m). by destruct (releaseLocks q m).
Qed.

Lemma clearPendingEvents_queue m : onlyQueue m (clearPendingEvents m).
Proof.
  unfold clearPendingEvents.
  pose proof (releaseLocks_queue (mPendingEvents m) m) as H.
  destruct (releaseLocks _ m) as [q m1]. simpl in *.
  unfold onlyQueue in *. rewrite H. reflexivity.
Qed.

(** The queue is empty after [clearPendingEvents], whatever it held. *)
Lemma clearPendingEvents_empty m : mPendingEvents (clearPendingEvents m) = [].
Proof.
  unfold clearPendingEvents. by destruct (releaseLocks _ m).
Qed.

(** What [releaseLock] does to the status slots: nothing, or one slot is set
    to DONE_FAILED. *)
Lemma releaseLock_heap (ev : PendingEventInfo Variant) m :
  heap (releaseLock ev m).2 = heap m
  \/ exists l, heap (releaseLock ev m).2 = <[l := DONE_FAILED]> (heap m).
Proof.
  unfold releaseLock, unlock. destruct (isSync ev); simpl; [|by left].
  destruct (transitionStatus ev) as [l|]; [|by left]. right. by exists l.
Qed.

Lemma releaseLocks_keeps_failed (q : list (PendingEventInfo Variant)) m l :
  heap m !! l = Some DONE_FAILED ->
  heap (releaseLocks q m).2 !! l = Some DONE_FAILED.
Proof.
  revert m. induction q as [|ev q IH]; intros m Hl; simpl; [done|].
  set (step := if negb (entryPointTransition ev) then releaseLock ev m
               else (ev, m)).
  assert (Hstep : heap step.2 !! l = Some DONE_FAILED).
  { unfold step. destruct (negb (entryPointTransition ev)); [|done].
    destruct (releaseLock_heap ev m) as [->|[l' ->]]; [done|].
    destruct (decide (l' = l)) as [->|Hne].
    - apply list_lookup_insert_eq. by eapply lookup_lt_Some.
    - by rewrite list_lookup_insert_ne. }
  destruct step as [e1 m1]. simpl in Hstep.
  specialize (IH m1 Hstep). by destruct (releaseLocks q m1).
Qed.

(** Every normal event of the queue that has a completion object has it
    set to DONE_FAILED by [clearPendingEvents]. *)
Lemma clearPendingEvents_signals_failed m (ev : PendingEventInfo Variant) l :
  In ev (mPendingEvents m) ->
  entryPointTransition ev = false ->
  isSync ev = true ->
  transitionStatus ev = Some l ->
  (l < length (heap m))%nat ->
  heap (clearPendingEvents m) !! l = Some DONE_FAILED.
Proof.
  intros Hin Hnormal Hsync Hslot Hl.
  assert (Hheap : heap (clearPendingEvents m)
                  = heap (releaseLocks (mPendingEvents m) m).2).
  { unfold clearPendingEvents. by destruct (releaseLocks _ m). }
  rewrite Hheap. clear Hheap.
  generalize dependent m. intros m.
  generalize (mPendingEvents m) as q. intros q. revert m.
  induction q as [|e0 q IH]; intros m Hin Hl; [done|].
  simpl. destruct Hin as [->|Hin].
  - rewrite Hnormal. simpl.
    assert (Hset : heap (releaseLock ev m).2 !! l = Some DONE_FAILED).
    { unfold releaseLock, unlock. rewrite Hsync, Hslot. simpl.
      by apply list_lookup_insert_eq. }
    destruct (releaseLock ev m) as [e1 m1]. simpl in Hset.
    pose proof (releaseLocks_keeps_failed q m1 l Hset) as Hkeep.
    by destruct (releaseLocks q m1).
  - set (step := if negb (entryPointTransition e0) then releaseLock e0 m
                 else (e0, m)).
    assert (Hlen : (l < length (heap step.2))%nat).
    { unfold step. destruct (negb (entryPointTransition e0)); [|done].
      destruct (releaseLock_heap e0 m) as [->|[l' ->]]; [done|].
      by rewrite length_insert. }
    destruct step as [e1 m1]. simpl in Hlen.
    specialize (IH m1 Hin Hlen). by destruct (releaseLocks q m1).
Qed.

Lemma initLock_queue (ev : PendingEventInfo Variant) m :
  onlyQueue m (initLock ev m).2
  /\ mPendingEvents (initLock ev m).2 = mPendingEvents m
  /\ type (initLock ev m).1 = type ev
  /\ args (initLock ev m).1 = args ev
  /\ entryPointTransition (initLock ev m).1 = entryPointTransition ev.
Proof.
  unfold initLock. destruct (cvLock ev); simpl;
    repeat split; try apply onlyQueue_refl.
Qed.

(** C6, amended: after release() no event is dispatched, since
    dispatchEvents returns at once and changes nothing.  A post is not
    turned away: transitionEx appends the event to the queue, leaves
    mCurrentState and the client alone, and then uses the dispatcher
    reference that release() has reset, so the call returns no value. *)
Theorem after_release_nothing_is_dispatched (invalid : Z) m0 fuel
  ev clearQueue sync timeoutMs a :
  let m := release invalid m0 in
  dispatchEvents fuel m = Some (Returned tt m)
  /\ exists m' eventInfo,
       transitionEx ev clearQueue sync timeoutMs a m = NullDispatcher m'
       /\ mPendingEvents m'
          = (if clearQueue then [] else mPendingEvents m) ++ [eventInfo]
       /\ type eventInfo = ev
       /\ args eventInfo = a
       /\ entryPointTransition eventInfo = false
       /\ mCurrentState m' = mCurrentState m
       /\ world m' = world m
       /\ trace m' = trace m.
Proof.
  intros m.
  assert (Hstop : mStopDispatching m = true).
  { unfold m, release. simpl. by destruct (mDispatcher m0). }
  assert (Hnull : mDispatcher m = None).
  { unfold m, release. simpl. by destruct (mDispatcher m0) eqn:Hd. }
  split; [unfold dispatchEvents; by rewrite Hstop|].
  unfold transitionEx.
  set (ev0 := mkPendingEventInfo false ev a None None None).
  destruct (initLock_queue ev0 m) as (Hq1 & Hq1' & Hty & Har & Hep).
  set (locked := if sync then initLock ev0 m else (ev0, m)).
  assert (Hl : onlyQueue m locked.2
               /\ mPendingEvents locked.2 = mPendingEvents m
               /\ type locked.1 = ev /\ args locked.1 = a
               /\ entryPointTransition locked.1 = false).
  { unfold locked. destruct sync; [done|].
    repeat split. apply onlyQueue_refl. }
  destruct locked as [eventInfo m1]. simpl in Hl.
  destruct Hl as (Hq & Hqq & Hty' & Har' & Hep').
  set (m2 := if clearQueue then clearPendingEvents m1 else m1).
  assert (Hq2 : onlyQueue m m2).
  { unfold m2. destruct clearQueue; [|done].
    eapply onlyQueue_trans; [exact Hq | apply clearPendingEvents_queue]. }
  assert (Hp2 : mPendingEvents m2
                = if clearQueue then [] else mPendingEvents m).
  { unfold m2. destruct clearQueue; [apply clearPendingEvents_empty|done]. }
  unfold dispatcherEmitEvent. simpl.
  replace (mDispatcher m2) with (mDispatcher m)
    by (rewrite Hq2; reflexivity).
  rewrite Hnull.
  eexists _, eventInfo. split; [reflexivity|]. simpl.
  rewrite Hp2. repeat split; try done; by rewrite Hq2.
Qed.
End facade_properties.

(** * The scenarios, run *)

Section scenarios.
Import Scenario MoreScenarios.


Lemma callbacks_fire_in_order_witness :
  (resolveTransition 1 (normal e [5%Z]) (journalled true true)
   = Some (Some edgeNoted, journalled true true)
   /\ mCurrentState (journalled true true) <> destinationState edgeNoted
   /\ exists status m2,
        doTransition 1 (normal e [5%Z]) (journalled true true)
        = Some (status, m2)
        /\ status <> DONE_FAILED
        /\ mCurrentState m2 = B
        /\ world m2 = [(1, 0); (2, 1); (3, 1); (4, 1)]%nat
        /\ trace m2
           = [mkInvocation A (Exiting A);
              mkInvocation A (Transition edgeNoted [5%Z]);
              mkInvocation A (Entering B [5%Z]);
              mkInvocation B (StateChanged B [5%Z])])
  /\ (exists status m2,
        doTransition 1 (normal e [5%Z]) (journalled false true)
        = Some (status, m2)
        /\ status = DONE_FAILED
        /\ world m2 = [(1, 0)]%nat
        /\ trace m2 = [mkInvocation A (Exiting A)])
  /\ (exists status m2,
        doTransition 1 (normal e [5%Z]) (journalled true false)
        = Some (status, m2)
        /\ status = DONE_FAILED
        /\ world m2 = [(1, 0); (2, 1); (3, 1); (5, 0); (6, 0)]%nat).
Proof.
  split; [|split].
  - split; [reflexivity|]. split; [discriminate|].
    destruct (callbacks_fire_in_order 1 (normal e [5%Z])
                (journalled true true) edgeNoted (journalled true true)
                eq_refl ltac:(discriminate))
      as (status & m2 & Hdo & _ & _ & Hboth).
    exists status, m2. split; [exact Hdo|].
    exact (Hboth eq_refl eq_refl).
  - destruct (callbacks_fire_in_order 1 (normal e [5%Z])
                (journalled false true) edgeNoted (journalled false true)
                eq_refl ltac:(discriminate))
      as (status & m2 & Hdo & Hexit & _ & _).
    exists status, m2. split; [exact Hdo|].
    exact (Hexit eq_refl).
  - destruct (callbacks_fire_in_order 1 (normal e [5%Z])
                (journalled true false) edgeNoted (journalled true false)
                eq_refl ltac:(discriminate))
      as (status & m2 & Hdo & _ & Henter & _).
    exists status, m2. split; [exact Hdo|].
    destruct (Henter eq_refl eq_refl) as (Hs & Hw & _).
    split; [exact Hs | exact Hw].
Defined.

Lemma enter_refusal_rolls_back_witness :
  resolveTransition 1 (normal e [5%Z]) (journalled true false)
  = Some (Some edgeNoted, journalled true false)
  /\ mCurrentState (journalled true false) <> destinationState edgeNoted
  /\ (exitingAnswer (journalled true false) A A []).1 = true
  /\ (enteringAnswer (journalled true false) B A [5%Z]
        [(1, 0); (2, 1)]%nat).1 = false
  /\ exists m2,
       doTransition 1 (normal e [5%Z]) (journalled true false)
       = Some (DONE_FAILED, m2)
       /\ mCurrentState m2 = A
       /\ world m2 = [(1, 0); (2, 1); (3, 1); (5, 0); (6, 0)]%nat
       /\ trace m2
          = [mkInvocation A (Exiting A);
             mkInvocation A (Transition edgeNoted [5%Z]);
             mkInvocation A (Entering B [5%Z]);
             mkInvocation A (Entering A []);
             mkInvocation A (StateChanged A [])].
Proof.
  split; [reflexivity|]. split; [discriminate|].
  split; [reflexivity|]. split; [reflexivity|].
  destruct (enter_refusal_rolls_back 1 (normal e [5%Z])
              (journalled true false) edgeNoted (journalled true false)
              eq_refl ltac:(discriminate) eq_refl eq_refl)
    as (m2 & Hdo & Hcur & Hw & Htrace & _).
  exists m2. split; [exact Hdo|]. split; [exact Hcur|].
  split; [exact Hw | exact Htrace].
Defined.

(** C5 as stated fails on the flat machine: onEntering of B runs while
    mCurrentState is still A. *)
Lemma entering_sees_the_source_state :
  ~ currentStateAsStated 1 (normal e []) flat.
Proof.
  intros Hclaim.
  specialize (Hclaim edgeAB flat DONE_OK
                (applyTransition edgeAB (normal e []) flat).2
                eq_refl eq_refl).
  vm_compute in Hclaim.
  apply Forall_cons_1 in Hclaim as [_ Hclaim].
  apply Forall_cons_1 in Hclaim as [_ Hclaim].
  apply Forall_cons_1 in Hclaim as [Hentering _].
  specialize (Hentering eq_refl). discriminate.
Qed.

Lemma currentState_advances_after_entering_witness :
  resolveTransition 1 (normal e []) flat = Some (Some edgeAB, flat)
  /\ doTransition 1 (normal e []) flat
     = Some (DONE_OK, (applyTransition edgeAB (normal e []) flat).2)
  /\ Forall (seenInCode A B)
            [mkInvocation A (Exiting A);
             mkInvocation A (Transition edgeAB []);
             mkInvocation A (Entering B []);
             mkInvocation B (StateChanged B [])].
Proof.
  split; [reflexivity|]. split; [reflexivity|].
  exact (currentState_advances_after_entering 1 (normal e []) flat edgeAB
           flat DONE_OK (applyTransition edgeAB (normal e []) flat).2
           eq_refl eq_refl).
Defined.

Lemma self_transition_is_action_only_witness :
  resolveTransition 1 (normal x [7%Z]) loop = Some (Some toSelf, loop)
  /\ destinationState toSelf = mCurrentState loop
  /\ doTransition 1 (normal x [7%Z]) loop
     = Some (DONE_OK,
             withClient 1%nat [mkInvocation A (Transition toSelf [7%Z])]
                        loop).
Proof.
  split; [reflexivity|]. split; [reflexivity|].
  exact (self_transition_is_action_only 1 (normal x [7%Z]) loop toSelf loop
           eq_refl eq_refl).
Defined.

Lemma refusing_guards_stop_the_search_witness :
  entryPointTransition (normal x []) = false
  /\ bubble 0 (mCurrentState nestedRefusing) x nestedRefusing = Some C1
  /\ (0 < 1)%nat
  /\ equal_range pair_lt (C1, x) (mTransitionsByEvent nestedRefusing)
     = [refused]
  /\ allRefuse [refused] [] nestedRefusing
  /\ getParentState C1 nestedRefusing = Some P
  /\ equal_range pair_lt (P, x) (mTransitionsByEvent nestedRefusing)
     = [edgePA]
  /\ accepts edgePA [] nestedRefusing
  /\ doTransition 1 (normal x []) nestedRefusing
     = Some (DONE_FAILED, afterConditions [refused] [] nestedRefusing)
  /\ mCurrentState (afterConditions [refused] [] nestedRefusing) = C1
  /\ trace (afterConditions [refused] [] nestedRefusing)
     = [mkInvocation C1 (Condition refused [])].
Proof.
  split; [reflexivity|]. split; [reflexivity|]. split; [lia|].
  split; [reflexivity|]. split; [by split|]. split; [reflexivity|].
  split; [reflexivity|]. split; [exact I|].
  destruct (refusing_guards_stop_the_search 1 0 (normal x [])
              nestedRefusing C1 eq_refl eq_refl ltac:(lia)
              ltac:(discriminate) (conj eq_refl I))
    as (_ & Hdo & Hcur & Htrace).
  split; [exact Hdo|]. split; [exact Hcur | exact Htrace].
Defined.

Lemma first_accepting_edge_wins_witness :
  ascending pair_lt (mTransitionsByEvent (machine A))
  /\ allRefuse [toB] [0%Z]
       (registerTransitions A e [toB; toC] (machine A))
  /\ accepts toC [0%Z]
       (afterConditions [toB] [0%Z]
          (registerTransitions A e [toB; toC] (machine A)))
  /\ (0 < 1)%nat
  /\ equal_range pair_lt (A, e)
       (mTransitionsByEvent (registerTransitions A e [toB; toC] (machine A)))
     = [toB; toC]
  /\ exists m1,
       findTransitionTarget 1 e [0%Z]
         (registerTransitions A e [toB; toC] (machine A))
       = Some (Some toC, m1)
       /\ trace m1 = [mkInvocation A (Condition toB [0%Z])].
Proof.
  split; [exact I|]. split; [by split|]. split; [exact I|]. split; [lia|].
  destruct (first_accepting_edge_wins 1 (normal e [0%Z]) [toB; toC] [toB]
              toC [] (machine A) I eq_refl eq_refl (conj eq_refl I) I
              ltac:(lia))
    as (Hrange & Hfind & Htrace & _).
  split; [exact Hrange|]. eexists. split; [exact Hfind | exact Htrace].
Defined.

(** C6 as stated fails on a machine that was bound and released: the post
    does not return. *)
Lemma post_after_release_does_not_return :
  ~ postAfterReleaseIsNoop INVALID bound.
Proof.
  intros Hclaim.
  destruct (Hclaim e false true 0%Z []) as (r & m' & Hpost & _).
  vm_compute in Hpost. discriminate.
Qed.

(** C9 as stated fails when the most recent call supplies no callback:
    the callbacks of the call before it stay. *)
Lemma registration_without_callbacks_is_ignored :
  ~ lastRegistrationWinsAsStated A
      [mkStateCallbacks (Some changed) None None;
       mkStateCallbacks None None None]
      (machine A).
Proof.
  intros Hclaim. specialize (Hclaim _ eq_refl).
  vm_compute in Hclaim. discriminate.
Qed.

(** C4, the code at a failing input: the machine has entered the
    composite state P and the entry-point event of the synchronous e
    heads the queue, followed by a synchronous x.
    transitionWithQueueClear then empties the queue of both: the
    completion object of x is set to DONE_FAILED, the entry-point event
    is gone with its completion object still PENDING, and after the next
    turn of the dispatcher the machine is still in P, not in the entry
    point C1. *)
Theorem queue_clear_drops_entry_point_event :
  let cleared := posted (transitionWithQueueClear e [] drilling) bound in
  mCurrentState drilling = P
  /\ getEntryPoint P drilling = Some C1
  /\ mPendingEvents drilling
     = [mkPendingEventInfo true (-1) [] (Some 0%nat) (Some 0%nat)
                           (Some 0%nat);
        mkPendingEventInfo false x [] (Some 1%nat) (Some 1%nat)
                           (Some 1%nat)]
  /\ heap drilling = [PENDING; PENDING]
  /\ mPendingEvents cleared = [normal e []]
  /\ heap cleared = [PENDING; DONE_FAILED]
  /\ mCurrentState (dispatched (dispatchEvents 1 cleared) bound) = P
  /\ mPendingEvents (dispatched (dispatchEvents 1 cleared) bound) = [].
Proof. vm_compute. repeat split. Qed.
End scenarios.


(** * Further properties: resolution and doTransition *)

Section more_transition_properties.
Context {W Variant : Type}.
Implicit Types (m : Hsm W Variant) (ti : TransitionInfo W Variant).
Implicit Types (event : PendingEventInfo Variant) (a : VariantList_t Variant).
Implicit Types (range : list (TransitionInfo W Variant)).

Lemma onlyClient_untouched m m' : onlyClient m m' -> untouched m m'.
Proof. intros ->. by repeat split. Qed.

Lemma untouched_refl m : untouched m m.
Proof. by repeat split. Qed.

Lemma untouched_trans m1 m2 m3 :
  untouched m1 m2 -> untouched m2 m3 -> untouched m1 m3.
Proof.
  unfold untouched. intros (A1&A2&A3&A4&A5&A6&A7&A8) (B1&B2&B3&B4&B5&B6&B7&B8).
  repeat split; congruence.
Qed.

Lemma checkRange_client range a m : onlyClient m (checkRange range a m).2.
Proof.
  revert m. induction range as [|ti range IH]; intros m; simpl.
  - apply onlyClient_refl.
  - destruct (checkCondition ti) as [cond|]; [|apply onlyClient_refl].
    destruct (cond _ _ _) as [[] w]; simpl.
    + apply onlyClient_withClient.
    + eapply onlyClient_trans; [|apply IH]. apply onlyClient_withClient.
Qed.

Lemma findTransitionTargetFrom_client fuel s ev a m found m1 :
  findTransitionTargetFrom fuel s ev a m = Some (found, m1) ->
  onlyClient m m1.
Proof.
  revert s. induction fuel as [|fuel IH]; intros s;
    cbn [findTransitionTargetFrom]; [done|].
  destruct (equal_range pair_lt (s, ev) (mTransitionsByEvent m)) as [|ti range].
  - destruct (getParentState s m) as [p|]; [apply IH|].
    intros [= _ <-]. apply onlyClient_refl.
  - intros H. pose proof (checkRange_client (ti :: range) a m) as Hc.
    destruct (checkRange (ti :: range) a m) as [f' m']. simpl in Hc.
    by injection H as _ <-.
Qed.

Lemma resolveTransition_client fuel event m found m1 :
  resolveTransition fuel event m = Some (found, m1) -> onlyClient m m1.
Proof.
  unfold resolveTransition. destruct (entryPointTransition event).
  - intros [= _ <-]. apply onlyClient_refl.
  - apply findTransitionTargetFrom_client.
Qed.

Lemma equal_range_In (k : Z * Z) (v : TransitionInfo W Variant)
  (l : list ((Z * Z) * TransitionInfo W Variant)) :
  In v (equal_range pair_lt k l) -> In (k, v) l.
Proof.
  induction l as [|[k1 v1] l IH]; simpl; [done|].
  destruct (equiv pair_lt k k1) eqn:Hk.
  - apply pair_equiv_eq in Hk as <-. intros [->|Hin]; [by left|].
    right. by apply IH.
  - intros Hin. right. by apply IH.
Qed.

Lemma findTransitionTargetFrom_sound fuel s ev a m ti m1 :
  findTransitionTargetFrom fuel s ev a m = Some (Some ti, m1) ->
  (exists n anc, bubble n s ev m = Some anc
                 /\ In ((anc, ev), ti) (mTransitionsByEvent m))
  /\ onlyClient m m1
  /\ mCurrentState m1 = mCurrentState m
  /\ mPendingEvents m1 = mPendingEvents m.
Proof.
  intros Hfind. split; [|split; [|split]].
  - revert s Hfind. induction fuel as [|fuel IH]; intros s;
      cbn [findTransitionTargetFrom]; [done|].
    destruct (equal_range pair_lt (s, ev) (mTransitionsByEvent m))
      as [|e range] eqn:Hrange.
    + destruct (getParentState s m) as [p|] eqn:Hp; [|done].
      intros Hfind. destruct (IH p Hfind) as (n & anc & Hup & Hin).
      exists (S n), anc. simpl. by rewrite Hrange, Hp.
    + intros [= Hsel]. exists 0%nat, s. split; [done|].
      apply equal_range_In. rewrite Hrange. by eapply checkRange_In.
  - by eapply findTransitionTargetFrom_client.
  - eapply onlyClient_state. by eapply findTransitionTargetFrom_client.
  - eapply onlyClient_queue. by eapply findTransitionTargetFrom_client.
Qed.

(** X1: whatever findTransitionTarget finds is an edge that was registered
    for the event, on the state the search started from or on a state
    reached from it by getParentState; and the search changes nothing of
    the machine but what the conditions it asked did to the client. *)
Theorem found_edge_is_registered fuel s ev a m ti m1 :
  findTransitionTargetFrom fuel s ev a m = Some (Some ti, m1) ->
  (exists n anc, bubble n s ev m = Some anc
                 /\ In ((anc, ev), ti) (mTransitionsByEvent m))
  /\ onlyClient m m1
  /\ mCurrentState m1 = mCurrentState m
  /\ mPendingEvents m1 = mPendingEvents m.
Proof. exact (findTransitionTargetFrom_sound fuel s ev a m ti m1). Qed.


Lemma untouched_setCurrentState s m : untouched m (setCurrentState s m).
Proof. by repeat split. Qed.

Lemma untouched_setPendingEvents q m : untouched m (setPendingEvents q m).
Proof. by repeat split. Qed.

(** What one pass through the body of [doTransition] does to the machine,
    by the status it returns. *)
Lemma applyTransition_frame ti event m :
  let r := applyTransition ti event m in
  untouched m r.2
  /\ match r.1 with
     | DONE_FAILED =>
         mCurrentState r.2 = mCurrentState m
         /\ mPendingEvents r.2 = mPendingEvents m
     | DONE_OK =>
         (mCurrentState r.2 = destinationState ti)
         /\ mPendingEvents r.2 = mPendingEvents m
     | PENDING =>
         mCurrentState r.2 = destinationState ti
         /\ mCurrentState m <> destinationState ti
         /\ is_Some (getEntryPoint (destinationState ti) m)
         /\ mPendingEvents r.2
            = entryPointTransitionEvent event :: mPendingEvents m
     end.
Proof.
  intros r. unfold r. clear r.
  destruct (decide (mCurrentState m = destinationState ti)) as [Heq|Hne].
  - unfold applyTransition.
    rewrite (proj2 (Z.eqb_eq _ _) Heq). simpl.
    destruct (onTransition ti) as [f|] eqn:Hf; simpl.
    + pose proof (callTransition_client ti (args event) m) as Hc.
      split; [by apply onlyClient_untouched|].
      by rewrite (onlyClient_state _ _ Hc), (onlyClient_queue _ _ Hc).
    + split; [apply untouched_refl | done].
  - rewrite (applyTransition_moving ti event m Hne).
    set (src := mCurrentState m). set (dst := destinationState ti).
    set (exit := onStateExiting src m).
    set (enter := onStateEntering dst (args event)
                    (callTransition ti (args event) exit.2)).
    assert (HcE : onlyClient m exit.2) by apply onStateExiting_client.
    assert (HcN : onlyClient m enter.2).
    { eapply onlyClient_trans; [exact HcE|].
      eapply onlyClient_trans;
        [apply callTransition_client | apply onStateEntering_client]. }
    destruct exit.1.
    + destruct enter.1.
      * set (settled := onStateChanged_ dst (args event)
                          (setCurrentState dst enter.2)).
        assert (Hu : untouched m settled).
        { eapply untouched_trans; [apply (onlyClient_untouched _ _ HcN)|].
          eapply untouched_trans; [apply untouched_setCurrentState|].
          apply onlyClient_untouched, onStateChanged_client. }
        assert (Hcur : mCurrentState settled = dst).
        { unfold settled.
          by rewrite (onlyClient_state _ _ (onStateChanged_client _ _ _)). }
        assert (Hq : mPendingEvents settled = mPendingEvents m).
        { unfold settled.
          rewrite (onlyClient_queue _ _ (onStateChanged_client _ _ _)).
          simpl. by rewrite (onlyClient_queue _ _ HcN). }
        assert (Hep : getEntryPoint dst settled = getEntryPoint dst m).
        { unfold getEntryPoint. by destruct Hu as (_&_&_&->&_). }
        destruct (getEntryPoint dst settled) as [ep|] eqn:Hentry; simpl.
        -- split; [|by rewrite <- Hep, Hq].
           eapply untouched_trans; [exact Hu|].
           apply untouched_setPendingEvents.
        -- done.
      * simpl.
        pose proof (onStateEntering_client src [] enter.2) as HcR.
        pose proof (onStateChanged_client src []
                      (onStateEntering src [] enter.2).2) as HcS.
        pose proof (onlyClient_trans _ _ _ HcN
                      (onlyClient_trans _ _ _ HcR HcS)) as Hall.
        split; [by apply onlyClient_untouched|].
        by rewrite (onlyClient_state _ _ Hall), (onlyClient_queue _ _ Hall).
    + simpl. split; [by apply onlyClient_untouched|].
      by rewrite (onlyClient_state _ _ HcE), (onlyClient_queue _ _ HcE).
Qed.


(** X3: the state doTransition leaves the machine in is the state it was
    in, or, for an entry-point event, the entry point of that state, or, for
    any other event, the destination of an edge registered for the event on
    that state or on a state reached from it by getParentState. *)
Theorem currentState_moves_along_the_topology fuel event m status m1 :
  doTransition fuel event m = Some (status, m1) ->
  mCurrentState m1 = mCurrentState m
  \/ (entryPointTransition event = true
      /\ getEntryPoint (mCurrentState m) m = Some (mCurrentState m1))
  \/ (entryPointTransition event = false
      /\ exists n anc ti,
           bubble n (mCurrentState m) (type event) m = Some anc
           /\ In ((anc, type event), ti) (mTransitionsByEvent m)
           /\ destinationState ti = mCurrentState m1).
Proof.
  unfold doTransition.
  destruct (resolveTransition fuel event m) as [[[ti|] m0]|] eqn:Hres; [| |done].
  - pose proof (resolveTransition_client _ _ _ _ _ Hres) as Hc.
    destruct (applyTransition_frame ti event m0) as [_ Hst].
    intros [= Happ]. rewrite Happ in Hst. simpl in Hst.
    rewrite (onlyClient_state _ _ Hc) in Hst.
    assert (Hdst : status = DONE_FAILED
                   \/ mCurrentState m1 = destinationState ti).
    { destruct status; [right|right|left]; by destruct Hst. }
    destruct Hdst as [->|Hdst]; [left; by destruct Hst|].
    right. unfold resolveTransition in Hres.
    destruct (entryPointTransition event) eqn:Hentry.
    + left. split; [done|].
      destruct (getEntryPoint (mCurrentState m) m) as [ep|]; [|done].
      injection Hres as <- _. by rewrite Hdst.
    + right. split; [done|].
      destruct (findTransitionTargetFrom_sound _ _ _ _ _ _ _ Hres)
        as ((n & anc & Hup & Hin) & _).
      by exists n, anc, ti.
  - intros [= _ <-]. left.
    by rewrite (onlyClient_state _ _ (resolveTransition_client _ _ _ _ _ Hres)).
Qed.
End more_transition_properties.

(** * Further properties: the dispatcher turn and posting *)

Section dispatch_properties.
Context {W Variant : Type}.
Implicit Types (m : Hsm W Variant) (ti : TransitionInfo W Variant).
Implicit Types (event : PendingEventInfo Variant) (a : VariantList_t Variant).



(** X5: on a machine that holds a dispatcher every post gets past
    emitEvent: by then the event is the last of the queue, behind the
    events that were there, or alone when the queue was to be cleared; one
    wake-up is requested; the current state, the client and the log are as
    before.  An asynchronous post returns true there.  A synchronous post
    begins to wait on the event there; whether it returns, and with what,
    is not settled by the post. *)
Theorem a_post_appends_the_event_and_wakes ev clearQueue sync timeoutMs a m d :
  mDispatcher m = Some d ->
  exists r m1 eventInfo,
    transitionEx ev clearQueue sync timeoutMs a m = Returned r m1
    /\ mPendingEvents m1
       = (if clearQueue then [] else mPendingEvents m) ++ [eventInfo]
    /\ type eventInfo = ev
    /\ args eventInfo = a
    /\ entryPointTransition eventInfo = false
    /\ isSync eventInfo = sync
    /\ r = (if sync then Waiting eventInfo else Answered true)
    /\ mDispatcher m1 = Some (emitEvent d)
    /\ mCurrentState m1 = mCurrentState m
    /\ mStopDispatching m1 = mStopDispatching m
    /\ world m1 = world m
    /\ trace m1 = trace m.
Proof.
  intros Hd. unfold transitionEx.
  set (ev0 := mkPendingEventInfo false ev a None None None).
  destruct (initLock_queue ev0 m) as (Hq1 & Hq1' & Hty & Har & Hep).
  set (locked := if sync then initLock ev0 m else (ev0, m)).
  assert (Hl : onlyQueue m locked.2
               /\ mPendingEvents locked.2 = mPendingEvents m
               /\ type locked.1 = ev /\ args locked.1 = a
               /\ entryPointTransition locked.1 = false
               /\ isSync locked.1 = sync).
  { unfold locked. destruct sync.
    - split; [exact Hq1|]. split; [exact Hq1'|]. repeat split.
    - split; [apply onlyQueue_refl|]. repeat split. }
  destruct locked as [eventInfo m1]. simpl in Hl.
  destruct Hl as (Hq & Hqq & Hty' & Har' & Hep' & Hsync).
  set (m2 := if clearQueue then clearPendingEvents m1 else m1).
  assert (Hq2 : onlyQueue m m2).
  { unfold m2. destruct clearQueue; [|exact Hq].
    eapply onlyQueue_trans; [exact Hq | apply clearPendingEvents_queue]. }
  assert (Hp2 : mPendingEvents m2
                = if clearQueue then [] else mPendingEvents m).
  { unfold m2. destruct clearQueue; [apply clearPendingEvents_empty|done]. }
  unfold dispatcherEmitEvent. simpl.
  replace (mDispatcher m2) with (mDispatcher m)
    by (rewrite Hq2; reflexivity).
  rewrite Hd.
  exists (if sync then Waiting eventInfo else Answered true).
  eexists _, eventInfo. split; [by destruct sync|]. simpl.
  rewrite Hp2. repeat split; try done; by rewrite Hq2.
Qed.


(** X7: release() done twice is release() done once, and release() sets
    the stop flag, lets go of the dispatcher and touches nothing else: the
    topology, the current state, the queue with its events and the
    completion objects stay. *)
Theorem release_is_idempotent (invalid : Z) m :
  release invalid (release invalid m) = release invalid m
  /\ mStopDispatching (release invalid m) = true
  /\ mDispatcher (release invalid m) = None
  /\ mCurrentState (release invalid m) = mCurrentState m
  /\ mPendingEvents (release invalid m) = mPendingEvents m
  /\ heap (release invalid m) = heap m
  /\ mTransitionsByEvent (release invalid m) = mTransitionsByEvent m
  /\ mRegisteredStates (release invalid m) = mRegisteredStates m
  /\ mSubstates (release invalid m) = mSubstates m
  /\ mSubstateEntryPoint (release invalid m) = mSubstateEntryPoint m.
Proof.
  unfold release. simpl. destruct (mDispatcher m) eqn:Hd; simpl.
  - by repeat split.
  - rewrite Hd. by repeat split.
Qed.

(** X8: initialize answers true exactly when it was given a dispatcher,
    start() of that dispatcher answered true and the handler id it handed
    out is not the invalid id.  Without a dispatcher, or when start()
    answers false, the machine is left as it was; when only the handler id
    is invalid, the answer is false but the machine keeps the dispatcher. *)
Theorem initialize_needs_a_started_dispatcher (invalid : Z) dispatcher m :
  ((initialize invalid dispatcher m).1 = true
   <-> exists d, dispatcher = Some d /\ startResult d = true
                 /\ nextHandlerID d <> invalid)
  /\ ((dispatcher = None
       \/ exists d, dispatcher = Some d /\ startResult d = false) ->
      initialize invalid dispatcher m = (false, m))
  /\ (forall d, dispatcher = Some d -> startResult d = true ->
      mDispatcher (initialize invalid dispatcher m).2
      = Some (registerEventHandler d).2
      /\ mDispatcherHandlerId (initialize invalid dispatcher m).2
         = nextHandlerID d).
Proof.
  split; [|split].
  - unfold initialize, start. destruct dispatcher as [d|]; simpl.
    + destruct (startResult d) eqn:Hs; simpl.
      * rewrite negb_true_iff, Z.eqb_neq. split.
        -- intros Hne. exists d. by repeat split.
        -- intros (d' & [= <-] & _ & Hne). done.
      * split; [done|]. intros (d' & [= <-] & Hs' & _). congruence.
    + split; [done|]. by intros (d' & ? & _).
  - intros [->|(d & -> & Hs)]; [done|].
    unfold initialize, start. by rewrite Hs.
  - intros d -> Hs. unfold initialize, start. by rewrite Hs.
Qed.
End dispatch_properties.

(** * Further properties: isTransitionPossible *)

Section lookahead_properties.
Context {W Variant : Type}.
Implicit Types (m : Hsm W Variant) (ti : TransitionInfo W Variant).
Implicit Types (a : VariantList_t Variant).
Implicit Types (q : list (PendingEventInfo Variant)).

Lemma checkRange_setPendingEvents (range : list (TransitionInfo W Variant))
  a q m :
  checkRange range a (setPendingEvents q m)
  = ((checkRange range a m).1, setPendingEvents q (checkRange range a m).2).
Proof.
  revert m. induction range as [|ti range IH]; intros m; simpl; [done|].
  destruct (checkCondition ti) as [cond|]; [|done].
  destruct (cond _ _ _) as [[] w]; simpl; [done|].
  apply (IH (invoked (Condition ti a) w m)).
Qed.

Lemma findTransitionTargetFrom_setPendingEvents fuel s ev a q m :
  findTransitionTargetFrom fuel s ev a (setPendingEvents q m)
  = (fun r => (r.1, setPendingEvents q r.2))
      <$> findTransitionTargetFrom fuel s ev a m.
Proof.
  revert s. induction fuel as [|fuel IH]; intros s;
    cbn [findTransitionTargetFrom]; [done|].
  change (mTransitionsByEvent (setPendingEvents q m))
    with (mTransitionsByEvent m).
  change (getParentState s (setPendingEvents q m)) with (getParentState s m).
  destruct (equal_range pair_lt (s, ev) (mTransitionsByEvent m)) as [|ti range].
  - destruct (getParentState s m); [apply IH | done].
  - simpl fmap. f_equal. apply checkRange_setPendingEvents.
Qed.

Lemma lookAhead_setPendingEvents fuel queue s a q m :
  lookAhead fuel queue s a (setPendingEvents q m)
  = (fun r => (r.1, setPendingEvents q r.2)) <$> lookAhead fuel queue s a m.
Proof.
  revert s m. induction queue as [|it queue IH]; intros s m; simpl; [done|].
  rewrite findTransitionTargetFrom_setPendingEvents.
  destruct (findTransitionTargetFrom fuel s (type it) a m)
    as [[[ti|] m1]|]; simpl; [apply IH | done | done].
Qed.

Lemma lookAhead_types fuel q1 q2 s a m :
  map type q1 = map type q2 ->
  lookAhead fuel q1 s a m = lookAhead fuel q2 s a m.
Proof.
  revert q2 s m. induction q1 as [|it1 q1 IH]; intros [|it2 q2] s m;
    simpl; try done.
  intros [= -> Hrest].
  destruct (findTransitionTargetFrom fuel s (type it2) a m)
    as [[[ti|] m1]|]; [by apply IH | done | done].
Qed.

Lemma lookAhead_client fuel queue s a m found m1 :
  lookAhead fuel queue s a m = Some (found, m1) -> onlyClient m m1.
Proof.
  revert s m. induction queue as [|it queue IH]; intros s m; simpl.
  - intros [= _ <-]. apply onlyClient_refl.
  - destruct (findTransitionTargetFrom fuel s (type it) a m)
      as [[[ti|] m0]|] eqn:Hfind; [| |done].
    + intros Hrest. eapply onlyClient_trans; [|by eapply IH].
      by eapply findTransitionTargetFrom_client.
    + intros [= _ <-]. by eapply findTransitionTargetFrom_client.
Qed.

Lemma checkRange_asked (range : list (TransitionInfo W Variant)) a m :
  exists asked,
    trace (checkRange range a m).2 = trace m ++ asked
    /\ Forall (askedWith a) asked.
Proof.
  revert m. induction range as [|ti range IH]; intros m; simpl.
  - exists []. by rewrite app_nil_r.
  - destruct (checkCondition ti) as [cond|]; simpl;
      [|exists []; by rewrite app_nil_r].
    destruct (cond _ _ _) as [[] w]; simpl.
    + exists [mkInvocation (mCurrentState m) (Condition ti a)].
      split; [done|]. repeat constructor. by exists ti.
    + destruct (IH (invoked (Condition ti a) w m)) as (asked & -> & Hall).
      exists (mkInvocation (mCurrentState m) (Condition ti a) :: asked).
      simpl. rewrite <- app_assoc. split; [done|].
      constructor; [by exists ti | exact Hall].
Qed.

Lemma findTransitionTargetFrom_asked fuel s ev a m found m1 :
  findTransitionTargetFrom fuel s ev a m = Some (found, m1) ->
  exists asked, trace m1 = trace m ++ asked /\ Forall (askedWith a) asked.
Proof.
  revert s. induction fuel as [|fuel IH]; intros s;
    cbn [findTransitionTargetFrom]; [done|].
  destruct (equal_range pair_lt (s, ev) (mTransitionsByEvent m))
    as [|ti range].
  - destruct (getParentState s m); [apply IH|].
    intros [= _ <-]. exists []. by rewrite app_nil_r.
  - intros Hsome.
    assert (Hcheck : checkRange (ti :: range) a m = (found, m1))
      by congruence.
    destruct (checkRange_asked (ti :: range) a m) as (asked & Ht & Hall).
    rewrite Hcheck in Ht. by exists asked.
Qed.

Lemma lookAhead_asked fuel queue s a m found m1 :
  lookAhead fuel queue s a m = Some (found, m1) ->
  exists asked, trace m1 = trace m ++ asked /\ Forall (askedWith a) asked.
Proof.
  revert s m. induction queue as [|it queue IH]; intros s m; simpl.
  - intros [= _ <-]. exists []. by rewrite app_nil_r.
  - destruct (findTransitionTargetFrom fuel s (type it) a m)
      as [[[ti|] m0]|] eqn:Hfind; [| |done].
    + intros Hrest.
      destruct (findTransitionTargetFrom_asked _ _ _ _ _ _ _ Hfind)
        as (asked0 & Ht0 & Hall0).
      destruct (IH _ _ Hrest) as (asked1 & Ht1 & Hall1).
      exists (asked0 ++ asked1). rewrite Ht1, Ht0, <- app_assoc.
      split; [done | by apply Forall_app].
    + intros [= _ <-]. by eapply findTransitionTargetFrom_asked.
Qed.

(** X10: isTransitionPossible reads of each queued event its type and
    nothing else: two queues with the same types in the same order get the
    same answer and have the same conditions asked, whatever the arguments
    of the queued events are and whether they are entry-point events or
    not.  The only callbacks it calls are conditions, and every one of
    them, for the queued events as for the candidate, is asked with the
    arguments of the candidate. *)
Theorem lookahead_reads_only_the_types fuel ev a q1 q2 m :
  map type q1 = map type q2 ->
  isTransitionPossible fuel ev a (setPendingEvents q2 m)
  = (fun r => (r.1, setPendingEvents q2 r.2))
      <$> isTransitionPossible fuel ev a (setPendingEvents q1 m)
  /\ forall answer m1,
       isTransitionPossible fuel ev a (setPendingEvents q1 m)
       = Some (answer, m1) ->
       exists asked,
         trace m1 = trace m ++ asked /\ Forall (askedWith a) asked.
Proof.
  intros Htypes. split.
  - unfold isTransitionPossible.
    change (mPendingEvents (setPendingEvents q2 m)) with q2.
    change (mPendingEvents (setPendingEvents q1 m)) with q1.
    change (mCurrentState (setPendingEvents q2 m)) with (mCurrentState m).
    change (mCurrentState (setPendingEvents q1 m)) with (mCurrentState m).
    rewrite !lookAhead_setPendingEvents, (lookAhead_types fuel q1 q2) by done.
    destruct (lookAhead fuel q2 (mCurrentState m) a m)
      as [[[s|] m1]|]; simpl; [|done|done].
    rewrite !findTransitionTargetFrom_setPendingEvents.
    by destruct (findTransitionTargetFrom fuel s ev a m1) as [[[ti|] m2]|].
  - intros answer m1. unfold isTransitionPossible.
    destruct (lookAhead fuel (mPendingEvents (setPendingEvents q1 m))
                (mCurrentState (setPendingEvents q1 m)) a
                (setPendingEvents q1 m))
      as [[[s|] m0]|] eqn:Hlook; [| |done].
    + destruct (lookAhead_asked _ _ _ _ _ _ _ Hlook) as (asked0 & Ht0 & H0).
      destruct (findTransitionTargetFrom fuel s ev a m0)
        as [[[ti|] m2]|] eqn:Hfind; [| |done]; intros [= _ <-];
        destruct (findTransitionTargetFrom_asked _ _ _ _ _ _ _ Hfind)
          as (asked1 & Ht1 & H1);
        exists (asked0 ++ asked1); rewrite Ht1, Ht0, <- app_assoc;
        (split; [done | by apply Forall_app]).
    + intros [= _ <-]. exact (lookAhead_asked _ _ _ _ _ _ _ Hlook).
Qed.

(** The search does not read the log: what it finds depends on the
    machine and on the state of the client only. *)
Lemma checkRange_retrace (range : list (TransitionInfo W Variant)) a w
  (t t' : list (Invocation W Variant)) m :
  (checkRange range a (withClient w t m)).1
  = (checkRange range a (withClient w t' m)).1.
Proof.
  revert w t t'. induction range as [|ti range IH]; intros w t t'; simpl;
    [done|].
  destruct (checkCondition ti) as [cond|]; [|done].
  destruct (cond _ _ _) as [[] w1]; simpl; [done|].
  apply (IH w1).
Qed.

Lemma findTransitionTargetFrom_retrace fuel s ev a w
  (t t' : list (Invocation W Variant)) m :
  fst <$> findTransitionTargetFrom fuel s ev a (withClient w t m)
  = fst <$> findTransitionTargetFrom fuel s ev a (withClient w t' m).
Proof.
  revert s. induction fuel as [|fuel IH]; intros s;
    cbn [findTransitionTargetFrom]; [done|].
  change (mTransitionsByEvent (withClient w t m))
    with (mTransitionsByEvent m).
  change (mTransitionsByEvent (withClient w t' m))
    with (mTransitionsByEvent m).
  change (getParentState s (withClient w t m)) with (getParentState s m).
  change (getParentState s (withClient w t' m)) with (getParentState s m).
  destruct (equal_range pair_lt (s, ev) (mTransitionsByEvent m))
    as [|ti range].
  - destruct (getParentState s m); [apply IH | done].
  - cbn [fmap option_fmap option_map]. f_equal.
    apply checkRange_retrace.
Qed.

(** X11: isTransitionPossible changes nothing of the machine but what the
    conditions it asked did to the client: current state, queue, topology
    and completion objects are as before.  On an empty queue it runs the
    search doTransition would run in its place: its answer is true exactly
    when that search finds an edge.  For the doTransition that follows the
    look-ahead this carries over when the conditions asked have left the
    client as it was: then the answer false means that doTransition
    returns DONE_FAILED for the event, and the answer true that it finds
    an edge for it. *)
Theorem lookahead_is_read_only_and_agrees_with_the_transition fuel ev a m
  answer m1 :
  isTransitionPossible fuel ev a m = Some (answer, m1) ->
  onlyClient m m1
  /\ mCurrentState m1 = mCurrentState m
  /\ mPendingEvents m1 = mPendingEvents m
  /\ untouched m m1
  /\ (mPendingEvents m = [] ->
      forall lock cv slot,
        let event := mkPendingEventInfo false ev a lock cv slot in
        (if answer
         then exists ti, doTransition fuel event m
                         = Some (applyTransition ti event m1)
         else doTransition fuel event m = Some (DONE_FAILED, m1))
        /\ (world m1 = world m ->
            if answer
            then exists ti m2,
                   resolveTransition fuel event m1 = Some (Some ti, m2)
                   /\ doTransition fuel event m1
                      = Some (applyTransition ti event m2)
            else exists m2,
                   doTransition fuel event m1 = Some (DONE_FAILED, m2))).
Proof.
  intros Hpossible.
  assert (Hc : onlyClient m m1).
  { unfold isTransitionPossible in Hpossible.
    destruct (lookAhead fuel (mPendingEvents m) (mCurrentState m) a m)
      as [[[s|] m0]|] eqn:Hlook; [| |done].
    - pose proof (lookAhead_client _ _ _ _ _ _ _ Hlook) as H0.
      destruct (findTransitionTargetFrom fuel s ev a m0)
        as [[[ti|] m2]|] eqn:Hfind; [| |done];
        injection Hpossible as _ <-;
        (eapply onlyClient_trans; [exact H0|]);
        by eapply findTransitionTargetFrom_client.
    - injection Hpossible as _ <-. by eapply lookAhead_client. }
  split; [exact Hc|]. split; [by apply onlyClient_state|].
  split; [by apply onlyClient_queue|].
  split; [by apply onlyClient_untouched|].
  intros Hempty lock cv slot event.
  unfold isTransitionPossible in Hpossible. rewrite Hempty in Hpossible.
  simpl in Hpossible.
  destruct (findTransitionTargetFrom fuel (mCurrentState m) ev a m)
    as [[found m2]|] eqn:Hfind; [|done].
  assert (Hanswer : answer = match found with Some _ => true | None => false end
                    /\ m2 = m1).
  { destruct found; by injection Hpossible as <- <-. }
  destruct Hanswer as [-> ->]. clear Hpossible.
  split.
  - unfold doTransition, resolveTransition, findTransitionTarget. simpl.
    rewrite Hfind. destruct found as [ti|]; [by exists ti | done].
  - intros Hworld.
    assert (Hagain : fst <$> findTransitionTargetFrom fuel (mCurrentState m)
                               ev a m1 = Some found).
    { rewrite Hc, Hworld.
      rewrite (findTransitionTargetFrom_retrace _ _ _ _ _ _ (trace m)).
      replace (withClient (world m) (trace m) m) with m by (by destruct m).
      by rewrite Hfind. }
    destruct (findTransitionTargetFrom fuel (mCurrentState m) ev a m1)
      as [[found' m3]|] eqn:Hfind'; [|done].
    injection Hagain as ->.
    unfold doTransition, resolveTransition, findTransitionTarget. simpl.
    rewrite (onlyClient_state _ _ Hc), Hfind'.
    destruct found as [ti|]; [by exists ti, m3 | by exists m3].
Qed.
End lookahead_properties.

(** * Further properties: registration *)

Section substate_properties.
Context {W Variant : Type}.
Implicit Types (m : Hsm W Variant).
Implicit Types (l : list (Z * Z)).

Lemma Zltb_irrefl (a : Z) : (a <? a)%Z = false.
Proof. lia. Qed.

Lemma Zltb_trans (a b c : Z) :
  (a <? b)%Z = true -> (b <? c)%Z = true -> (a <? c)%Z = true.
Proof. lia. Qed.

Lemma Zltb_below (a b c : Z) :
  (a <? b)%Z = true -> (c <? b)%Z = false -> (a <? c)%Z = true.
Proof. lia. Qed.

Lemma In_emplace (k v : Z) l e :
  In e (emplace Z.ltb k v l) <-> e = (k, v) \/ In e l.
Proof.
  induction l as [|[k1 v1] l IH]; simpl.
  - split; [intros [<-|[]]; by left | intros [->|[]]; by left].
  - destruct (k <? k1)%Z; simpl.
    + split.
      * intros [<-|H]; [by left | by right].
      * intros [->|H]; [by left | by right].
    + rewrite IH. split.
      * intros [<-|[->|H]]; [right; by left | by left | right; by right].
      * intros [->|[<-|H]]; [right; by left | by left | right; by right].
Qed.

Lemma firstParent_emplace_other (child k v : Z) l :
  child <> v ->
  firstParent child (emplace Z.ltb k v l) = firstParent child l.
Proof.
  intros Hne. unfold firstParent.
  induction l as [|[k1 v1] l IH]; simpl.
  - by rewrite (proj2 (Z.eqb_neq child v) Hne).
  - destruct (k <? k1)%Z; simpl.
    + by rewrite (proj2 (Z.eqb_neq child v) Hne).
    + destruct (child =? v1)%Z; [done | exact IH].
Qed.

Lemma firstParent_above (child k0 : Z) l p :
  Forall (fun e => (fst e <? k0)%Z = false) l ->
  firstParent child l = Some p -> (k0 <= p)%Z.
Proof.
  unfold firstParent. induction 1 as [|[k1 v1] l Hh _ IH]; simpl; [done|].
  destruct (child =? v1)%Z; simpl.
  - intros [= <-]. simpl in Hh. lia.
  - exact IH.
Qed.

Lemma firstParent_emplace_same (k v : Z) l :
  ascending Z.ltb l ->
  firstParent v (emplace Z.ltb k v l)
  = Some (match firstParent v l with
          | Some p0 => Z.min p0 k
          | None => k
          end).
Proof.
  induction l as [|[k1 v1] l IH]; simpl.
  - intros _. unfold firstParent. simpl. by rewrite Z.eqb_refl.
  - intros [Hall Hasc]. destruct (k <? k1)%Z eqn:Hlt.
    + unfold firstParent at 1. simpl. rewrite Z.eqb_refl. simpl. f_equal.
      destruct (firstParent v ((k1, v1) :: l)) as [p0|] eqn:Hold; [|done].
      assert (k1 <= p0)%Z.
      { unfold firstParent in Hold. simpl in Hold.
        destruct (v =? v1)%Z; simpl in Hold; [injection Hold as <-; lia|].
        by eapply firstParent_above. }
      lia.
    + unfold firstParent in *. simpl.
      destruct (v =? v1)%Z; simpl; [f_equal; lia|]. by apply IH.
Qed.

(** X12: in the default build a child can be given several parents, and
    getParentState then answers the parent with the smallest id, whatever
    the order of registration; the parents of other states are not
    affected by a registration. *)
Theorem the_smallest_parent_is_found parent substate isEntryPoint child m :
  ascending Z.ltb (mSubstates m) ->
  parent <> substate ->
  let m1 := (registerSubstate parent substate isEntryPoint m).2 in
  (registerSubstate parent substate isEntryPoint m).1 = true
  /\ getParentState substate m1
     = Some (match getParentState substate m with
             | Some p0 => Z.min p0 parent
             | None => parent
             end)
  /\ (child <> substate -> getParentState child m1 = getParentState child m).
Proof.
  intros Hasc Hne. unfold registerSubstate.
  rewrite (proj2 (Z.eqb_neq parent substate) Hne). simpl.
  split; [done|].
  assert (Hsubs : mSubstates
                    (if isEntryPoint
                     then setSubstateEntryPoint
                            (<[parent:=substate]> (mSubstateEntryPoint m)) m
                     else m) = mSubstates m) by by destruct isEntryPoint.
  unfold getParentState. simpl. rewrite Hsubs. split.
  - by apply firstParent_emplace_same.
  - intros Hother. by apply firstParent_emplace_other.
Qed.

(** X13: when two states are each other's parent, which the default build
    lets a client register, and neither has an edge for an event, the search
    for that event never ends, whatever number of iterations it is
    given. *)
Theorem a_parent_cycle_makes_the_search_endless fuel s1 s2 ev
  (a : VariantList_t Variant) m :
  getParentState s1 m = Some s2 ->
  getParentState s2 m = Some s1 ->
  equal_range pair_lt (s1, ev) (mTransitionsByEvent m) = [] ->
  equal_range pair_lt (s2, ev) (mTransitionsByEvent m) = [] ->
  findTransitionTargetFrom fuel s1 ev a m = None
  /\ findTransitionTargetFrom fuel s2 ev a m = None.
Proof.
  intros H12 H21 He1 He2. induction fuel as [|fuel [IH1 IH2]]; [done|].
  cbn [findTransitionTargetFrom]. by rewrite He1, He2, H12, H21.
Qed.

Lemma register_wellRegistered m (r : Registration W Variant) :
  wellRegistered m -> wellRegistered (register m r) /\ sameRun m (register m r).
Proof.
  intros (Ht & Hs & Hb & He). destruct r as [st c e x|p c ep|from to ev act cond].
  - simpl. unfold registerState.
    destruct (_ || _ || _); by repeat split.
  - simpl. unfold registerSubstate.
    destruct (Z.eqb_spec p c) as [->|Hne]; simpl; [by repeat split|].
    split; [|by destruct ep].
    split; [by destruct ep|]. split; [|split].
    + destruct ep; simpl;
        by apply (ascending_emplace Z.ltb Zltb_irrefl Zltb_trans).
    + intros s. destruct ep; simpl; [|apply Hb].
      destruct (decide (p = s)) as [->|Hps].
      * rewrite lookup_insert_eq. congruence.
      * rewrite lookup_insert_ne by done. apply Hb.
    + intros p0 e0. destruct ep; simpl.
      * destruct (decide (p = p0)) as [->|Hps].
        -- rewrite lookup_insert_eq. intros [= <-].
           apply In_emplace. by left.
        -- rewrite lookup_insert_ne by done. intros Hin.
           apply In_emplace. right. by apply He.
      * intros Hin. apply In_emplace. right. by apply He.
  - simpl. unfold registerTransition. split; [|by repeat split].
    split; [|by repeat split]. simpl.
    by apply (ascending_emplace pair_lt pair_lt_irrefl pair_lt_trans).
Qed.

Lemma sameRun_trans m1 m2 m3 : sameRun m1 m2 -> sameRun m2 m3 -> sameRun m1 m3.
Proof.
  unfold sameRun. intros (A1&A2&A3&A4&A5&A6&A7&A8) (B1&B2&B3&B4&B5&B6&B7&B8).
  repeat split; congruence.
Qed.

Lemma registrations_wellRegistered (rs : list (Registration W Variant)) m :
  wellRegistered m ->
  wellRegistered (fold_left register rs m)
  /\ sameRun m (fold_left register rs m).
Proof.
  revert m. induction rs as [|r rs IH]; intros m Hm; simpl.
  - split; [done | by repeat split].
  - destruct (register_wellRegistered m r Hm) as [Hw Hr].
    destruct (IH _ Hw) as [Hw' Hr']. split; [done|].
    by eapply sameRun_trans.
Qed.

(** X14: whatever registration calls are made on a new machine, in whatever
    order, both multimaps stay in iteration order, no state is its own
    entry point, every entry point is a registered child of its state, and
    the machine is still in its initial state with an empty queue, no
    dispatcher and the client untouched. *)
Theorem registration_keeps_the_machine_well_formed (invalid initialState : Z)
  (w : W) (rs : list (Registration W Variant)) :
  let m := fold_left register rs
             (HierarchicalStateMachine invalid initialState w) in
  ascending pair_lt (mTransitionsByEvent m)
  /\ ascending Z.ltb (mSubstates m)
  /\ (forall s, getEntryPoint s m <> Some s)
  /\ (forall p e, getEntryPoint p m = Some e -> parentOf m p e)
  /\ mCurrentState m = initialState
  /\ mPendingEvents m = []
  /\ mDispatcher m = None
  /\ mStopDispatching m = false
  /\ world m = w
  /\ trace m = [].
Proof.
  intros m.
  destruct (registrations_wellRegistered rs
              (HierarchicalStateMachine invalid initialState w))
    as [(Ht & Hs & Hb & He) (R1&R2&R3&R4&R5&R6&R7&R8)].
  { repeat split; done. }
  fold m in Ht, Hs, Hb, He, R1, R2, R3, R4, R5, R6, R7, R8.
  repeat split; try done.
Qed.
End substate_properties.

(** * Further properties: clearing the queue *)

Section clear_properties.
Context {W Variant : Type}.
Implicit Types (m : Hsm W Variant) (ev : PendingEventInfo Variant).
Implicit Types (q : list (PendingEventInfo Variant)).

Lemma releaseLocks_other_slot q m l :
  (forall ev, In ev q -> entryPointTransition ev = false ->
              isSync ev = true -> transitionStatus ev <> Some l) ->
  heap (releaseLocks q m).2 !! l = heap m !! l.
Proof.
  revert m. induction q as [|e0 q IH]; intros m Hfree; simpl; [done|].
  set (step := if negb (entryPointTransition e0) then releaseLock e0 m
               else (e0, m)).
  assert (Hstep : heap step.2 !! l = heap m !! l).
  { unfold step. destruct (entryPointTransition e0) eqn:Hep; simpl; [done|].
    unfold releaseLock, unlock. destruct (isSync e0) eqn:Hsync; simpl; [|done].
    destruct (transitionStatus e0) as [l0|] eqn:Hslot; [|done]. simpl.
    apply list_lookup_insert_ne. intros ->.
    by apply (Hfree e0 (or_introl eq_refl) Hep Hsync). }
  destruct step as [e1 m1]. simpl in Hstep.
  rewrite <- Hstep. specialize (IH m1).
  destruct (releaseLocks q m1) as [q1 m2]. simpl in *.
  apply IH. intros ev Hin. apply Hfree. by right.
Qed.

Lemma releaseLocks_length q m :
  length (heap (releaseLocks q m).2) = length (heap m).
Proof.
  revert m. induction q as [|e0 q IH]; intros m; simpl; [done|].
  set (step := if negb (entryPointTransition e0) then releaseLock e0 m
               else (e0, m)).
  assert (Hstep : length (heap step.2) = length (heap m)).
  { unfold step. destruct (negb (entryPointTransition e0)); [|done].
    destruct (releaseLock_heap e0 m) as [->|[l' ->]]; [done|].
    apply length_insert. }
  destruct step as [e1 m1]. simpl in Hstep.
  rewrite <- Hstep. specialize (IH m1).
  by destruct (releaseLocks q m1).
Qed.

(** X15: clearPendingEvents sets to DONE_FAILED the completion object of
    every queued event that is synchronous and not an entry-point event, and
    changes no other completion object.  It allocates and frees none, and it
    leaves the current state, the topology and the client as they are. *)
Theorem clearing_fails_the_waiting_posters_of_normal_events m :
  (forall ev l,
     In ev (mPendingEvents m) -> entryPointTransition ev = false ->
     isSync ev = true -> transitionStatus ev = Some l ->
     (l < length (heap m))%nat ->
     heap (clearPendingEvents m) !! l = Some DONE_FAILED)
  /\ (forall l,
       (forall ev, In ev (mPendingEvents m) ->
                   entryPointTransition ev = false -> isSync ev = true ->
                   transitionStatus ev <> Some l) ->
       heap (clearPendingEvents m) !! l = heap m !! l)
  /\ length (heap (clearPendingEvents m)) = length (heap m)
  /\ onlyQueue m (clearPendingEvents m).
Proof.
  assert (Hheap : heap (clearPendingEvents m)
                  = heap (releaseLocks (mPendingEvents m) m).2).
  { unfold clearPendingEvents. by destruct (releaseLocks _ m). }
  split; [|split; [|split]].
  - intros ev l. apply clearPendingEvents_signals_failed.
  - intros l Hfree. rewrite Hheap. by apply releaseLocks_other_slot.
  - rewrite Hheap. apply releaseLocks_length.
  - apply clearPendingEvents_queue.
Qed.
End clear_properties.


(** * Further properties: the build with safe structure *)

Section safe_structure_properties.
Context {W Variant : Type}.
Implicit Types (h : SafeStructure.SafeHsm W Variant).
Implicit Types (l : list (Z * Z)).

Lemma emplace_Permutation (k v : Z) l : emplace Z.ltb k v l ≡ₚ (k, v) :: l.
Proof.
  induction l as [|[k1 v1] l IH]; simpl; [done|].
  destruct (k <? k1)%Z; [done|]. rewrite IH. apply Permutation_swap.
Qed.

Lemma firstParent_None child l :
  firstParent child l = None -> child ∉ snd <$> l.
Proof.
  unfold firstParent. induction l as [|[k1 v1] l IH]; simpl.
  - intros _. apply not_elem_of_nil.
  - destruct (Z.eqb_spec child v1) as [->|Hne]; simpl; [done|].
    intros Hrest. apply not_elem_of_cons. split; [done | by apply IH].
Qed.

Lemma firstParent_unique child a l :
  NoDup (snd <$> l) -> In (a, child) l -> firstParent child l = Some a.
Proof.
  unfold firstParent. induction l as [|[k1 v1] l IH]; simpl; [done|].
  rewrite NoDup_cons. intros [Hfresh Hnd] [[= -> ->]|Hin].
  - by rewrite Z.eqb_refl.
  - destruct (Z.eqb_spec child v1) as [->|Hne]; simpl; [|by apply IH].
    destruct Hfresh. apply list_elem_of_fmap. exists (a, v1).
    split; [done|]. by apply list_elem_of_In.
Qed.

Lemma firstParent_In child a l : firstParent child l = Some a -> In (a, child) l.
Proof.
  unfold firstParent. induction l as [|[k1 v1] l IH]; simpl; [done|].
  destruct (Z.eqb_spec child v1) as [->|Hne]; simpl.
  - intros [= ->]. by left.
  - intros H. right. by apply IH.
Qed.

(** What a call of the safe [registerSubstate] that returns has done. *)
Lemma safe_registerSubstate_inv fuel p s isEntryPoint h ok h1 :
  SafeStructure.registerSubstate fuel p s isEntryPoint h = Some (ok, h1) ->
  if ok then
    p <> s
    /\ SafeStructure.hasParentState s h = None
    /\ SafeStructure.noRecursion fuel p s h = Some true
    /\ (if isEntryPoint
        then mSubstateEntryPoint (SafeStructure.base h) !! p = None
        else is_Some (mSubstateEntryPoint (SafeStructure.base h) !! p))
    /\ mSubstates (SafeStructure.base h1)
       = emplace Z.ltb p s (mSubstates (SafeStructure.base h))
    /\ mSubstateEntryPoint (SafeStructure.base h1)
       = (if isEntryPoint
          then <[p := s]> (mSubstateEntryPoint (SafeStructure.base h))
          else mSubstateEntryPoint (SafeStructure.base h))
    /\ mTransitionsByEvent (SafeStructure.base h1)
       = mTransitionsByEvent (SafeStructure.base h)
    /\ mRegisteredStates (SafeStructure.base h1)
       = mRegisteredStates (SafeStructure.base h)
    /\ sameRun (SafeStructure.base h) (SafeStructure.base h1)
  else h1 = h.
Proof.
  unfold SafeStructure.registerSubstate.
  destruct (Z.eqb_spec p s) as [->|Hne]; simpl; [by intros [= <- <-]|].
  destruct (SafeStructure.hasParentState s h) as [p0|] eqn:Hpar;
    [by intros [= <- <-]|].
  destruct (SafeStructure.noRecursion fuel p s h) as [[]|] eqn:Hrec;
    [|by intros [= <- <-]|done].
  destruct (mSubstateEntryPoint (SafeStructure.base h) !! p) as [e0|] eqn:Hep;
    destruct isEntryPoint; simpl; try (by intros [= <- <-]).
  - intros [= <- <-].
    destruct (SafeStructure.isTopState s _); by repeat split.
  - intros [= <- <-].
    destruct (SafeStructure.isTopState s _); by repeat split.
Qed.

Lemma tc_last {A : Type} (R : relation A) (x z : A) :
  tc R x z -> exists y, rtc R x y /\ R y z.
Proof.
  induction 1 as [x z HR|x y z HR _ (y' & Hrtc & Hlast)].
  - exists x. split; [apply rtc_refl | done].
  - exists y'. split; [by eapply rtc_l | done].
Qed.

(** A walk that has gone up to a state without parent and has not met
    [s] shows that [s] is not above the state it started from. *)
Lemma noRecursion_sound fuel cur s h :
  NoDup (snd <$> mSubstates (SafeStructure.base h)) ->
  SafeStructure.noRecursion fuel cur s h = Some true ->
  ~ tc (SafeStructure.parent h) s cur.
Proof.
  intros Hnd. revert cur. induction fuel as [|fuel IH]; intros cur; [done|].
  simpl. intros Hwalk Htc.
  destruct (tc_last _ _ _ Htc) as (a & Hsa & Hacur).
  unfold SafeStructure.hasParentState in Hwalk.
  fold (firstParent cur (mSubstates (SafeStructure.base h))) in Hwalk.
  rewrite (firstParent_unique cur a _ Hnd Hacur) in Hwalk.
  destruct (Z.eqb_spec s a) as [->|Hne]; [done|].
  apply (IH a Hwalk). by apply rtc_tc in Hsa as [->|Hsa].
Qed.

(** A path in the relation with one pair added uses the pair or does
    not. *)
Lemma tc_added {A : Type} (R R' : relation A) (p s : A) :
  (forall x y, R' x y -> R x y \/ (x = p /\ y = s)) ->
  forall x y, tc R' x y -> tc R x y \/ (rtc R x p /\ rtc R s y).
Proof.
  intros Hstep x y. induction 1 as [x y HR|x y z HR _ IH].
  - destruct (Hstep _ _ HR) as [H|[-> ->]].
    + left. by apply tc_once.
    + right. split; apply rtc_refl.
  - destruct (Hstep _ _ HR) as [H|[-> ->]]; destruct IH as [IH|[IH1 IH2]].
    + left. by eapply tc_l.
    + right. split; [by eapply rtc_l | done].
    + right. split; [apply rtc_refl | by apply tc_rtc].
    + right. split; [apply rtc_refl | done].
Qed.

(** X16: the safe registerSubstate keeps the substate relation a forest
    with entry points: when no state has two parents, no state is above
    itself, every parent has an entry point and every entry point is a
    child of its state, then the same holds after any call that returns.
    A call that refuses changes nothing at all, and a call that accepts
    never replaces an entry point. *)
Theorem safe_registration_keeps_the_forest fuel p s isEntryPoint h ok h1 :
  SafeStructure.structured h ->
  SafeStructure.registerSubstate fuel p s isEntryPoint h = Some (ok, h1) ->
  SafeStructure.structured h1
  /\ (ok = false -> h1 = h)
  /\ (forall p0 e, mSubstateEntryPoint (SafeStructure.base h) !! p0 = Some e ->
                   mSubstateEntryPoint (SafeStructure.base h1) !! p0 = Some e).
Proof.
  intros (Hnd & Hacyc & Hentry & Hchild) Hreg.
  pose proof (safe_registerSubstate_inv _ _ _ _ _ _ _ Hreg) as Hinv.
  destruct ok; [|subst h1; by repeat split].
  destruct Hinv as (Hne & Hpar & Hrec & Hep & Hsubs & Hent & _).
  assert (Hparent : forall x y,
             SafeStructure.parent h1 x y
             <-> (x, y) = (p, s) \/ SafeStructure.parent h x y).
  { intros x y. unfold SafeStructure.parent. rewrite Hsubs. apply In_emplace. }
  split; [|split; [done|]].
  - split; [|split; [|split]].
    + rewrite Hsubs, emplace_Permutation. simpl. apply NoDup_cons.
      split; [|done]. by apply firstParent_None.
    + intros x Hcycle.
      destruct (tc_added (SafeStructure.parent h) (SafeStructure.parent h1)
                  p s) with (x := x) (y := x) as [Hold|[Hxp Hsx]];
        [|done|by apply (Hacyc x)|].
      { intros a b Hab. apply Hparent in Hab as [[= -> ->]|Hab];
          [by right | by left]. }
      assert (Hsp : rtc (SafeStructure.parent h) s p) by by etrans.
      apply rtc_tc in Hsp as [Heq|Hsp]; [congruence|].
      by apply (noRecursion_sound fuel p s h Hnd Hrec).
    + intros x y Hxy. rewrite Hent.
      apply Hparent in Hxy as [[= -> ->]|Hxy].
      * destruct isEntryPoint; [|done]. rewrite lookup_insert_eq. by eexists.
      * destruct isEntryPoint; [|by eapply Hentry].
        destruct (decide (p = x)) as [->|Hpx].
        -- rewrite lookup_insert_eq. by eexists.
        -- rewrite lookup_insert_ne by done. by eapply Hentry.
    + intros x e. rewrite Hent. intros Hx. apply Hparent.
      destruct isEntryPoint; [|right; by apply Hchild].
      destruct (decide (p = x)) as [->|Hpx].
      * rewrite lookup_insert_eq in Hx. injection Hx as <-. by left.
      * rewrite lookup_insert_ne in Hx by done. right. by apply Hchild.
  - intros p0 e Hp0. rewrite Hent. destruct isEntryPoint; [|done].
    destruct (decide (p = p0)) as [->|Hpx]; [congruence|].
    by rewrite lookup_insert_ne.
Qed.

(** In a forest the walk of the [while] loop uses every entry of
    [mSubstates] at most once, so it ends. *)
Lemma noRecursion_ends fuel cur s h (visited : list (Z * Z)) :
  (forall x, ~ tc (SafeStructure.parent h) x x) ->
  NoDup visited ->
  (forall e, e ∈ visited -> e ∈ mSubstates (SafeStructure.base h)) ->
  (forall a c, (a, c) ∈ visited -> rtc (SafeStructure.parent h) cur a) ->
  (length (mSubstates (SafeStructure.base h)) < fuel + length visited)%nat ->
  SafeStructure.noRecursion fuel cur s h <> None.
Proof.
  intros Hacyc. revert cur visited.
  induction fuel as [|fuel IH]; intros cur visited Hnd Hsub Habove Hlen.
  - pose proof (submseteq_length _ _ (NoDup_submseteq _ _ Hnd Hsub)). lia.
  - simpl.
    destruct (SafeStructure.hasParentState cur h) as [prev|] eqn:Hpar; [|done].
    destruct (s =? prev)%Z; [done|].
    assert (Hedge : SafeStructure.parent h prev cur).
    { by apply firstParent_In. }
    apply (IH prev ((prev, cur) :: visited)).
    + apply NoDup_cons. split; [|done]. intros Hseen.
      apply (Hacyc cur). eapply tc_rtc_l; [by apply (Habove prev cur)|].
      by apply tc_once.
    + intros e [->|He]%elem_of_cons; [by apply list_elem_of_In | by apply Hsub].
    + intros a c [[= -> ->]|Hin]%elem_of_cons; [apply rtc_refl|].
      eapply rtc_l; [exact Hedge | by eapply Habove].
    + simpl. lia.
Qed.

(** X17: on a structured machine the safe registerSubstate always returns
    when it is given more iterations than mSubstates has entries, and it
    accepts exactly when parent and substate differ, the substate has no
    parent yet, the substate is not above the parent, and the call brings
    the entry point of a parent that has none or a further child of a
    parent that has one. *)
Theorem safe_registration_decides fuel p s isEntryPoint h :
  SafeStructure.structured h ->
  (length (mSubstates (SafeStructure.base h)) < fuel)%nat ->
  exists ok h1,
    SafeStructure.registerSubstate fuel p s isEntryPoint h = Some (ok, h1)
    /\ (ok = true
        <-> p <> s
            /\ (forall p0, ~ SafeStructure.parent h p0 s)
            /\ ~ tc (SafeStructure.parent h) s p
            /\ (isEntryPoint = true
                <-> mSubstateEntryPoint (SafeStructure.base h) !! p = None)).
Proof.
  intros (Hnd & Hacyc & Hentry & Hchild) Hfuel.
  assert (Hends : SafeStructure.noRecursion fuel p s h <> None).
  { apply (noRecursion_ends fuel p s h []); try done.
    - apply NoDup_nil_2.
    - intros e He. by apply elem_of_nil in He.
    - intros a c He. by apply elem_of_nil in He.
    - simpl. lia. }
  assert (Hwalk : forall b, SafeStructure.noRecursion fuel p s h = Some b ->
                            SafeStructure.hasParentState s h = None ->
                            (b = true <-> ~ tc (SafeStructure.parent h) s p)).
  { intros b Hb Hroot. destruct b.
    - split; [intros _; by eapply noRecursion_sound | done].
    - split; [done|]. intros Hnot. exfalso. apply Hnot. clear Hnot Hends.
      revert Hb. generalize p as cur. clear Hfuel.
      induction fuel as [|fuel IH]; intros cur; [done|]. simpl.
      destruct (SafeStructure.hasParentState cur h) as [prev|] eqn:Hpar;
        [|done].
      apply firstParent_In in Hpar.
      destruct (Z.eqb_spec s prev) as [->|Hne].
      + intros _. by apply tc_once.
      + intros Hrest. eapply tc_r; [by apply IH | exact Hpar]. }
  assert (Hroot : SafeStructure.hasParentState s h = None
                  <-> forall p0, ~ SafeStructure.parent h p0 s).
  { split.
    - intros Hnone p0 Hp0.
      unfold SafeStructure.hasParentState in Hnone.
      fold (firstParent s (mSubstates (SafeStructure.base h))) in Hnone.
      by rewrite (firstParent_unique s p0 _ Hnd Hp0) in Hnone.
    - intros Hnone.
      destruct (SafeStructure.hasParentState s h) as [p0|] eqn:Hp0; [|done].
      apply firstParent_In in Hp0. by destruct (Hnone p0). }
  unfold SafeStructure.registerSubstate.
  destruct (Z.eqb_spec p s) as [->|Hne]; simpl.
  { eexists _, _. split; [reflexivity|]. split; [done|]. by intros (? & _). }
  destruct (SafeStructure.hasParentState s h) as [p0|] eqn:Hpar.
  { eexists _, _. split; [reflexivity|]. split; [done|].
    intros (_ & Hnone & _). apply Hroot in Hnone. done. }
  destruct (SafeStructure.noRecursion fuel p s h) as [b|] eqn:Hrec; [|done].
  specialize (Hwalk b eq_refl eq_refl).
  destruct b.
  - assert (Hr : forall p0, ~ SafeStructure.parent h p0 s) by by apply Hroot.
    assert (Hw : ~ tc (SafeStructure.parent h) s p) by by apply Hwalk.
    destruct (mSubstateEntryPoint (SafeStructure.base h) !! p) as [e0|] eqn:Hep;
      destruct isEntryPoint; simpl; eexists _, _; (split; [reflexivity|]).
    + split; [done|]. intros (_ & _ & _ & [Hiff _]). by specialize (Hiff eq_refl).
    + split; [|done]. intros _. by repeat split.
    + split; [|done]. intros _. by repeat split.
    + split; [done|]. intros (_ & _ & _ & [_ Hiff]). by specialize (Hiff eq_refl).
  - eexists _, _. split; [reflexivity|]. split; [done|].
    intros (_ & _ & Hnot & _). by apply Hwalk in Hnot.
Qed.

Lemma filter_absent (state : Z) (l : list Z) :
  existsb (fun t => (t =? state)%Z) l = false ->
  List.filter (fun t => negb (t =? state)%Z) l = l.
Proof.
  induction l as [|t l IH]; simpl; [done|].
  destruct (t =? state)%Z; simpl; [done|]. intros H. by rewrite IH.
Qed.

(** X18: mTopLevelStates is never filled.  isTopState answers true for the
    states that are not in the list, so registerState appends a state only
    when the list holds it already, and the removal in registerSubstate
    removes nothing: a call of registerSubstate leaves the list as it is,
    a call of registerState adds no state that was not in it, and in a
    machine that starts with the empty list it stays empty. *)
Theorem the_top_level_list_stays_empty fuel state c e x p s isEntryPoint h :
  (forall ok h1,
     SafeStructure.registerSubstate fuel p s isEntryPoint h = Some (ok, h1) ->
     SafeStructure.mTopLevelStates h1 = SafeStructure.mTopLevelStates h)
  /\ (forall t,
       In t (SafeStructure.mTopLevelStates
               (SafeStructure.registerState state c e x h)) ->
       In t (SafeStructure.mTopLevelStates h))
  /\ (SafeStructure.mTopLevelStates h = [] ->
      SafeStructure.mTopLevelStates
        (SafeStructure.registerState state c e x h) = []).
Proof.
  split; [|split].
  - intros ok h1. unfold SafeStructure.registerSubstate.
    destruct (if negb (p =? s)%Z then _ else _) as [[]|]; [| |done].
    + intros [= <- <-].
      destruct (SafeStructure.isTopState s _) eqn:Htop; [|done]. simpl.
      apply filter_absent. unfold SafeStructure.isTopState in Htop.
      simpl in Htop. by apply negb_true_iff in Htop.
    + by intros [= <- <-].
  - intros t. unfold SafeStructure.registerState. simpl.
    destruct (negb (SafeStructure.isSubstate state h)); simpl; [|done].
    destruct (SafeStructure.isTopState state h) eqn:Htop; simpl; [done|].
    rewrite in_app_iff. intros [Hin|[<-|[]]]; [done|].
    unfold SafeStructure.isTopState in Htop.
    apply negb_false_iff, existsb_exists in Htop as (t & Hin & Heq).
    apply Z.eqb_eq in Heq as ->. done.
  - intros Hempty. unfold SafeStructure.registerState. simpl.
    unfold SafeStructure.isTopState. rewrite Hempty. simpl.
    by rewrite andb_false_r.
Qed.
End safe_structure_properties.

(** * Further properties: the Qt dispatcher *)

Section qt_properties.
Context {G : Type}.
Implicit Types (d : HsmEventDispatcherQt.Dispatcher G).
Implicit Types (l : list (Z * (G -> G))).

Lemma stored_object (this : nat) (p : HsmEventDispatcherQt.Program G) d :
  HsmEventDispatcherQt.object this p = Some d ->
  HsmEventDispatcherQt.stored this d p = p.
Proof.
  unfold HsmEventDispatcherQt.object, HsmEventDispatcherQt.stored.
  destruct (HsmEventDispatcherQt.objects p !! this) as [[h q]|] eqn:Ho;
    [|done].
  intros [= <-]. simpl. rewrite list_insert_id by done. by destruct p.
Qed.

(** X19: the Qt dispatchers of a program post events only once one of them
    has been started, and from then on all of them do: the event type is a
    static member.  As long as no event type is registered emitEvent does
    nothing on any object, also after a start() that failed, which leaves
    the program as it was.  After a start() that succeeded on one object,
    emitEvent on any object of the program, started or not, posts exactly
    one event of the registered type to that object and to no other, and
    start() on any object answers true and changes nothing, whatever Qt
    would answer. *)
Theorem qt_emits_only_when_started (registerEventType again : Z -> Z)
  (this other : nat) (p : HsmEventDispatcherQt.Program G) handlers posted :
  HsmEventDispatcherQt.objects p !! other = Some (handlers, posted) ->
  is_Some (HsmEventDispatcherQt.objects p !! this) ->
  (HsmEventDispatcherQt.staticQtEventType p
   = HsmEventDispatcherQt.QEvent_None ->
   HsmEventDispatcherQt.emitEventOn other p = Some p)
  /\ exists started p1,
       HsmEventDispatcherQt.startOn registerEventType this p
       = Some (started, p1)
       /\ (started = false ->
           p1 = p
           /\ HsmEventDispatcherQt.emitEventOn other p1 = Some p1)
       /\ (started = true ->
           HsmEventDispatcherQt.staticQtEventType p1
           <> HsmEventDispatcherQt.QEvent_None
           /\ HsmEventDispatcherQt.objects p1 = HsmEventDispatcherQt.objects p
           /\ HsmEventDispatcherQt.emitEventOn other p1
              = Some (HsmEventDispatcherQt.mkProgram
                        (HsmEventDispatcherQt.staticQtEventType p1)
                        (<[other :=
                             (handlers,
                              posted
                                ++ [HsmEventDispatcherQt.staticQtEventType
                                      p1])]>
                           (HsmEventDispatcherQt.objects p)))
           /\ HsmEventDispatcherQt.startOn again other p1 = Some (true, p1)).
Proof.
  intros Hother [[h q] Hthis].
  assert (Hquiet : forall p0 : HsmEventDispatcherQt.Program G,
             HsmEventDispatcherQt.objects p0 = HsmEventDispatcherQt.objects p ->
             HsmEventDispatcherQt.staticQtEventType p0
             = HsmEventDispatcherQt.QEvent_None ->
             HsmEventDispatcherQt.emitEventOn other p0 = Some p0).
  { intros p0 Ho Hnone.
    unfold HsmEventDispatcherQt.emitEventOn, HsmEventDispatcherQt.object.
    rewrite Ho, Hother. simpl.
    unfold HsmEventDispatcherQt.emitEvent. simpl. rewrite Hnone. simpl.
    f_equal. apply stored_object.
    unfold HsmEventDispatcherQt.object. by rewrite Ho, Hother, Hnone. }
  split; [by apply Hquiet|].
  unfold HsmEventDispatcherQt.startOn, HsmEventDispatcherQt.object.
  rewrite Hthis. simpl. eexists _, _. split; [reflexivity|].
  assert (Hsame : <[this := (h, q)]> (HsmEventDispatcherQt.objects p)
                  = HsmEventDispatcherQt.objects p)
    by (by apply list_insert_id).
  unfold HsmEventDispatcherQt.start. simpl.
  set (newEvent := registerEventType
                     (HsmEventDispatcherQt.QEvent_User
                      + HsmEventDispatcherQt.QT_EVENT_OFFSET)%Z).
  assert (Hemit : forall t : Z,
             t <> HsmEventDispatcherQt.QEvent_None ->
             HsmEventDispatcherQt.emitEventOn other
               (HsmEventDispatcherQt.mkProgram t
                  (HsmEventDispatcherQt.objects p))
             = Some (HsmEventDispatcherQt.mkProgram t
                       (<[other := (handlers, posted ++ [t])]>
                          (HsmEventDispatcherQt.objects p)))
             /\ HsmEventDispatcherQt.startOn again other
                  (HsmEventDispatcherQt.mkProgram t
                     (HsmEventDispatcherQt.objects p))
                = Some (true, HsmEventDispatcherQt.mkProgram t
                                (HsmEventDispatcherQt.objects p))).
  { intros t Ht.
    unfold HsmEventDispatcherQt.emitEventOn, HsmEventDispatcherQt.startOn,
      HsmEventDispatcherQt.object, HsmEventDispatcherQt.emitEvent,
      HsmEventDispatcherQt.start, HsmEventDispatcherQt.stored.
    simpl. rewrite Hother. simpl.
    rewrite (proj2 (Z.eqb_neq _ _) Ht). simpl.
    split; [done|]. by rewrite list_insert_id. }
  destruct (Z.eqb_spec (HsmEventDispatcherQt.staticQtEventType p)
              HsmEventDispatcherQt.QEvent_None) as [Hnone|Hset].
  - destruct (Z.ltb_spec 0 newEvent) as [Hpos|Hneg]; simpl.
    + split; [done|]. intros _.
      unfold HsmEventDispatcherQt.stored. simpl. rewrite Hsame.
      assert (Hnew : newEvent <> HsmEventDispatcherQt.QEvent_None)
        by (unfold HsmEventDispatcherQt.QEvent_None; lia).
      destruct (Hemit newEvent Hnew) as [He Hs].
      split; [exact Hnew|]. split; [done|]. split; [exact He | exact Hs].
    + split; [|done]. intros _.
      assert (Hp : HsmEventDispatcherQt.stored this
                     (HsmEventDispatcherQt.mkDispatcherQt
                        (HsmEventDispatcherQt.staticQtEventType p) h q) p
                   = p).
      { apply stored_object. unfold HsmEventDispatcherQt.object.
        by rewrite Hthis. }
      rewrite Hp. split; [done|]. by apply Hquiet.
  - simpl. split; [done|]. intros _.
    unfold HsmEventDispatcherQt.stored. simpl. rewrite Hsame.
    destruct (Hemit (HsmEventDispatcherQt.staticQtEventType p) Hset)
      as [He Hs].
    replace (HsmEventDispatcherQt.mkProgram
               (HsmEventDispatcherQt.staticQtEventType p)
               (HsmEventDispatcherQt.objects p)) with p in He, Hs
      by (by destruct p).
    split; [exact Hset|]. split; [done|].
    destruct p as [t os]. simpl in *. split; [exact He | exact Hs].
Qed.

Lemma filter_mapEmplace_fresh (id : Z) (f : G -> G) l :
  Forall (fun item => fst item <> id) l ->
  List.filter (fun item => negb (fst item =? id)%Z)
              (HsmEventDispatcherQt.mapEmplace id f l) = l.
Proof.
  induction 1 as [|[k g] l Hk Hl IH]; simpl.
  - by rewrite Z.eqb_refl.
  - simpl in Hk.
    assert (Hkeep : negb (k =? id)%Z = true)
      by (apply negb_true_iff, Z.eqb_neq; done).
    destruct (id <? k)%Z eqn:Hlt; simpl.
    + rewrite Z.eqb_refl, Hkeep. simpl. f_equal.
      clear -Hl. induction Hl as [|[k1 g1] l Hk1 _ IH]; simpl; [done|].
      simpl in Hk1. rewrite (proj2 (Z.eqb_neq k1 id) Hk1). simpl. by f_equal.
    + destruct (k <? id)%Z eqn:Hgt; simpl; [|lia].
      rewrite Hkeep. by f_equal.
Qed.

Lemma filter_unregistered (id : Z) l :
  Forall (fun item => fst item <> id) l ->
  List.filter (fun item => negb (fst item =? id)%Z) l = l.
Proof.
  induction 1 as [|[k g] l Hk _ IH]; simpl; [done|].
  simpl in Hk. rewrite (proj2 (Z.eqb_neq k id) Hk). simpl. by f_equal.
Qed.

(** X20: the handlers of the Qt dispatcher.  Registering a handler under an
    id that is not in use and unregistering that id gives back the
    dispatcher as it was; unregistering an id that is not in use changes
    nothing; an event of another type than the dispatcher's is not
    processed and runs no handler; after unregisterAllEventHandlers an
    event of the dispatcher's type is processed and runs no handler. *)
Theorem qt_handlers_come_and_go (id evType : Z) (f : G -> G) d (g : G) :
  Forall (fun item => fst item <> id)
         (HsmEventDispatcherQt.mEventHandlers d) ->
  HsmEventDispatcherQt.unregisterEventHandler id
    (HsmEventDispatcherQt.registerEventHandler id f d).2 = d
  /\ (HsmEventDispatcherQt.registerEventHandler id f d).1 = id
  /\ HsmEventDispatcherQt.unregisterEventHandler id d = d
  /\ (evType <> HsmEventDispatcherQt.mQtEventType d ->
      HsmEventDispatcherQt.event evType d g = (false, g))
  /\ HsmEventDispatcherQt.event (HsmEventDispatcherQt.mQtEventType d)
       (HsmEventDispatcherQt.unregisterAllEventHandlers d) g = (true, g).
Proof.
  intros Hfresh.
  unfold HsmEventDispatcherQt.unregisterEventHandler,
    HsmEventDispatcherQt.registerEventHandler, HsmEventDispatcherQt.event.
  simpl. split; [|split; [done|split; [|split]]].
  - rewrite filter_mapEmplace_fresh by done. by destruct d.
  - rewrite filter_unregistered by done. by destruct d.
  - intros Hne. by rewrite (proj2 (Z.eqb_neq _ _) Hne).
  - by rewrite Z.eqb_refl.
Qed.
End qt_properties.

(** * The further scenarios, run *)

Section more_scenarios.
Import Scenario MoreScenarios.

Lemma found_edge_is_registered_witness :
  findTransitionTargetFrom 2 C1 x [] nested = Some (Some edgePA, nested)
  /\ (exists n anc, bubble n C1 x nested = Some anc
                    /\ In ((anc, x), edgePA) (mTransitionsByEvent nested))
  /\ mCurrentState nested = C1.
Proof.
  split; [reflexivity|].
  destruct (found_edge_is_registered 2 C1 x [] nested edgePA nested eq_refl)
    as (Hedge & _ & Hcur & _).
  split; [exact Hedge | exact Hcur].
Defined.

Lemma currentState_moves_along_the_topology_witness :
  doTransition 1 (normal e []) flat
  = Some (DONE_OK, (applyTransition edgeAB (normal e []) flat).2)
  /\ (B = A
      \/ (false = true /\ getEntryPoint A flat = Some B)
      \/ (false = false
          /\ exists n anc ti,
               bubble n A e flat = Some anc
               /\ In ((anc, e), ti) (mTransitionsByEvent flat)
               /\ destinationState ti = B)).
Proof.
  split; [reflexivity|].
  exact (currentState_moves_along_the_topology 1 (normal e []) flat DONE_OK
           (applyTransition edgeAB (normal e []) flat).2 eq_refl).
Defined.

Lemma a_post_appends_the_event_and_wakes_witness :
  mDispatcher waiting = Some (emitEvent (registerEventHandler host).2)
  /\ exists r m1 eventInfo,
       transitionEx x false false 0 [7%Z] waiting = Returned r m1
       /\ mPendingEvents m1 = [normal e []] ++ [eventInfo]
       /\ type eventInfo = x
       /\ args eventInfo = [7%Z]
       /\ r = Answered true.
Proof.
  split; [reflexivity|].
  destruct (a_post_appends_the_event_and_wakes x false false 0 [7%Z] waiting
              (emitEvent (registerEventHandler host).2) eq_refl)
    as (r & m1 & eventInfo & Hpost & Hq & Hty & Har & _ & _ & Hr & _).
  exists r, m1, eventInfo.
  split; [exact Hpost|]. split; [exact Hq|]. split; [exact Hty|].
  split; [exact Har | exact Hr].
Defined.


Lemma lookahead_reads_only_the_types_witness :
  map type [normal e [0%Z]]
  = map type [mkPendingEventInfo true e [9%Z] (Some 0%nat) (Some 0%nat)
                                 (Some 0%nat)]
  /\ isTransitionPossible 2 x [1%Z]
       (setPendingEvents
          [mkPendingEventInfo true e [9%Z] (Some 0%nat) (Some 0%nat)
                              (Some 0%nat)] guarded)
     = (fun r => (r.1, setPendingEvents
                         [mkPendingEventInfo true e [9%Z] (Some 0%nat)
                                             (Some 0%nat) (Some 0%nat)]
                         r.2))
         <$> isTransitionPossible 2 x [1%Z]
               (setPendingEvents [normal e [0%Z]] guarded)
  /\ exists m1 asked,
       isTransitionPossible 2 x [1%Z]
         (setPendingEvents [normal e [0%Z]] guarded) = Some (true, m1)
       /\ trace m1 = trace guarded ++ asked
       /\ Forall (askedWith [1%Z]) asked
       /\ trace m1 = [mkInvocation A (Condition toB [1%Z])].
Proof.
  split; [reflexivity|].
  destruct (lookahead_reads_only_the_types 2 x [1%Z] [normal e [0%Z]]
              [mkPendingEventInfo true e [9%Z] (Some 0%nat) (Some 0%nat)
                                  (Some 0%nat)] guarded eq_refl)
    as [Hsame Hasked].
  split; [exact Hsame|].
  destruct (Hasked true _ eq_refl) as (asked & Htrace & Hall).
  eexists _, asked. split; [reflexivity|]. split; [exact Htrace|].
  split; [exact Hall | reflexivity].
Defined.

Lemma lookahead_is_read_only_and_agrees_with_the_transition_witness :
  isTransitionPossible 1 e [1%Z] guarded
  = Some (true, withClient 0%nat [mkInvocation A (Condition toB [1%Z])]
                           guarded)
  /\ mPendingEvents guarded = []
  /\ world (withClient 0%nat [mkInvocation A (Condition toB [1%Z])] guarded)
     = world guarded
  /\ exists ti m2,
       resolveTransition 1 (normal e [1%Z])
         (withClient 0%nat [mkInvocation A (Condition toB [1%Z])] guarded)
       = Some (Some ti, m2)
       /\ doTransition 1 (normal e [1%Z])
            (withClient 0%nat [mkInvocation A (Condition toB [1%Z])] guarded)
          = Some (applyTransition ti (normal e [1%Z]) m2).
Proof.
  split; [reflexivity|]. split; [reflexivity|]. split; [reflexivity|].
  destruct (lookahead_is_read_only_and_agrees_with_the_transition 1 e [1%Z]
              guarded true _ eq_refl) as (_ & _ & _ & _ & Hagree).
  destruct (Hagree eq_refl None None None) as [_ Hafter].
  exact (Hafter eq_refl).
Defined.

Lemma the_smallest_parent_is_found_witness :
  ascending Z.ltb (mSubstates twoParents)
  /\ P <> C1
  /\ getParentState C1 twoParents = Some D
  /\ getParentState C1 (registerSubstate P C1 false twoParents).2 = Some P.
Proof.
  split; [split; [constructor | exact I]|]. split; [discriminate|].
  split; [reflexivity|].
  destruct (the_smallest_parent_is_found P C1 false A twoParents
              (conj (Forall_nil_2 _) I) ltac:(discriminate))
    as (_ & Hfound & _).
  exact Hfound.
Defined.

Lemma a_parent_cycle_makes_the_search_endless_witness :
  getParentState A round = Some B
  /\ getParentState B round = Some A
  /\ equal_range pair_lt (A, e) (mTransitionsByEvent round) = []
  /\ equal_range pair_lt (B, e) (mTransitionsByEvent round) = []
  /\ findTransitionTargetFrom 1000 A e [] round = None.
Proof.
  split; [reflexivity|]. split; [reflexivity|]. split; [reflexivity|].
  split; [reflexivity|].
  exact (proj1 (a_parent_cycle_makes_the_search_endless 1000 A B e [] round
                  eq_refl eq_refl eq_refl eq_refl)).
Defined.

Lemma new_safe_machine_is_structured : SafeStructure.structured safe.
Proof.
  split; [apply NoDup_nil_2|]. split; [|split].
  - intros s Hcycle. by inversion Hcycle.
  - intros p c [].
  - intros p e' Hp.
    change (mSubstateEntryPoint (SafeStructure.base safe))
      with (∅ : gmap Z Z) in Hp.
    by rewrite lookup_empty in Hp.
Qed.

Lemma safe_registration_keeps_the_forest_witness :
  SafeStructure.structured safe
  /\ (exists h1,
        SafeStructure.registerSubstate 1 P C1 true safe = Some (true, h1)
        /\ SafeStructure.structured h1)
  /\ SafeStructure.registerSubstate 1 P C1 false safe = Some (false, safe).
Proof.
  split; [exact new_safe_machine_is_structured|]. split; [|reflexivity].
  eexists. split; [reflexivity|].
  exact (proj1 (safe_registration_keeps_the_forest 1 P C1 true safe true _
                  new_safe_machine_is_structured eq_refl)).
Defined.

Lemma safe_registration_decides_witness :
  SafeStructure.structured safe
  /\ (length (mSubstates (SafeStructure.base safe)) < 1)%nat
  /\ exists ok h1,
       SafeStructure.registerSubstate 1 P C1 true safe = Some (ok, h1).
Proof.
  split; [exact new_safe_machine_is_structured|]. split; [simpl; lia|].
  destruct (safe_registration_decides 1 P C1 true safe
              new_safe_machine_is_structured ltac:(simpl; lia))
    as (ok & h1 & Hreg & _).
  exists ok, h1. exact Hreg.
Defined.

Lemma qt_emits_only_when_started_witness :
  HsmEventDispatcherQt.objects twoDispatchers !! 1%nat = Some ([], [])
  /\ is_Some (HsmEventDispatcherQt.objects twoDispatchers !! 0%nat)
  /\ HsmEventDispatcherQt.emitEventOn 1 twoDispatchers = Some twoDispatchers
  /\ exists p1,
       HsmEventDispatcherQt.startOn (fun hint => hint) 0 twoDispatchers
       = Some (true, p1)
       /\ HsmEventDispatcherQt.emitEventOn 1 p1
          = Some (HsmEventDispatcherQt.mkProgram 1777
                    [([], []); ([], [1777%Z])]).
Proof.
  split; [reflexivity|]. split; [by eexists|].
  destruct (qt_emits_only_when_started (fun hint => hint) (fun _ => 0%Z)
              0 1 twoDispatchers [] [] eq_refl
              (ex_intro _ _ eq_refl))
    as (Hbefore & started & p1 & Hstart & _ & Hafter).
  split; [exact (Hbefore eq_refl)|].
  injection Hstart as <- <-.
  eexists. split; [reflexivity|].
  destruct (Hafter eq_refl) as (_ & _ & Hemit & _). exact Hemit.
Defined.

Lemma qt_handlers_come_and_go_witness :
  Forall (fun item : Z * (nat -> nat) => fst item <> 1%Z)
         (HsmEventDispatcherQt.mEventHandlers qt)
  /\ HsmEventDispatcherQt.unregisterEventHandler 1
       (HsmEventDispatcherQt.registerEventHandler 1 S qt).2 = qt
  /\ HsmEventDispatcherQt.event 1777 qt 0%nat = (false, 0%nat).
Proof.
  split; [constructor|].
  destruct (qt_handlers_come_and_go 1 1777 S qt 0%nat (Forall_nil_2 _))
    as (Hround & _ & _ & Hother & _).
  split; [exact Hround|]. apply Hother. discriminate.
Defined.
End more_scenarios.

(** * Properties of the machine whose callbacks post *)

Section posting_facts.
Context {W Variant : Type}.
Implicit Types (m mq : Posting.Machine W Variant).
Implicit Types (cs : list (Posting.Call Variant)).
Implicit Types (P : Posting.Call Variant -> Prop).
Implicit Types (ti : TransitionInfo (Posting.Client W Variant) Variant).
Implicit Types (event : PendingEventInfo Variant) (a : VariantList_t Variant).


Lemma dress_dress m1 m2 m : Posting.dress m1 (Posting.dress m2 m) = Posting.dress m1 m.
Proof. reflexivity. Qed.


Lemma sameEngine_trans m1 m2 m3 :
  Posting.sameEngine m1 m2 -> Posting.sameEngine m2 m3 ->
  Posting.sameEngine m1 m3.
Proof.
  unfold Posting.sameEngine. intros H12 H23. rewrite H23 at 1.
  rewrite H12. reflexivity.
Qed.

Lemma sameEngine_dress x m : Posting.sameEngine m (Posting.dress x m).
Proof. reflexivity. Qed.































(** ** The way down through entry points *)








End posting_facts.

(** * The transition and the turn, with callbacks that post *)

Section posting_properties.
Context {W Variant : Type}.
Implicit Types (m mq : Posting.Machine W Variant).
Implicit Types (cs : list (Posting.Call Variant)).
Implicit Types (P : Posting.Call Variant -> Prop).
Implicit Types (event : PendingEventInfo Variant) (a : VariantList_t Variant).



End posting_properties.

(** * The machines whose callbacks post, run *)

Section posting_scenarios.
Import Scenario MoreScenarios.









Lemma turns_last {X : Type} n fuel (m m1 : Posting.Machine X Z) :
  Posting.turns n fuel m = Some m1 ->
  Posting.turns (S n) fuel m
  = match Posting.dispatchEvents fuel m1 with
    | Some (Returned _ m2) => Some m2
    | _ => None
    end.
Proof.
  revert m. induction n as [|n IH]; intros m.
  - intros [= <-]. simpl.
    by destruct (Posting.dispatchEvents fuel m) as [[[] m2|m2]|].
  - change (Posting.turns (S n) fuel m)
      with (match Posting.dispatchEvents fuel m with
            | Some (Returned _ m0) => Posting.turns n fuel m0
            | _ => None
            end).
    change (Posting.turns (S (S n)) fuel m)
      with (match Posting.dispatchEvents fuel m with
            | Some (Returned _ m0) => Posting.turns (S n) fuel m0
            | _ => None
            end).
    destruct (Posting.dispatchEvents fuel m) as [[[] m0|m0]|]; try done.
    apply IH.
Qed.

Lemma helloWorld_turn s lines log d :
  s = OFF \/ s = ON ->
  Posting.dispatchEvents 1 (helloWorldIn s lines log d)
  = Some (Returned tt
            (helloWorldIn (toggled s) (lines ++ [toggled s])
               (log ++ [mkInvocation (toggled s)
                                     (StateChanged (toggled s) [])])
               (emitEvent (emitEvent d)))).
Proof. intros [-> | ->]; reflexivity. Qed.

(** X21: the machine of the example never comes to rest.  After [main]
    has posted SWITCH, every turn of the dispatcher takes the one event of
    the queue, changes the state, has the new state print its line and
    post SWITCH again, and asks for another turn: after [n] turns the
    machine is in OFF when [n] is even and in ON when it is odd, [n] lines
    are printed, and one SWITCH is in the queue. *)
Theorem the_example_never_comes_to_rest (n : nat) :
  exists m,
    Posting.turns n 1 helloWorldPosted = Some m
    /\ mCurrentState m = (if Nat.even n then OFF else ON)
    /\ mPendingEvents m = [normal SWITCH []]
    /\ Posting.data (world m) = printed n
    /\ exists d, mDispatcher m = Some d /\ emitted d = (1 + 2 * n)%nat.
Proof.
  assert (Hinv : exists log d,
             Posting.turns n 1 helloWorldPosted
             = Some (helloWorldIn (if Nat.even n then OFF else ON)
                                  (printed n) log d)
             /\ emitted d = (1 + 2 * n)%nat).
  { induction n as [|n (log & d & Hturns & Hd)].
    - exists [], (emitEvent (registerEventHandler host).2).
      split; reflexivity.
    - rewrite (turns_last _ _ _ _ Hturns).
      rewrite helloWorld_turn by (destruct (Nat.even n); [by left | by right]).
      replace (Nat.even (S n)) with (negb (Nat.even n))
        by (by rewrite Nat.even_succ, Nat.negb_even).
      cbn [printed].
      destruct (Nat.even n); eexists _, _; (split; [reflexivity|]);
        simpl; rewrite Hd; lia. }
  destruct Hinv as (log & d & Hturns & Hd).
  eexists. split; [exact Hturns|]. repeat split. by exists d.
Qed.
End posting_scenarios.
